(** * github-top-repos: exhaustive repository search past the 1000-result cap

    A shallow embedding of the five command-line programs of the
    repository (all in package [main]):

    - [Hourly]    the day+hour partitioned overlapping-offset scraper
                  (first program of [main.go], with the rate limiter);
    - [Daily]     the day partitioned overlapping-offset scraper;
    - [Watermark] the push-timestamp watermark scraper keyed by [DatabaseId];
    - [Legacy]    the earlier watermark scraper keyed by [NameWithOwner]
                  (second program of [main.go]);
    - [TopRepos]  the metric-windowing scraper (stars / forks / size).

    The GraphQL client is external.  A run is driven by the sequence of
    outcomes of the successive [client.Query] calls (the response script);
    a call that needs an answer the script does not hold is left waiting.
    The observable effects of the code (rate-limiter draws, requests,
    sleeps, records written) are returned as a trace; the [log.Printf]
    diagnostics on stderr are left out.  Unbounded loops that are not
    driven by the script take fuel.

    [main] of the four CSV programs comes twice: in the module of the
    program, with a transport at hand and a CSV writer that accepts every
    record; and in [Process], with what [ghauth.Transport] returned and a
    writer that may refuse a record or report an error, so with every
    [log.Fatalf] that follows the parsing of the flags.  The first is the
    second when nothing fails ([Process_main_accepting]). *)

From Stdlib Require Import ZArith Ascii String DecimalString Lia.
From Stdlib Require DecimalZ DecimalPos.
From stdpp Require Import gmap strings list.

Local Open Scope string_scope.
Local Open Scope list_scope.
Local Open Scope Z_scope.

(** ** Go standard library: strings, strconv, fmt, encoding/base64 *)

Module strings.

(** [strings.HasPrefix(s, prefix)]. *)
Fixpoint HasPrefix (s prefix : string) {struct prefix} : bool :=
  match prefix, s with
  | EmptyString, _ => true
  | String _ _, EmptyString => false
  | String a prefix', String b s' =>
      if Ascii.eqb a b then HasPrefix s' prefix' else false
  end.

(** [strings.Contains(s, substr)]. *)
Fixpoint Contains (s substr : string) : bool :=
  HasPrefix s substr ||
  match s with
  | EmptyString => false
  | String _ s' => Contains s' substr
  end.

(** [strings.Cut(s, sep)] for a one-byte separator: the text before and
    after the first [sep], and whether [sep] was found; when it is not
    found the result is [s, "", false]. *)
Fixpoint Cut (s : string) (sep : ascii) : string * string * bool :=
  match s with
  | EmptyString => (EmptyString, EmptyString, false)
  | String c s' =>
      if Ascii.eqb c sep then (EmptyString, s', true)
      else let '(before, after, found) := Cut s' sep in
           (String c before, after, found)
  end.

End strings.

Module strconv.

(** [strconv.FormatInt(i, 10)] and [strconv.Itoa(i)]. *)
Definition FormatInt (i : Z) : string := NilZero.string_of_int (Z.to_int i).
Definition Itoa (i : Z) : string := FormatInt i.

End strconv.

Module fmt.

Fixpoint zeros (n : nat) : string :=
  match n with
  | O => EmptyString
  | S n' => String "0" (zeros n')
  end.

(** The verb [%0Nd]: decimal, zero padded after the sign to [width]
    characters ([%d] is [width = 0]). *)
Definition pad_d (width : nat) (x : Z) : string :=
  let sign := if x <? 0 then "-" else "" in
  let digits := strconv.FormatInt (Z.abs x) in
  sign +:+ zeros (width - String.length sign - String.length digits)%nat +:+ digits.

End fmt.

Module base64.

Definition encodeStd : string :=
  "ABCDEFGHIJKLMNOPQRSTUVWXYZabcdefghijklmnopqrstuvwxyz0123456789+/".

Definition enc (val : N) : ascii :=
  match String.get (N.to_nat (N.land val 63)) encodeStd with
  | Some c => c
  | None => "="%char
  end.

Definition byte (c : ascii) : N := N_of_ascii c.

(** [base64.StdEncoding.EncodeToString(src)]: three source bytes give four
    characters; a remainder of one or two bytes is padded with ['=']. *)
Fixpoint EncodeToString (src : string) : string :=
  match src with
  | String a (String b (String c rest)) =>
      let val := N.lor (N.lor (N.shiftl (byte a) 16) (N.shiftl (byte b) 8)) (byte c) in
      String (enc (N.shiftr val 18)) (String (enc (N.shiftr val 12))
        (String (enc (N.shiftr val 6)) (String (enc val) (EncodeToString rest))))
  | String a (String b EmptyString) =>
      let val := N.lor (N.shiftl (byte a) 16) (N.shiftl (byte b) 8) in
      String (enc (N.shiftr val 18)) (String (enc (N.shiftr val 12))
        (String (enc (N.shiftr val 6)) "="))
  | String a EmptyString =>
      let val := N.shiftl (byte a) 16 in
      String (enc (N.shiftr val 18)) (String (enc (N.shiftr val 12)) "==")
  | EmptyString => EmptyString
  end.

End base64.

(** ** Go standard library: time

    [time.Time] is an instant with a location.  The instant is kept as Go
    keeps it internally, in seconds since January 1, year 1, 00:00:00 UTC,
    plus nanoseconds; the location is a fixed offset in seconds east of UTC
    (0 for [time.UTC], which is what the search API returns and what
    [time.ParseInLocation(_, _, time.UTC)] produces). *)

Module time.

Record Time := mkTime { sec : Z; nsec : Z; offset : Z }.

(** The zero value [time.Time{}]. *)
Definition zero : Time := mkTime 0 0 0.

(** [t.IsZero()]: January 1, year 1, 00:00:00 UTC. *)
Definition IsZero (t : Time) : bool := (sec t =? 0) && (nsec t =? 0).

(** [t.After(u)]. *)
Definition After (t u : Time) : bool :=
  (sec u <? sec t) || ((sec t =? sec u) && (nsec u <? nsec t)).

Definition secondsPerDay : Z := 86400.

(** Midnight UTC of the day [d] days after January 1, year 1: the value
    of [time.ParseInLocation("2006-01-02", s, time.UTC)] for the date
    with that day number. *)
Definition Midnight (d : Z) : Time := mkTime (secondsPerDay * d) 0 0.

(** [t.AddDate(0, 0, days)] in a location without daylight-saving
    transitions: the same wall clock [days] calendar days later. *)
Definition AddDate_days (t : Time) (days : Z) : Time :=
  mkTime (sec t + secondsPerDay * days) (nsec t) (offset t).

(** Seconds since year 1 of the wall clock shown in [t]'s location. *)
Definition abs (t : Time) : Z := sec t + offset t.

(** Proleptic Gregorian date (year, month, day) of the day [d] days
    after January 1, year 1. *)
Definition civil (d : Z) : Z * Z * Z :=
  let z := d + 306 in
  let era := z / 146097 in
  let doe := z mod 146097 in
  let yoe := (doe - doe / 1460 + doe / 36524 - doe / 146096) / 365 in
  let doy := doe - (365 * yoe + yoe / 4 - yoe / 100) in
  let mp := (5 * doy + 2) / 153 in
  let day := doy - (153 * mp + 2) / 5 + 1 in
  let month := if mp <? 10 then mp + 3 else mp - 9 in
  let year := yoe + era * 400 + (if month <=? 2 then 1 else 0) in
  (year, month, day).

(** [t.Date()] and [t.Clock()]. *)
Definition Date (t : Time) : Z * Z * Z := civil (abs t / secondsPerDay).
Definition Clock (t : Time) : Z * Z * Z :=
  let s := abs t mod secondsPerDay in
  (s / 3600, (s mod 3600) / 60, s mod 60).

(** [appendInt]: sign, then the digits zero padded to [width]. *)
Definition appendInt (x : Z) (width : nat) : string :=
  let digits := strconv.FormatInt (Z.abs x) in
  (if x <? 0 then "-" else "") +:+
  fmt.zeros (width - String.length digits)%nat +:+ digits.

(** [t.Format("2006-01-02")]. *)
Definition FormatDate (t : Time) : string :=
  let '(year, month, day) := Date t in
  appendInt year 4 +:+ "-" +:+ appendInt month 2 +:+ "-" +:+ appendInt day 2.

(** The layout element [15:04:05]. *)
Definition FormatClock (t : Time) : string :=
  let '(hour, min, s) := Clock t in
  appendInt hour 2 +:+ ":" +:+ appendInt min 2 +:+ ":" +:+ appendInt s 2.

(** The layout element [Z07:00]. *)
Definition FormatZone (t : Time) : string :=
  if offset t =? 0 then "Z"
  else
    let zone := Z.quot (offset t) 60 in
    (if zone <? 0 then "-" else "+") +:+
    appendInt (Z.quot (Z.abs zone) 60) 2 +:+ ":" +:+
    appendInt (Z.rem (Z.abs zone) 60) 2.

(** [t.Format(time.RFC3339)], layout [2006-01-02T15:04:05Z07:00]. *)
Definition FormatRFC3339 (t : Time) : string :=
  FormatDate t +:+ "T" +:+ FormatClock t +:+ FormatZone t.

(** [t.Format("2006-01-02T15:04:05Z")]: the ['Z'] is literal text. *)
Definition FormatStampZ (t : Time) : string :=
  FormatDate t +:+ "T" +:+ FormatClock t +:+ "Z".

Definition Second : Z := 1.

End time.

Module githubv4.

(** [githubv4.DateTime] embeds a [time.Time]; a JSON [null] decodes to
    the zero value. *)
Record DateTime := mkDateTime { Time : time.Time }.

Definition IsZero (dt : DateTime) : bool := time.IsZero (Time dt).

End githubv4.

(** ** The search client and the effect trace *)

(** One decoded page of [search(query: $query, type: REPOSITORY, first: 100)]:
    the nodes and the [pageInfo]. *)
Record Page (R : Type) := mkPage {
  Nodes : list R;
  HasNextPage : bool;
  EndCursor : string
}.
Arguments mkPage {R} _ _ _.
Arguments Nodes {R} _.
Arguments HasNextPage {R} _.
Arguments EndCursor {R} _.

(** The outcome of one [client.Query] call: the decoded page, or an error
    with its [err.Error()] text. *)
Inductive Response (R : Type) :=
| Ok (page : Page R)
| Err (msg : string).
Arguments Ok {R} _.
Arguments Err {R} _.

(** Effects of a run, in program order.  [log.Printf] diagnostics are not
    traced. *)
Inductive Event :=
| Take                                        (* rl.Take() *)
| Query (query : string) (cursor : option string)   (* client.Query variables *)
| Sleep (seconds : Z).                        (* time.Sleep *)

(** How a call ends: it returns a value, returns an error, or is still
    waiting for the client when the response script ends. *)
Inductive Result (A : Type) :=
| Returned (a : A)
| Failed (err : string)
| Pending.
Arguments Returned {A} _.
Arguments Failed {A} _.
Arguments Pending {A}.

(** A call's trace, its result, and the responses it left unconsumed. *)
Definition Run (R A : Type) : Type := list Event * Result A * list (Response R).

(** A run after some effects. *)
Definition emit {R A} (evs : list Event) (run : Run R A) : Run R A :=
  let '(evs', res, rest) := run in (evs ++ evs', res, rest).

(** The requests of a trace (query and cursor), and its sleeps. *)
Definition requests (evs : list Event) : list (string * option string) :=
  omap (fun e => match e with Query q c => Some (q, c) | _ => None end) evs.

Definition sleeps (evs : list Event) : list Z :=
  omap (fun e => match e with Sleep d => Some d | _ => None end) evs.

(** ** The repository record of the identifier-keyed programs
    ([Hourly], [Daily] and [Watermark] declare the same struct). *)

Record Repository := mkRepository {
  ArchivedAt : githubv4.DateTime;
  CreatedAt : githubv4.DateTime;
  DatabaseId : Z;
  DiskUsage : Z;
  ForkCount : Z;
  NameWithOwner : string;
  PushedAt : githubv4.DateTime;
  StargazerCount : Z;
  UpdatedAt : githubv4.DateTime
}.

(** [csvDateTime]. *)
Definition csvDateTime (dt : githubv4.DateTime) : string :=
  if githubv4.IsZero dt then "" else time.FormatRFC3339 (githubv4.Time dt).

(** The record written by [writer.Write] for one repository. *)
Definition csvRecord (repo : Repository) : list string :=
  let '(owner, name, _) := strings.Cut (NameWithOwner repo) "/" in
  [ owner;
    name;
    strconv.FormatInt (DatabaseId repo);
    strconv.FormatInt (StargazerCount repo);
    strconv.FormatInt (ForkCount repo);
    strconv.FormatInt (DiskUsage repo);
    csvDateTime (CreatedAt repo);
    csvDateTime (UpdatedAt repo);
    csvDateTime (PushedAt repo);
    csvDateTime (ArchivedAt repo) ].

(** ** Overlapping-offset strategy: [Search] of [Hourly] and [Daily] *)

Module Offset.
Section Search.

(** The two programs differ in the rate limiter ([Hourly] only) and in
    the error texts they retry. *)
Variable rateLimited : bool.
Variable transient : string -> bool.

(** [first: 100] of the search field; the step and the bound of the
    offset loop. *)
Definition pageSize : Z := 100.
Definition step : Z := 91.
Definition ceiling : Z := 1000.

(** The [$cursor] variable: nil at offset 0, else base64 of [cursor:N]. *)
Definition cursorOf (offset : Z) : option string :=
  if 0 <? offset
  then Some (base64.EncodeToString ("cursor:" +:+ fmt.pad_d 0 offset))
  else None.

(** [rl.Take()] and [client.Query] at [offset]. *)
Definition request (query : string) (offset : Z) : list Event :=
  (if rateLimited then [Take] else []) ++ [Query query (cursorOf offset)].

(** [for _, node := range results.Search.Nodes]. *)
Fixpoint rangeNodes (uniq : gset Z) (repos nodes : list Repository)
  : gset Z * list Repository :=
  match nodes with
  | [] => (uniq, repos)
  | node :: nodes' =>
      if decide (DatabaseId node ∈ uniq)
      then rangeNodes uniq repos nodes'
      else rangeNodes ({[DatabaseId node]} ∪ uniq) (repos ++ [node]) nodes'
  end.

(** The body of [for offset := 0; offset < 1000; offset += 91], entered
    at [offset] with the loop condition already checked. *)
Fixpoint SearchFrom (query : string) (offset : Z) (uniq : gset Z)
    (repos : list Repository) (script : list (Response Repository))
  : Run Repository (list Repository) :=
  match script with
  | [] => (request query offset, Pending, [])
  | Err err :: script' =>
      if transient err
      then emit (request query offset ++ [Sleep (10 * time.Second)])
                (SearchFrom query offset uniq repos script')
      else (request query offset, Failed err, script')
  | Ok results :: script' =>
      let '(uniq', repos') := rangeNodes uniq repos (Nodes results) in
      if negb (HasNextPage results)
      then (request query offset, Returned repos', script')
      else if offset + step <? ceiling
      then emit (request query offset)
                (SearchFrom query (offset + step) uniq' repos' script')
      else (request query offset, Returned repos', script')
  end.

Definition Search (query : string) (script : list (Response Repository))
  : Run Repository (list Repository) :=
  SearchFrom query 0 ∅ [] script.

End Search.
End Offset.

(** ** The date-partitioned programs *)

(** Why a program stops with [log.Fatalf]. *)
Inductive Fatal :=
| StartAfterEnd
| UnsupportedField (field : string)
| SearchFailed (err : string).

(** How a program (or one of its loops) ends: it runs to completion, dies
    in [log.Fatalf], is still waiting for the client when the response
    script ends, or the day loop of the model is out of fuel. *)
Inductive Exit :=
| Completed
| Fatalf (cause : Fatal)
| Waiting
| OutOfFuel.

(** The trace, the records written to the CSV writer, the way the run
    ends and the responses left unconsumed.  The writer is taken to
    accept every record. *)
Definition Output (R : Type) : Type :=
  list Event * list (list string) * Exit * list (Response R).

Definition write {R} (evs : list Event) (rows : list (list string))
    (out : Output R) : Output R :=
  let '(evs', rows', exit, rest) := out in (evs ++ evs', rows ++ rows', exit, rest).

Module Hourly.

Definition transient (err : string) : bool :=
  strings.Contains err "You have exceeded a secondary rate limit"
  || strings.Contains err "Something went wrong while executing your query"
  || strings.Contains err "504 Gateway Timeout".

Definition Search := Offset.Search true transient.

(** [fmt.Sprintf("%s created:%sT%02d:00:00Z..%sT%02d:59:59Z", ...)]. *)
Definition hourQuery (query : string) (day : time.Time) (hour : Z) : string :=
  query +:+ " created:" +:+ time.FormatDate day +:+ "T" +:+ fmt.pad_d 2 hour
    +:+ ":00:00Z.." +:+ time.FormatDate day +:+ "T" +:+ fmt.pad_d 2 hour
    +:+ ":59:59Z".

(** [for hour := 0; hour < 24; hour++], over the hours still to do. *)
Fixpoint rangeHours (query : string) (day : time.Time) (hours : list Z)
    (script : list (Response Repository)) : Output Repository :=
  match hours with
  | [] => ([], [], Completed, script)
  | hour :: hours' =>
      match Search (hourQuery query day hour) script with
      | (evs, Returned repos, rest) =>
          write evs (map csvRecord repos) (rangeHours query day hours' rest)
      | (evs, Failed err, rest) => (evs, [], Fatalf (SearchFailed err), rest)
      | (evs, Pending, rest) => (evs, [], Waiting, rest)
      end
  end.

(** [for day := startTime; !day.After(endTime); day = day.AddDate(0, 0, 1)]. *)
Fixpoint rangeDays (fuel : nat) (query : string) (day endTime : time.Time)
    (script : list (Response Repository)) : Output Repository :=
  match fuel with
  | O => ([], [], OutOfFuel, script)
  | S fuel' =>
      if time.After day endTime then ([], [], Completed, script)
      else
        match rangeHours query day (seqZ 0 24) script with
        | (evs, rows, Completed, rest) =>
            write evs rows
              (rangeDays fuel' query (time.AddDate_days day 1) endTime rest)
        | stopped => stopped
        end
  end.

(** [main], from the parsed flags on, with a transport at hand and a
    writer that accepts every record. *)
Definition main (fuel : nat) (query : string) (startTime endTime : time.Time)
    (script : list (Response Repository)) : Output Repository :=
  if time.After startTime endTime then ([], [], Fatalf StartAfterEnd, script)
  else rangeDays fuel query startTime endTime script.

End Hourly.

Module Daily.

Definition transient (err : string) : bool :=
  strings.Contains err "You have exceeded a secondary rate limit."
  || strings.Contains err "Something went wrong while executing your query."
  || strings.Contains err "504 Gateway Timeout".

Definition Search := Offset.Search false transient.

(** [fmt.Sprintf("%s created:%sT00:00:00Z..%sT23:59:59Z", ...)]. *)
Definition dayQuery (query : string) (day : time.Time) : string :=
  query +:+ " created:" +:+ time.FormatDate day +:+ "T00:00:00Z.."
    +:+ time.FormatDate day +:+ "T23:59:59Z".

(** [for day := startTime; !day.After(endTime); day = day.AddDate(0, 0, 1)]. *)
Fixpoint rangeDays (fuel : nat) (query : string) (day endTime : time.Time)
    (script : list (Response Repository)) : Output Repository :=
  match fuel with
  | O => ([], [], OutOfFuel, script)
  | S fuel' =>
      if time.After day endTime then ([], [], Completed, script)
      else
        match Search (dayQuery query day) script with
        | (evs, Returned repos, rest) =>
            write evs (map csvRecord repos)
              (rangeDays fuel' query (time.AddDate_days day 1) endTime rest)
        | (evs, Failed err, rest) => (evs, [], Fatalf (SearchFailed err), rest)
        | (evs, Pending, rest) => (evs, [], Waiting, rest)
        end
  end.

(** [main], from the parsed flags on, with a transport at hand and a
    writer that accepts every record. *)
Definition main (fuel : nat) (query : string) (startTime endTime : time.Time)
    (script : list (Response Repository)) : Output Repository :=
  if time.After startTime endTime then ([], [], Fatalf StartAfterEnd, script)
  else rangeDays fuel query startTime endTime script.

End Daily.

(** ** Watermark strategy: [Search] and [IterSearch] of [Watermark] and [Legacy] *)

(** How an iteration stands when the response script ends: the iterator
    function has returned, or it is waiting for the client. *)
Inductive Status :=
| Finished
| Awaiting.

Module Pushed.
Section IterSearch.

(** The two programs differ in the record they decode and in the key of
    the [uniq] map: [DatabaseId] in [Watermark], [NameWithOwner] in
    [Legacy]. *)
Context {R K : Type} `{Countable K}.
Variable key : R -> K.
Variable pushedAt : R -> githubv4.DateTime.
Variable zeroValue : R.

(** What [yield] returns, as a function of the pairs yielded so far (the
    current one last): [false] when the consumer leaves its loop. *)
Variable yield : list (R * option string) -> bool.

(** The query text assembled by [Search]. *)
Definition searchQuery (query : string) (since : option time.Time) : string :=
  let query := query +:+ " sort:updated-asc" in
  match since with
  | Some since => query +:+ " pushed:>=" +:+ time.FormatStampZ since
  | None => query
  end.

(** The [client.Query] call of [Search]: no [$cursor] variable. *)
Definition searchRequest (query : string) (since : option time.Time)
  : list Event :=
  [Query (searchQuery query since) None].

(** [Search], given the client's answer: the page and whether it is the
    last one, or the error. *)
Definition Search (query : string) (since : option time.Time)
    (answer : Response R) : list Event * Result (list R * bool) :=
  match answer with
  | Err err => (searchRequest query since, Failed err)
  | Ok results =>
      (searchRequest query since,
       Returned (Nodes results, negb (HasNextPage results)))
  end.

(** [for _, repo := range repos]; the flag is [false] when [yield]
    returned [false]. *)
Fixpoint rangeRepos (uniq : gset K) (items : list (R * option string))
    (repos : list R) : gset K * list (R * option string) * bool :=
  match repos with
  | [] => (uniq, items, true)
  | repo :: repos' =>
      if decide (key repo ∈ uniq)
      then rangeRepos uniq items repos'
      else
        let uniq := {[key repo]} ∪ uniq in
        let items := items ++ [(repo, None)] in
        if yield items then rangeRepos uniq items repos'
        else (uniq, items, false)
  end.

(** The body of the [for] loop of the iterator function. *)
Fixpoint IterSearchFrom (query : string) (since : option time.Time)
    (uniq : gset K) (items : list (R * option string))
    (script : list (Response R))
  : list Event * list (R * option string) * Status :=
  match script with
  | [] => (searchRequest query since, items, Awaiting)
  | answer :: script' =>
      match Search query since answer with
      | (evs, Failed err) =>
          if strings.Contains err "You have exceeded a secondary rate limit."
          then
            let '(evs', items', status) :=
              IterSearchFrom query since uniq items script' in
            (evs ++ [Sleep (10 * time.Second)] ++ evs', items', status)
          else (evs, items ++ [(zeroValue, Some err)], Finished)
      | (evs, Pending) => (evs, items, Awaiting)
      | (evs, Returned (repos, done)) =>
          match rangeRepos uniq items repos with
          | (_, items', false) => (evs, items', Finished)
          | (uniq', items', true) =>
              if done then (evs, items', Finished)
              else
                let since' :=
                  match last repos with
                  | Some repo => Some (githubv4.Time (pushedAt repo))
                  | None => since
                  end in
                let '(evs', items'', status) :=
                  IterSearchFrom query since' uniq' items' script' in
                (evs ++ evs', items'', status)
          end
      end
  end.

Definition IterSearch (query : string) (script : list (Response R))
  : list Event * list (R * option string) * Status :=
  IterSearchFrom query None ∅ [] script.

End IterSearch.

(** The consumer that never leaves its loop, as the loop of [main]:
    [yield] always returns true. *)
Definition consumeAll {R} (_ : list (R * option string)) : bool := true.

(** The repositories among the yielded pairs (those with a nil error). *)
Definition entities {R} (items : list (R * option string)) : list R :=
  omap (fun item => match item.2 with None => Some item.1 | Some _ => None end)
       items.

(** [for repo, err := range IterSearch(...)] of [main]: a record per
    repository, [log.Fatalf] on the first error. *)
Fixpoint rangeItems {R} (record : R -> list string)
    (items : list (R * option string)) (status : Status)
  : list (list string) * Exit :=
  match items with
  | [] => ([], match status with Finished => Completed | Awaiting => Waiting end)
  | (_, Some err) :: _ => ([], Fatalf (SearchFailed err))
  | (repo, None) :: items' =>
      let '(rows, exit) := rangeItems record items' status in
      (record repo :: rows, exit)
  end.

End Pushed.

Module Watermark.

Definition zeroRepository : Repository :=
  mkRepository (githubv4.mkDateTime time.zero) (githubv4.mkDateTime time.zero)
    0 0 0 "" (githubv4.mkDateTime time.zero) 0 (githubv4.mkDateTime time.zero).

Definition IterSearch := Pushed.IterSearch DatabaseId PushedAt zeroRepository.

(** [main], from the parsed argument on, with a transport at hand and a
    writer that accepts every record. *)
Definition main (query : string) (script : list (Response Repository))
  : list Event * list (list string) * Exit :=
  let '(evs, items, status) := IterSearch Pushed.consumeAll query script in
  let '(rows, exit) := Pushed.rangeItems csvRecord items status in
  (evs, rows, exit).

End Watermark.

Module Legacy.

Record Repository := mkRepository {
  NameWithOwner : string;
  CreatedAt : githubv4.DateTime;
  PushedAt : githubv4.DateTime;
  StargazerCount : Z
}.

Definition zeroRepository : Repository :=
  mkRepository "" (githubv4.mkDateTime time.zero) (githubv4.mkDateTime time.zero) 0.

Definition IterSearch := Pushed.IterSearch NameWithOwner PushedAt zeroRepository.

(** The record written by [writer.Write] for one repository. *)
Definition csvRecord (repo : Repository) : list string :=
  [ NameWithOwner repo;
    strconv.Itoa (StargazerCount repo);
    time.FormatRFC3339 (githubv4.Time (CreatedAt repo));
    time.FormatRFC3339 (githubv4.Time (PushedAt repo)) ].

(** [main], from the parsed argument on, with a transport at hand and a
    writer that accepts every record. *)
Definition main (query : string) (script : list (Response Repository))
  : list Event * list (list string) * Exit :=
  let '(evs, items, status) := IterSearch Pushed.consumeAll query script in
  let '(rows, exit) := Pushed.rangeItems csvRecord items status in
  (evs, rows, exit).

End Legacy.

(** ** Metric windowing: [RepositorySearch] and [main] of [TopRepos] *)

Module TopRepos.

Record Repository := mkRepository {
  NameWithOwner : string;
  StargazerCount : Z;
  ForkCount : Z;
  DiskUsage : Z
}.

(** The [for] loop of [RepositorySearch]: follow [EndCursor] until a page
    has no next page. *)
Fixpoint RepositorySearchFrom (query : string) (cursor : option string)
    (repos : list Repository) (script : list (Response Repository))
  : Run Repository (list Repository) :=
  match script with
  | [] => ([Query query cursor], Pending, [])
  | Err err :: script' => ([Query query cursor], Failed err, script')
  | Ok q :: script' =>
      let repos := repos ++ Nodes q in
      if HasNextPage q
      then emit [Query query cursor]
                (RepositorySearchFrom query (Some (EndCursor q)) repos script')
      else ([Query query cursor], Returned repos, script')
  end.

Definition RepositorySearch (query : string)
    (script : list (Response Repository))
  : Run Repository (list Repository) :=
  RepositorySearchFrom query None [] script.

(** [switch field] in the print loop; [value] keeps its content when no
    case matches. *)
Definition fieldValue (field : string) (repo : Repository) (value : Z) : Z :=
  if String.eqb field "stars" then StargazerCount repo
  else if String.eqb field "forks" then ForkCount repo
  else if String.eqb field "size" then DiskUsage repo
  else value.

Definition newline : string := String (ascii_of_nat 10) EmptyString.

(** [for _, repo := range repos]: the lines printed and the last [value]. *)
Fixpoint rangeRepos (field : string) (uniq : gset string)
    (lines : list string) (value : Z) (repos : list Repository)
  : gset string * list string * Z :=
  match repos with
  | [] => (uniq, lines, value)
  | repo :: repos' =>
      let value := fieldValue field repo value in
      if decide (NameWithOwner repo ∈ uniq)
      then rangeRepos field uniq lines value repos'
      else rangeRepos field ({[NameWithOwner repo]} ∪ uniq)
             (lines ++ [NameWithOwner repo +:+ "," +:+ fmt.pad_d 0 value +:+ newline])
             value repos'
  end.

(** The query of one batch. *)
Definition batchQuery (query field : string) (lastValue : Z) : string :=
  let query := query +:+ "sort:" +:+ field in
  if lastValue =? 0
  then query +:+ " " +:+ field +:+ ":>0"
  else query +:+ " " +:+ field +:+ ":<=" +:+ fmt.pad_d 0 lastValue.

(** The [for] loop of [main]; one unit of fuel per batch. *)
Fixpoint batches (fuel : nat) (query field : string) (lastValue : Z)
    (uniq : gset string) (script : list (Response Repository))
  : list Event * list string * Exit :=
  match fuel with
  | O => ([], [], OutOfFuel)
  | S fuel' =>
      match RepositorySearch (batchQuery query field lastValue) script with
      | (evs, Failed err, _) => (evs, [], Fatalf (SearchFailed err))
      | (evs, Pending, _) => (evs, [], Waiting)
      | (evs, Returned [], _) => (evs, [], Completed)
      | (evs, Returned repos, rest) =>
          let '(uniq', lines, value) := rangeRepos field uniq [] 0 repos in
          if value =? lastValue then (evs, lines, Completed)
          else
            let '(evs', lines', exit) :=
              batches fuel' query field value uniq' rest in
            (evs ++ evs', lines ++ lines', exit)
      end
  end.

(** [main], from the parsed arguments on ([query] is empty or ends in a
    space). *)
Definition main (fuel : nat) (field query : string)
    (script : list (Response Repository))
  : list Event * list string * Exit :=
  if String.eqb field "stars" || String.eqb field "forks" || String.eqb field "size"
  then batches fuel query field 0 ∅ script
  else ([], [], Fatalf (UnsupportedField field)).

(** The argument switch at the head of [main], over [os.Args]: with two
    arguments the query is empty, with three it is the third argument and
    a space; any other count prints the usage and exits with status 1
    ([None]). *)
Definition start (args : list string) (fuel : nat)
    (script : list (Response Repository))
  : option (list Event * list string * Exit) :=
  match args with
  | [_; field; query] => Some (main fuel field (query +:+ " ") script)
  | [_; field] => Some (main fuel field "" script)
  | _ => None
  end.

End TopRepos.

(** ** The programs as processes

    [main] of the four CSV programs with all of its [log.Fatalf] calls,
    from the parsed flags or argument on: what [ghauth.Transport]
    returned, a CSV writer that may refuse a record, and the check of
    [writer.Error()] after the loop. *)

Module Process.

(** Why a program stops with [log.Fatalf]: the five calls of [main] after
    the flags are parsed. *)
Inductive Fatal :=
| StartAfterEnd                     (* start date ... is after end date ... *)
| TransportFailed (err : string)    (* ghauth.Transport failed: ... *)
| SearchFailed (err : string)       (* Search failed: ... *)
| WriteFailed (err : string)        (* csv.Writer.Write failed: ... *)
| FlushFailed (err : string).       (* csv.Writer.Flush failed: ..., from writer.Error() *)

(** How a program ends: [main] returns, the process dies in [log.Fatalf],
    it is still waiting for the client when the response script ends, or
    the day loop of the model is out of fuel. *)
Inductive Exit :=
| Completed
| Fatalf (cause : Fatal)
| Waiting
| OutOfFuel.

(** The [csv.Writer] on [os.Stdout] as [main] sees it: what [Write]
    returns (nil, or an error with its text) as a function of the records
    handed to it so far, the current one last; and what [Error] returns
    after those records. *)
Record Writer := mkWriter {
  Write : list (list string) -> option string;
  Error : list (list string) -> option string
}.

(** A run reports its trace, the records [writer.Write] accepted and how
    it ends (the date-partitioned programs also the responses left
    unconsumed).  The records accepted sit in the buffer of the writer
    until it fills up or [writer.Flush] runs; the [Flush] is deferred to
    the return of [main], and [log.Fatalf] ends the process without
    running it, so after a fatal exit the records accepted need not be on
    [os.Stdout]. *)

(** [for _, repo := range repos] of [main]: one [writer.Write] per
    repository; the first error of the writer ends the loop (and the
    process) and is returned with the records accepted before. *)
Fixpoint rangeRepos {R} (record : R -> list string) (writer : Writer)
    (accepted : list (list string)) (repos : list R)
  : list (list string) * option string :=
  match repos with
  | [] => (accepted, None)
  | repo :: repos' =>
      match Write writer (accepted ++ [record repo]) with
      | Some err => (accepted, Some err)
      | None => rangeRepos record writer (accepted ++ [record repo]) repos'
      end
  end.

(** A run after some effects. *)
Definition after {R} (evs : list Event)
    (out : list Event * list (list string) * Exit * list (Response R))
  : list Event * list (list string) * Exit * list (Response R) :=
  let '(evs', accepted, exit, rest) := out in (evs ++ evs', accepted, exit, rest).

(** The body of [for repo, err := range IterSearch(...)] as the [yield]
    of the iterator, for a pair with a nil error: [writer.Write] of the
    record.  It returns true when the writer accepts the record; false
    stands for the [log.Fatalf] of the body, after which nothing runs. *)
Definition body {R} (record : R -> list string) (writer : Writer)
    (items : list (R * option string)) : bool :=
  match Write writer (record <$> Pushed.entities items) with
  | None => true
  | Some _ => false
  end.

(** The range loop of [main] over the pairs the iterator yields, in
    order: [log.Fatalf] on an error pair and on an error of the writer. *)
Fixpoint rangeItems {R} (record : R -> list string) (writer : Writer)
    (accepted : list (list string)) (items : list (R * option string))
    (status : Status) : list (list string) * Exit :=
  match items with
  | [] => (accepted, match status with Finished => Completed | Awaiting => Waiting end)
  | (_, Some err) :: _ => (accepted, Fatalf (SearchFailed err))
  | (repo, None) :: items' =>
      match Write writer (accepted ++ [record repo]) with
      | Some err => (accepted, Fatalf (WriteFailed err))
      | None => rangeItems record writer (accepted ++ [record repo]) items' status
      end
  end.

(** [if err := writer.Error(); err != nil] at the end of [main]. *)
Definition checkError (writer : Writer) (accepted : list (list string))
    (exit : Exit) : Exit :=
  match exit with
  | Completed =>
      match Error writer accepted with
      | Some err => Fatalf (FlushFailed err)
      | None => Completed
      end
  | _ => exit
  end.

Module Hourly.

(** [for hour := 0; hour < 24; hour++], over the hours still to do. *)
Fixpoint rangeHours (writer : Writer) (query : string) (day : time.Time)
    (hours : list Z) (accepted : list (list string))
    (script : list (Response Repository))
  : list Event * list (list string) * Exit * list (Response Repository) :=
  match hours with
  | [] => ([], accepted, Completed, script)
  | hour :: hours' =>
      match Hourly.Search (Hourly.hourQuery query day hour) script with
      | (evs, Returned repos, rest) =>
          match rangeRepos csvRecord writer accepted repos with
          | (accepted', Some err) => (evs, accepted', Fatalf (WriteFailed err), rest)
          | (accepted', None) =>
              after evs (rangeHours writer query day hours' accepted' rest)
          end
      | (evs, Failed err, rest) => (evs, accepted, Fatalf (SearchFailed err), rest)
      | (evs, Pending, rest) => (evs, accepted, Waiting, rest)
      end
  end.

(** [for day := startTime; !day.After(endTime); day = day.AddDate(0, 0, 1)]. *)
Fixpoint rangeDays (writer : Writer) (fuel : nat) (query : string)
    (day endTime : time.Time) (accepted : list (list string))
    (script : list (Response Repository))
  : list Event * list (list string) * Exit * list (Response Repository) :=
  match fuel with
  | O => ([], accepted, OutOfFuel, script)
  | S fuel' =>
      if time.After day endTime then ([], accepted, Completed, script)
      else
        match rangeHours writer query day (seqZ 0 24) accepted script with
        | (evs, accepted', Completed, rest) =>
            after evs
              (rangeDays writer fuel' query (time.AddDate_days day 1) endTime
                 accepted' rest)
        | stopped => stopped
        end
  end.

(** [main], from the parsed flags on; [transport] is the error of
    [ghauth.Transport], if any. *)
Definition main (transport : option string) (writer : Writer) (fuel : nat)
    (query : string) (startTime endTime : time.Time)
    (script : list (Response Repository))
  : list Event * list (list string) * Exit * list (Response Repository) :=
  if time.After startTime endTime then ([], [], Fatalf StartAfterEnd, script)
  else
    match transport with
    | Some err => ([], [], Fatalf (TransportFailed err), script)
    | None =>
        let '(evs, accepted, exit, rest) :=
          rangeDays writer fuel query startTime endTime [] script in
        (evs, accepted, checkError writer accepted exit, rest)
    end.

End Hourly.

Module Daily.

(** [for day := startTime; !day.After(endTime); day = day.AddDate(0, 0, 1)]. *)
Fixpoint rangeDays (writer : Writer) (fuel : nat) (query : string)
    (day endTime : time.Time) (accepted : list (list string))
    (script : list (Response Repository))
  : list Event * list (list string) * Exit * list (Response Repository) :=
  match fuel with
  | O => ([], accepted, OutOfFuel, script)
  | S fuel' =>
      if time.After day endTime then ([], accepted, Completed, script)
      else
        match Daily.Search (Daily.dayQuery query day) script with
        | (evs, Returned repos, rest) =>
            match rangeRepos csvRecord writer accepted repos with
            | (accepted', Some err) => (evs, accepted', Fatalf (WriteFailed err), rest)
            | (accepted', None) =>
                after evs
                  (rangeDays writer fuel' query (time.AddDate_days day 1) endTime
                     accepted' rest)
            end
        | (evs, Failed err, rest) => (evs, accepted, Fatalf (SearchFailed err), rest)
        | (evs, Pending, rest) => (evs, accepted, Waiting, rest)
        end
  end.

(** [main], from the parsed flags on; [transport] is the error of
    [ghauth.Transport], if any. *)
Definition main (transport : option string) (writer : Writer) (fuel : nat)
    (query : string) (startTime endTime : time.Time)
    (script : list (Response Repository))
  : list Event * list (list string) * Exit * list (Response Repository) :=
  if time.After startTime endTime then ([], [], Fatalf StartAfterEnd, script)
  else
    match transport with
    | Some err => ([], [], Fatalf (TransportFailed err), script)
    | None =>
        let '(evs, accepted, exit, rest) :=
          rangeDays writer fuel query startTime endTime [] script in
        (evs, accepted, checkError writer accepted exit, rest)
    end.

End Daily.

Module Watermark.

(** [main], from the parsed argument on; [transport] is the error of
    [ghauth.Transport], if any. *)
Definition main (transport : option string) (writer : Writer)
    (query : string) (script : list (Response Repository))
  : list Event * list (list string) * Exit :=
  match transport with
  | Some err => ([], [], Fatalf (TransportFailed err))
  | None =>
      let '(evs, items, status) :=
        Watermark.IterSearch (body csvRecord writer) query script in
      let '(accepted, exit) := rangeItems csvRecord writer [] items status in
      (evs, accepted, checkError writer accepted exit)
  end.

End Watermark.

Module Legacy.

(** [main], from the parsed argument on; [transport] is the error of
    [ghauth.Transport], if any. *)
Definition main (transport : option string) (writer : Writer)
    (query : string) (script : list (Response Legacy.Repository))
  : list Event * list (list string) * Exit :=
  match transport with
  | Some err => ([], [], Fatalf (TransportFailed err))
  | None =>
      let '(evs, items, status) :=
        Legacy.IterSearch (body Legacy.csvRecord writer) query script in
      let '(accepted, exit) := rangeItems Legacy.csvRecord writer [] items status in
      (evs, accepted, checkError writer accepted exit)
  end.

End Legacy.

End Process.

(** ** Sample data *)

Module Fixture.

Definition at_ (s : Z) : githubv4.DateTime :=
  githubv4.mkDateTime (time.mkTime s 0 0).

Definition never : githubv4.DateTime := githubv4.mkDateTime time.zero.

(** 2025-06-02T07:39:59Z. *)
Definition morning : Z := 86400 * 739403 + 27599.

Definition repo (id : Z) (name : string) (pushed : Z) : Repository :=
  mkRepository never (at_ (morning - 1000)) id 10 2 name (at_ pushed) 5 (at_ pushed).

Definition page {R} (nodes : list R) (more : bool) : Page R :=
  mkPage nodes more "".

Definition hello : Repository := repo 1 "octocat/hello" (morning + 1).
Definition spoon : Repository := repo 2 "octocat/spoon" (morning + 2).
Definition knife : Repository := repo 3 "octocat/knife" (morning + 2).

End Fixture.

(** ** Vocabulary of the properties *)

(** The nodes of the successful answers of a script, in order. *)
Fixpoint pageNodes {R} (script : list (Response R)) : list R :=
  match script with
  | [] => []
  | Ok page :: script' => Nodes page ++ pageNodes script'
  | Err _ :: script' => pageNodes script'
  end.

(** Number of leading pages that report a next page. *)
Fixpoint leading {R} (pages : list (Page R)) : nat :=
  match pages with
  | page :: pages' => if HasNextPage page then S (leading pages') else O
  | [] => O
  end.

(** The requests for the [n] offsets [91 * k], [91 * (k + 1)], ... *)
Definition offsetRequests (query : string) (k n : Z)
  : list (string * option string) :=
  (λ j, (query, Offset.cursorOf (Offset.step * j))) <$> seqZ k n.

(** The watermark after a sequence of answers: the push timestamp of the
    last entity of the latest non-empty page, [since] when there is none. *)
Fixpoint watermark {R} (pushedAt : R -> githubv4.DateTime)
    (since : option time.Time) (answers : list (Response R)) : option time.Time :=
  match answers with
  | [] => since
  | Ok page :: answers' =>
      watermark pushedAt
        (match last (Nodes page) with
         | Some repo => Some (githubv4.Time (pushedAt repo))
         | None => since
         end) answers'
  | Err _ :: answers' => watermark pushedAt since answers'
  end.

(** The trace of [n] failed attempts in a row: the request [attempt], then
    the 10 second sleep, [n] times over. *)
Fixpoint retries (n : nat) (attempt : list Event) : list Event :=
  match n with
  | O => []
  | S n' => attempt ++ [Sleep 10] ++ retries n' attempt
  end.

(** The fields [main] of [TopRepos] accepts. *)
Definition validField (field : string) : Prop :=
  field = "stars" ∨ field = "forks" ∨ field = "size".

(** The page a stalled server keeps answering with: one repository, and
    more to come. *)
Definition stalled : Response Repository :=
  Ok (Fixture.page [Fixture.hello] true).

(** The records of [l] whose key is neither in [seen] nor carried by an
    earlier record of [l]: each new entity at its first occurrence. *)
Fixpoint firstSeen {R K : Type} `{Countable K} (key : R -> K) (seen : gset K)
    (l : list R) : list R :=
  match l with
  | [] => []
  | r :: l' =>
      if decide (key r ∈ seen) then firstSeen key seen l'
      else r :: firstSeen key ({[key r]} ∪ seen) l'
  end.

(** The pairs yielded for the repositories [l]: each with a nil error. *)
Definition yielded {R} (l : list R) : list (R * option string) :=
  (λ r, (r, None)) <$> l.

(** The same record under another display path. *)
Definition rename (g : Repository -> string) (r : Repository) : Repository :=
  mkRepository (ArchivedAt r) (CreatedAt r) (DatabaseId r) (DiskUsage r)
    (ForkCount r) (g r) (PushedAt r) (StargazerCount r) (UpdatedAt r).

(** An answer with every node renamed. *)
Definition renamePage (g : Repository -> string) (page : Page Repository)
  : Page Repository :=
  mkPage (rename g <$> Nodes page) (HasNextPage page) (EndCursor page).

Definition renameAnswer (g : Repository -> string) (answer : Response Repository)
  : Response Repository :=
  match answer with
  | Ok page => Ok (renamePage g page)
  | Err err => Err err
  end.

(** A result, and a yielded pair, with every repository renamed. *)
Definition renameResult (g : Repository -> string)
    (res : Result (list Repository)) : Result (list Repository) :=
  match res with
  | Returned repos => Returned (rename g <$> repos)
  | Failed err => Failed err
  | Pending => Pending
  end.

Definition renameItem (g : Repository -> string)
    (item : Repository * option string) : Repository * option string :=
  match item with
  | (repo, None) => (rename g repo, None)
  | (_, Some _) => item
  end.

(** The row is the record of some repository. *)
Definition isRecord (row : list string) : Prop := ∃ repo, row = csvRecord repo.

(** The trace of a run. *)
Definition traceOf {R} (out : Output R) : list Event := out.1.1.1.

(** The records written in a run. *)
Definition rowsOf {R} (out : Output R) : list (list string) := out.1.1.2.

(** The UTC instant [s] seconds after January 1, year 1, 00:00:00. *)
Definition instant (s : Z) : time.Time := time.mkTime s 0 0.

(** [n] consecutive windows of [len] seconds from the second [start] on,
    each given by its first and its last second. *)
Definition windows (len start n : Z) : list (Z * Z) :=
  (λ i, (start + len * i, start + len * (i + 1) - 1)) <$> seqZ 0 n.

(** The query restricted to the entities created in a window, bounds
    included. *)
Definition createdQuery (query : string) (w : Z * Z) : string :=
  query +:+ " created:" +:+ time.FormatStampZ (instant w.1)
    +:+ ".." +:+ time.FormatStampZ (instant w.2).

(** One search per query, each a call of [search] of its own, in order;
    the records of each are written before the next search starts, and a
    failed search ends the run. *)
Fixpoint searchEach
    (search : string -> list (Response Repository)
              -> Run Repository (list Repository))
    (queries : list string) (script : list (Response Repository))
  : Output Repository :=
  match queries with
  | [] => ([], [], Completed, script)
  | query :: queries' =>
      match search query script with
      | (evs, Returned repos, rest) =>
          write evs (map csvRecord repos) (searchEach search queries' rest)
      | (evs, Failed err, rest) => (evs, [], Fatalf (SearchFailed err), rest)
      | (evs, Pending, rest) => (evs, [], Waiting, rest)
      end
  end.

(** The queries of [k] days from day [d] on, 24 per day. *)
Fixpoint hourlyQueries (query : string) (d : Z) (k : nat) : list string :=
  match k with
  | O => []
  | S k' =>
      (Hourly.hourQuery query (time.Midnight d) <$> seqZ 0 24)
      ++ hourlyQueries query (d + 1) k'
  end.

(** The queries of [k] days from day [d] on, one per day. *)
Fixpoint dailyQueries (query : string) (d : Z) (k : nat) : list string :=
  match k with
  | O => []
  | S k' => Daily.dayQuery query (time.Midnight d) :: dailyQueries query (d + 1) k'
  end.

(** An answer the caller retries: an error that [transient] accepts. *)
Definition retried {R} (transient : string -> bool) (answer : Response R) : bool :=
  match answer with
  | Err err => transient err
  | Ok _ => false
  end.

(** An answer the caller gives up on: an error that [transient] rejects. *)
Definition fatal {R} (transient : string -> bool) (answer : Response R) : bool :=
  match answer with
  | Err err => negb (transient err)
  | Ok _ => false
  end.

(** The script without the answers that are retried. *)
Definition settled {R} (transient : string -> bool) (script : list (Response R))
  : list (Response R) :=
  filter (λ answer, retried transient answer = false) script.

(** The error text the watermark iteration retries. *)
Definition secondaryRateLimit (err : string) : bool :=
  strings.Contains err "You have exceeded a secondary rate limit.".

(** Every request of the trace comes right after a draw from the rate
    limiter, and no draw is left unused. *)
Fixpoint paced (evs : list Event) : bool :=
  match evs with
  | [] => true
  | Take :: Query _ _ :: evs' => paced evs'
  | Sleep _ :: evs' => paced evs'
  | _ => false
  end.

(** The line [main] of [TopRepos] prints for a repository. *)
Definition printLine (field : string) (repo : TopRepos.Repository) : string :=
  TopRepos.NameWithOwner repo +:+ "," +:+
  fmt.pad_d 0 (TopRepos.fieldValue field repo 0) +:+ TopRepos.newline.

(** The error pair that may end the yielded pairs. *)
Definition errorTail {R} (zeroValue : R) (tail : list (R * option string))
    (err : option string) : Prop :=
  match err with
  | None => tail = []
  | Some err => tail = [(zeroValue, Some err)]
  end.

(** An answer after which a loop over pages goes on to its next request:
    a page that reports a next page, or an error that is retried. *)
Definition carriesOn {R} (transient : string -> bool) (answer : Response R) : bool :=
  match answer with
  | Ok page => HasNextPage page
  | Err err => transient err
  end.

(** The number of pages among the answers. *)
Fixpoint pageCount {R} (script : list (Response R)) : nat :=
  match script with
  | [] => O
  | Ok _ :: script' => S (pageCount script')
  | Err _ :: script' => pageCount script'
  end.

(** The answers an iteration without page bound reads: up to and
    including the first that does not carry on. *)
Fixpoint consumed {R} (transient : string -> bool) (script : list (Response R))
  : list (Response R) :=
  match script with
  | [] => []
  | answer :: script' =>
      if carriesOn transient answer then answer :: consumed transient script'
      else [answer]
  end.

(** The error such an iteration ends with: the first error that is not
    retried, unless a page without next page comes before it. *)
Fixpoint failure {R} (transient : string -> bool) (script : list (Response R))
  : option string :=
  match script with
  | [] => None
  | Ok page :: script' => if HasNextPage page then failure transient script' else None
  | Err err :: script' => if transient err then failure transient script' else Some err
  end.

(** The consumer takes every repository of [l], offered one by one after
    the pairs [items]: [yield] returns true for each. *)
Fixpoint accepts {R} (yield : list (R * option string) -> bool)
    (items : list (R * option string)) (l : list R) : bool :=
  match l with
  | [] => true
  | r :: l' =>
      yield (items ++ [(r, None)]) && accepts yield (items ++ [(r, None)]) l'
  end.

(** A writer that accepts every record and reports no error. *)
Definition accepting : Process.Writer :=
  Process.mkWriter (λ _, None) (λ _, None).


(** Every record of [accepted] was accepted by the writer when it was
    handed over. *)
Definition handedOver (writer : Process.Writer) (accepted : list (list string))
  : Prop :=
  ∀ n : nat, (n < length accepted)%nat →
    Process.Write writer (take (S n) accepted) = None.

(** How a run of searches that hands its records to the writer stands to
    its inputs.  It read the answers before [rest], one request each, and
    one more request when it is waiting; none of the answers read is an
    error that is not retried, except the last one when the run died of
    it.  The records accepted extend those accepted before by records of
    repositories, each accepted when handed over; the run died of the
    writer only on a record that was refused. *)
Definition sound (transient : string -> bool) (writer : Process.Writer)
    (script : list (Response Repository)) (accepted : list (list string))
    (out : list Event * list (list string) * Process.Exit
           * list (Response Repository)) : Prop :=
  let '(evs, accepted', exit, rest) := out in
  ∃ used new,
    script = used ++ rest
    ∧ accepted' = accepted ++ new
    ∧ Forall isRecord new
    ∧ (handedOver writer accepted → handedOver writer accepted')
    ∧ length (requests evs)
      = (length used + match exit with Process.Waiting => 1 | _ => 0 end)%nat
    ∧ match exit with
      | Process.Fatalf (Process.SearchFailed err) =>
          ∃ used', used = used' ++ [Err err] ∧ transient err = false
                   ∧ Forall (λ a, fatal transient a = false) used'
      | Process.Fatalf (Process.WriteFailed err) =>
          Forall (λ a, fatal transient a = false) used
          ∧ ∃ repo, Process.Write writer (accepted' ++ [csvRecord repo]) = Some err
      | Process.Fatalf _ => False
      | Process.Waiting => rest = [] ∧ Forall (λ a, fatal transient a = false) used
      | _ => Forall (λ a, fatal transient a = false) used
      end.
(** Why a run of a date-partitioned program died in [log.Fatalf], read
    off its inputs and what it reports. *)
Definition diedOf (transient : string -> bool) (transport : option string)
    (writer : Process.Writer) (startTime endTime : time.Time)
    (script : list (Response Repository))
    (evs : list Event) (accepted : list (list string))
    (rest : list (Response Repository)) (cause : Process.Fatal) : Prop :=
  match cause with
  | Process.StartAfterEnd =>
      time.After startTime endTime = true
      ∧ evs = [] ∧ accepted = [] ∧ rest = script
  | Process.TransportFailed err =>
      time.After startTime endTime = false ∧ transport = Some err
      ∧ evs = [] ∧ accepted = [] ∧ rest = script
  | Process.SearchFailed err =>
      time.After startTime endTime = false ∧ transport = None
      ∧ ∃ used, script = used ++ Err err :: rest
          ∧ transient err = false
          ∧ Forall (λ answer, fatal transient answer = false) used
          ∧ length (requests evs) = S (length used)
  | Process.WriteFailed err =>
      time.After startTime endTime = false ∧ transport = None
      ∧ ∃ repo, Process.Write writer (accepted ++ [csvRecord repo]) = Some err
  | Process.FlushFailed err =>
      time.After startTime endTime = false ∧ transport = None
      ∧ Process.Error writer accepted = Some err
  end.

(** Two ways a run ends that are the same, one named as the programs
    with an accepting writer name it, one as [Process] does. *)
Definition sameExit (exit : Exit) (exit' : Process.Exit) : Prop :=
  match exit, exit' with
  | Completed, Process.Completed => True
  | Fatalf StartAfterEnd, Process.Fatalf Process.StartAfterEnd => True
  | Fatalf (SearchFailed err), Process.Fatalf (Process.SearchFailed err') => err = err'
  | Waiting, Process.Waiting => True
  | OutOfFuel, Process.OutOfFuel => True
  | _, _ => False
  end.

(** * Properties *)

(** ** Yielded pairs *)

Section PushedFacts.

Context {R K : Type} `{Countable K}.

Lemma entities_app (l1 l2 : list (R * option string)) :
  Pushed.entities (l1 ++ l2) = Pushed.entities l1 ++ Pushed.entities l2.
Proof. unfold Pushed.entities. apply omap_app. Qed.

End PushedFacts.

(** ** The offset walk *)

Lemma cursorOf_positive offset :
  0 < offset →
  Offset.cursorOf offset
  = Some (base64.EncodeToString ("cursor:" +:+ strconv.FormatInt offset)).
Proof.
  intros Hpos. unfold Offset.cursorOf, fmt.pad_d.
  destruct (Z.ltb_spec 0 offset) as [_|?]; [|lia].
  destruct (Z.ltb_spec offset 0) as [?|_]; [lia|].
  rewrite Z.abs_eq by lia. simpl String.length.
  by rewrite Nat.sub_0_l.
Qed.

Section WalkFacts.

Variable rateLimited : bool.
Variable transient : string -> bool.

Lemma requests_request query offset evs :
  requests (Offset.request rateLimited query offset ++ evs)
  = (query, Offset.cursorOf offset) :: requests evs.
Proof. unfold Offset.request. by destruct rateLimited. Qed.

Lemma requests_request_only query offset :
  requests (Offset.request rateLimited query offset)
  = [(query, Offset.cursorOf offset)].
Proof. unfold Offset.request. by destruct rateLimited. Qed.

Lemma SearchFrom_pages pages : ∀ query k uniq repos evs res rest,
  0 ≤ k ≤ 10 →
  Offset.SearchFrom rateLimited transient query (Offset.step * k) uniq repos
    (Ok <$> pages) = (evs, res, rest) →
  let n := Z.min (Z.of_nat (leading pages) + 1) (11 - k) in
  requests evs = offsetRequests query k n
  ∧ rest = Ok <$> drop (Z.to_nat n) pages
  ∧ (res = Pending ↔
       leading pages = length pages ∧ Z.of_nat (leading pages) < 11 - k)
  ∧ (∀ err, res ≠ Failed err).
Proof.
  induction pages as [|page pages IH]; intros query k uniq repos evs res rest Hk Heq;
    simpl in Heq.
  - injection Heq as <- <- <-. simpl.
    rewrite Z.min_l by lia. rewrite requests_request_only.
    split; [done|]. split; [done|]. split; [|done].
    split; [intros _; split; [done|lia] | done].
  - destruct (Offset.rangeNodes uniq repos (Nodes page)) as [uniq1 repos1].
    assert (Hstop : ∀ m : nat,
      m = O ∨ k = 10 →
      (Offset.request rateLimited query (Offset.step * k), Returned repos1,
        Ok <$> pages) = (evs, res, rest) →
      let n := Z.min (Z.of_nat m + 1) (11 - k) in
      n = 1 ∧
      requests evs = offsetRequests query k 1
      ∧ rest = Ok <$> drop 1 (page :: pages)
      ∧ (∀ err, res ≠ Failed err) ∧ res ≠ Pending).
    { intros m Hm [= <- <- <-]. rewrite requests_request_only.
      cbv zeta. split; [lia|]. by repeat split. }
    simpl leading. destruct (HasNextPage page) eqn:Hnext; simpl in Heq.
    + destruct (Z.ltb_spec (Offset.step * k + Offset.step) Offset.ceiling) as [Hlt|Hge].
      * unfold emit in Heq.
        replace (Offset.step * k + Offset.step) with (Offset.step * (k + 1)) in Heq
          by (unfold Offset.step; lia).
        destruct (Offset.SearchFrom _ _ _ (Offset.step * (k + 1)) _ _ _)
          as [[evs2 res2] rest2] eqn:Hrec.
        injection Heq as <- <- <-.
        unfold Offset.step, Offset.ceiling in Hlt.
        assert (Hk1 : 0 ≤ k + 1 ≤ 10) by lia.
        destruct (IH _ _ _ _ _ _ _ Hk1 Hrec) as (Hreq & Hrest & Hpend & Hfail).
        cbv zeta in *.
        assert (Hn : Z.min (Z.of_nat (S (leading pages)) + 1) (11 - k)
                     = Z.succ (Z.min (Z.of_nat (leading pages) + 1) (11 - (k + 1))))
          by lia.
        rewrite Hn. split; [|split; [|split]].
        -- rewrite requests_request, Hreq. unfold offsetRequests.
           rewrite (seqZ_cons k) by lia. rewrite fmap_cons.
           by rewrite Z.pred_succ.
        -- rewrite Hrest. rewrite Z2Nat.inj_succ by lia. done.
        -- rewrite Hpend. simpl length. split; intros [? ?]; split; lia.
        -- done.
      * unfold Offset.step, Offset.ceiling in Hge.
        assert (Hk10 : S (leading pages) = O ∨ k = 10) by lia.
        destruct (Hstop (S (leading pages)) Hk10 Heq)
          as (Hn & Hreq & Hrest & Hfail & Hpend).
        cbv zeta in *. rewrite Hn. split; [done|]. split; [done|]. split; [|done].
        split; [done|]. intros [_ ?]. lia.
    + destruct (Hstop O ltac:(by left) Heq) as (Hn & Hreq & Hrest & Hfail & Hpend).
      cbv zeta in *. rewrite Hn. split; [done|]. split; [done|]. split; [|done].
      split; [done|]. intros [? _]. simpl in *. lia.
Qed.

(** With retries and errors in the script as well, every request is for
    the same query at one of the offsets of the walk. *)
Lemma SearchFrom_requests script : ∀ query k uniq repos evs res rest,
  0 ≤ k ≤ 10 →
  Offset.SearchFrom rateLimited transient query (Offset.step * k) uniq repos script
    = (evs, res, rest) →
  ∀ request, request ∈ requests evs →
    ∃ j, k ≤ j ≤ 10 ∧ request = (query, Offset.cursorOf (Offset.step * j)).
Proof.
  induction script as [|[page|err] script IH];
    intros query k uniq repos evs res rest Hk Heq request Hin; simpl in Heq.
  - injection Heq as <- _ _. rewrite requests_request_only in Hin.
    apply list_elem_of_singleton in Hin as ->. exists k. split; [lia|done].
  - destruct (Offset.rangeNodes uniq repos (Nodes page)) as [uniq1 repos1].
    assert (Hone : ∀ evs0 res0 rest0,
      (Offset.request rateLimited query (Offset.step * k), res0, rest0)
        = (evs0, res, rest) → evs0 = evs →
      ∃ j, k ≤ j ≤ 10 ∧ request = (query, Offset.cursorOf (Offset.step * j))).
    { intros evs0 res0 rest0 [= <- _ _] <-. rewrite requests_request_only in Hin.
      apply list_elem_of_singleton in Hin as ->. exists k. split; [lia|done]. }
    destruct (negb (HasNextPage page)); [by eapply Hone|].
    destruct (Z.ltb_spec (Offset.step * k + Offset.step) Offset.ceiling) as [Hlt|Hge];
      [|by eapply Hone].
    unfold emit in Heq.
    replace (Offset.step * k + Offset.step) with (Offset.step * (k + 1)) in Heq
      by (unfold Offset.step; lia).
    destruct (Offset.SearchFrom rateLimited transient query
                (Offset.step * (k + 1)) uniq1 repos1 script)
      as [[evs2 res2] rest2] eqn:Hrec.
    injection Heq as <- _ _. rewrite requests_request in Hin.
    unfold Offset.step, Offset.ceiling in Hlt.
    apply elem_of_cons in Hin as [->|Hin]; [exists k; split; [lia|done]|].
    assert (Hk1 : 0 ≤ k + 1 ≤ 10) by lia.
    destruct (IH _ _ _ _ _ _ _ Hk1 Hrec _ Hin) as (j & Hj & ->).
    exists j. split; [lia|done].
  - destruct (transient err).
    + unfold emit in Heq.
      destruct (Offset.SearchFrom rateLimited transient query
                  (Offset.step * k) uniq repos script)
        as [[evs2 res2] rest2] eqn:Hrec.
      injection Heq as <- _ _.
      rewrite <- app_assoc, requests_request in Hin. simpl in Hin.
      apply elem_of_cons in Hin as [->|Hin]; [exists k; split; [lia|done]|].
      by eapply IH.
    + injection Heq as <- _ _. rewrite requests_request_only in Hin.
      apply list_elem_of_singleton in Hin as ->. exists k. split; [lia|done].
Qed.

End WalkFacts.

(** C2. The overlapping-offset [Search] of [Hourly] and [Daily], given
    successful pages, requests the offsets 0, 91, 182, ... in this order,
    one request per page, all of them below 1000; the step of 91 is 9 short
    of the page size of 100.  The request for offset 0 carries no cursor,
    the request for a positive offset carries the base64 text of
    [cursor:N].  The walk stops at the first page that reports no next
    page: the call returns after the request for that page and leaves the
    later answers unconsumed.  With errors and retries in the script as
    well, every request is still for one of the offsets 0, 91, ..., 910. *)
Theorem offset_walk :
  ∀ (rateLimited : bool) (transient : string -> bool) (query : string)
    (pages : list (Page Repository)) evs res rest,
    Offset.Search rateLimited transient query (Ok <$> pages) = (evs, res, rest) →
    let n := Z.min (Z.of_nat (leading pages) + 1) 11 in
    requests evs = (λ j, (query, Offset.cursorOf (91 * j))) <$> seqZ 0 n
    ∧ (∀ j, j ∈ seqZ 0 n → 0 ≤ 91 * j < 1000)
    ∧ Offset.cursorOf 0 = None
    ∧ (∀ j, 0 < j →
         Offset.cursorOf (91 * j)
         = Some (base64.EncodeToString ("cursor:" +:+ strconv.FormatInt (91 * j))))
    ∧ Offset.pageSize - Offset.step = 9
    ∧ ((leading pages < length pages)%nat → (leading pages < 11)%nat →
         (∃ repos, res = Returned repos)
         ∧ length (requests evs) = S (leading pages)
         ∧ rest = Ok <$> drop (S (leading pages)) pages)
    ∧ (∀ script evs' res' rest',
         Offset.Search rateLimited transient query script = (evs', res', rest') →
         ∀ request, request ∈ requests evs' →
           ∃ j, 0 ≤ j ≤ 10 ∧ request = (query, Offset.cursorOf (91 * j))).
Proof.
  intros rateLimited transient query pages evs res rest Heq n.
  assert (H0 : 0 ≤ 0 ≤ 10) by lia.
  destruct (SearchFrom_pages rateLimited transient pages query 0 _ _ _ _ _ H0 Heq)
    as (Hreq & Hrest & Hpend & Hfail).
  replace (11 - 0) with 11 in * by lia. fold n in Hreq, Hrest.
  split; [exact Hreq|]. split.
  { intros j Hj. apply elem_of_seqZ in Hj. lia. }
  split; [done|]. split.
  { intros j Hj. apply cursorOf_positive. lia. }
  split; [done|]. split.
  - intros Hlt Hlt11. split; [|split].
    + destruct res as [repos|err|]; [by exists repos|by destruct (Hfail err)|].
      destruct Hpend as [Hpend _]. destruct (Hpend eq_refl). lia.
    + rewrite Hreq. unfold offsetRequests. rewrite length_fmap, length_seqZ. lia.
    + rewrite Hrest. do 2 f_equal. lia.
  - intros script evs' res' rest' Heq' request Hin.
    destruct (SearchFrom_requests rateLimited transient script query 0 _ _ _ _ _ H0 Heq'
                request Hin) as (j & Hj & ->).
    exists j. split; [lia|done].
Qed.

Lemma offset_walk_witness :
  requests
    [Take; Query "stars:>10" None; Take; Query "stars:>10" (Some "Y3Vyc29yOjkx")]
  = [("stars:>10", None); ("stars:>10", Some "Y3Vyc29yOjkx")].
Proof.
  refine (proj1 (offset_walk true Hourly.transient "stars:>10"
    [Fixture.page [Fixture.hello] true; Fixture.page [Fixture.spoon] false;
     Fixture.page [Fixture.knife] false]
    [Take; Query "stars:>10" None; Take; Query "stars:>10" (Some "Y3Vyc29yOjkx")]
    (Returned [Fixture.hello; Fixture.spoon])
    [Ok (Fixture.page [Fixture.knife] false)] _)).
  vm_compute. reflexivity.
Defined.

(** C10. Given successful pages only, the offset-strategy [Search] issues
    at most 11 requests, for the offsets 0, 91, ..., 910 in this order, and
    consumes at most 11 answers; it never fails, and once 11 pages are
    available it returns, however many of them report a next page. *)
Theorem offset_walk_bounded :
  ∀ (rateLimited : bool) (transient : string -> bool) (query : string)
    (pages : list (Page Repository)) evs res rest,
    Offset.Search rateLimited transient query (Ok <$> pages) = (evs, res, rest) →
    (length (requests evs) ≤ 11)%nat
    ∧ requests evs = take (length (requests evs)) (offsetRequests query 0 11)
    ∧ (∃ used, Ok <$> pages = used ++ rest ∧ (length used ≤ 11)%nat)
    ∧ (∀ err, res ≠ Failed err)
    ∧ ((11 ≤ length pages)%nat → ∃ repos, res = Returned repos).
Proof.
  intros rateLimited transient query pages evs res rest Heq.
  assert (H0 : 0 ≤ 0 ≤ 10) by lia.
  destruct (SearchFrom_pages rateLimited transient pages query 0 _ _ _ _ _ H0 Heq)
    as (Hreq & Hrest & Hpend & Hfail).
  replace (11 - 0) with 11 in * by lia. cbv zeta in *.
  set (n := Z.min (Z.of_nat (leading pages) + 1) 11) in *.
  assert (Hlen : length (requests evs) = Z.to_nat n).
  { rewrite Hreq. unfold offsetRequests. by rewrite length_fmap, length_seqZ. }
  split; [lia|]. split.
  { rewrite Hlen, Hreq. unfold offsetRequests.
    rewrite <- fmap_take. f_equal.
    assert (Hsplit : seqZ 0 11 = seqZ 0 n ++ seqZ (0 + n) (11 - n)).
    { rewrite <- seqZ_app by lia. f_equal. lia. }
    rewrite Hsplit, take_app_length'; [done|]. by rewrite length_seqZ. }
  split.
  { exists (Ok <$> take (Z.to_nat n) pages). split.
    - by rewrite Hrest, <- fmap_app, take_drop.
    - rewrite length_fmap, length_take. lia. }
  split; [done|].
  intros Hlong. destruct res as [repos|err|]; [by exists repos|by destruct (Hfail err)|].
  destruct Hpend as [Hpend _]. destruct (Hpend eq_refl). lia.
Qed.

Lemma offset_walk_bounded_witness :
  (length (requests (Offset.Search false Daily.transient "forks:>3"
     (Ok <$> replicate 12 (Fixture.page [Fixture.hello] true))).1.1) ≤ 11)%nat.
Proof.
  refine (proj1 (offset_walk_bounded false Daily.transient "forks:>3"
    (replicate 12 (Fixture.page [Fixture.hello] true)) _ _ _ _)).
  vm_compute. reflexivity.
Defined.

(** ** The watermark walk *)

Section WatermarkFacts.

Context {R K : Type} `{Countable K}.
Variable key : R -> K.
Variable pushedAt : R -> githubv4.DateTime.
Variable zeroValue : R.
Variable yield : list (R * option string) -> bool.

Lemma IterSearchFrom_first script : ∀ query since uniq items evs items' status,
  Pushed.IterSearchFrom key pushedAt zeroValue yield query since uniq items script
    = (evs, items', status) →
  ∃ evs', evs = Query (Pushed.searchQuery query since) None :: evs'.
Proof.
  destruct script as [|[page|err] script];
    intros query since uniq items evs items' status Heq; simpl in Heq.
  - injection Heq as <- _ _. by eexists.
  - destruct (Pushed.rangeRepos _ _ _ _ _) as [[uniq1 items1] []].
    + destruct (negb (HasNextPage page)).
      * injection Heq as <- _ _. by eexists.
      * destruct (Pushed.IterSearchFrom _ _ _ _ _ _ _ _ script) as [[evs2 items2] st2].
        injection Heq as <- _ _. by eexists.
    + injection Heq as <- _ _. by eexists.
  - destruct (strings.Contains err _).
    + destruct (Pushed.IterSearchFrom _ _ _ _ _ _ _ _ script) as [[evs2 items2] st2].
      injection Heq as <- _ _. by eexists.
    + injection Heq as <- _ _. by eexists.
Qed.

Lemma IterSearchFrom_requests script : ∀ query since uniq items evs items' status,
  Pushed.IterSearchFrom key pushedAt zeroValue yield query since uniq items script
    = (evs, items', status) →
  ∀ (i : nat) request, requests evs !! i = Some request →
    request = (Pushed.searchQuery query (watermark pushedAt since (take i script)), None).
Proof.
  induction script as [|[page|err] script IH];
    intros query since uniq items evs items' status Heq i request Hi; simpl in Heq.
  - injection Heq as <- _ _. destruct i; simpl in Hi; [|done]. by injection Hi as <-.
  - assert (Hone : ∀ (evs0 : list Event),
      evs0 = [Query (Pushed.searchQuery query since) None] → evs0 = evs →
      request = (Pushed.searchQuery query
                   (watermark pushedAt since (take i (Ok page :: script))), None)).
    { intros evs0 -> <-. destruct i; simpl in Hi; [|done]. by injection Hi as <-. }
    destruct (Pushed.rangeRepos _ _ _ _ _) as [[uniq1 items1] []].
    + destruct (negb (HasNextPage page)); [injection Heq as Heq _ _; by eapply Hone|].
      destruct (Pushed.IterSearchFrom _ _ _ _ _ _ _ _ script)
        as [[evs2 items2] st2] eqn:Hrec.
      injection Heq as <- _ _. destruct i as [|i]; simpl in Hi.
      * by injection Hi as <-.
      * simpl. by eapply IH.
    + injection Heq as Heq _ _. by eapply Hone.
  - destruct (strings.Contains err _).
    + destruct (Pushed.IterSearchFrom _ _ _ _ _ _ _ _ script)
        as [[evs2 items2] st2] eqn:Hrec.
      injection Heq as <- _ _. destruct i as [|i]; simpl in Hi.
      * by injection Hi as <-.
      * simpl. by eapply IH.
    + injection Heq as <- _ _. destruct i; simpl in Hi; [|done]. by injection Hi as <-.
Qed.

Lemma IterSearchFrom_last_page script : ∀ query since uniq items evs items' status,
  Pushed.IterSearchFrom key pushedAt zeroValue yield query since uniq items script
    = (evs, items', status) →
  ∀ (i : nat) page, script !! i = Some (Ok page) → HasNextPage page = false →
    (i < length (requests evs))%nat →
    status = Finished ∧ length (requests evs) = S i.
Proof.
  induction script as [|[results|err] script IH];
    intros query since uniq items evs items' status Heq i page Hi Hlast Hlen;
    simpl in Heq; [done| |].
  - destruct (Pushed.rangeRepos _ _ _ _ _) as [[uniq1 items1] []].
    + destruct (negb (HasNextPage results)) eqn:Hnext.
      * injection Heq as <- _ <-. simpl in Hlen. split; [done|].
        simpl. f_equal. lia.
      * destruct (Pushed.IterSearchFrom _ _ _ _ _ _ _ _ script)
          as [[evs2 items2] st2] eqn:Hrec.
        injection Heq as <- _ <-. destruct i as [|i]; simpl in Hi.
        -- injection Hi as ->. rewrite Hlast in Hnext. done.
        -- simpl in Hlen. simpl.
           destruct (IH _ _ _ _ _ _ _ Hrec i page Hi Hlast ltac:(lia)) as [-> ->].
           done.
    + injection Heq as <- _ <-. simpl in Hlen. split; [done|].
      simpl. f_equal. lia.
  - destruct (strings.Contains err _).
    + destruct (Pushed.IterSearchFrom _ _ _ _ _ _ _ _ script)
        as [[evs2 items2] st2] eqn:Hrec.
      injection Heq as <- _ <-. destruct i as [|i]; simpl in Hi; [done|].
      simpl in Hlen. simpl.
      destruct (IH _ _ _ _ _ _ _ Hrec i page Hi Hlast ltac:(lia)) as [-> ->].
      done.
    + injection Heq as <- _ <-. simpl in Hlen. split; [done|]. simpl. f_equal. lia.
Qed.

End WatermarkFacts.

(** ** Retrying *)

Lemma emit_emit {R A} (evs1 evs2 : list Event) (run : Run R A) :
  emit evs1 (emit evs2 run) = emit (evs1 ++ evs2) run.
Proof. destruct run as [[evs res] rest]. simpl. by rewrite app_assoc. Qed.

Lemma emit_nil {R A} (run : Run R A) : emit [] run = run.
Proof. by destruct run as [[evs res] rest]. Qed.

Lemma requests_retries rateLimited query offset n :
  requests (retries n (Offset.request rateLimited query offset))
  = replicate n (query, Offset.cursorOf offset)
  ∧ sleeps (retries n (Offset.request rateLimited query offset)) = replicate n 10.
Proof.
  induction n as [|n [IHr IHs]]; [done|]. cbn [retries replicate]. split.
  - by rewrite requests_request, <- IHr.
  - unfold sleeps in *. rewrite omap_app, <- IHs. unfold Offset.request.
    by destruct rateLimited.
Qed.

Lemma requests_search_retries query since n :
  requests (retries n (Pushed.searchRequest query since))
  = replicate n (Pushed.searchQuery query since, None)
  ∧ sleeps (retries n (Pushed.searchRequest query since)) = replicate n 10.
Proof.
  induction n as [|n [IHr IHs]]; [done|]. cbn [retries replicate]. split.
  - simpl. by rewrite <- IHr.
  - simpl. by rewrite <- IHs.
Qed.

Lemma SearchFrom_Err rateLimited transient query offset uniq repos err script :
  Offset.SearchFrom rateLimited transient query offset uniq repos (Err err :: script)
  = if transient err
    then emit (Offset.request rateLimited query offset ++ [Sleep 10])
           (Offset.SearchFrom rateLimited transient query offset uniq repos script)
    else (Offset.request rateLimited query offset, Failed err, script).
Proof. simpl. by destruct (transient err). Qed.

Lemma IterSearchFrom_Err {R K : Type} `{Countable K} (key : R -> K)
    pushedAt zeroValue yield query since uniq items err script :
  Pushed.IterSearchFrom key pushedAt zeroValue yield query since uniq items
    (Err err :: script)
  = if strings.Contains err "You have exceeded a secondary rate limit."
    then
      let '(evs, items', status) :=
        Pushed.IterSearchFrom key pushedAt zeroValue yield query since uniq items script in
      (Pushed.searchRequest query since ++ [Sleep 10] ++ evs, items', status)
    else (Pushed.searchRequest query since, items ++ [(zeroValue, Some err)], Finished).
Proof. simpl. by destruct (strings.Contains err _). Qed.

Lemma SearchFrom_retries rateLimited transient query offset uniq repos errs :
  ∀ script,
  Forall (λ err, transient err = true) errs →
  Offset.SearchFrom rateLimited transient query offset uniq repos
    ((Err <$> errs) ++ script)
  = emit (retries (length errs) (Offset.request rateLimited query offset))
      (Offset.SearchFrom rateLimited transient query offset uniq repos script).
Proof.
  induction errs as [|err errs IH]; intros script Herrs.
  - simpl. by rewrite emit_nil.
  - apply Forall_cons in Herrs as [Herr Herrs].
    rewrite fmap_cons, <- app_comm_cons, SearchFrom_Err, Herr, (IH script Herrs).
    rewrite emit_emit. f_equal. simpl. by rewrite <- app_assoc.
Qed.

Lemma IterSearchFrom_retries {R K : Type} `{Countable K} (key : R -> K)
    pushedAt zeroValue yield query since uniq items errs :
  ∀ script,
  Forall (λ err, strings.Contains err "You have exceeded a secondary rate limit." = true)
         errs →
  Pushed.IterSearchFrom key pushedAt zeroValue yield query since uniq items
    ((Err <$> errs) ++ script)
  = let '(evs, items', status) :=
      Pushed.IterSearchFrom key pushedAt zeroValue yield query since uniq items script in
    (retries (length errs) (Pushed.searchRequest query since) ++ evs, items', status).
Proof.
  induction errs as [|err errs IH]; intros script Herrs.
  - simpl. by destruct (Pushed.IterSearchFrom _ _ _ _ _ _ _ _ script) as [[? ?] ?].
  - apply Forall_cons in Herrs as [Herr Herrs].
    rewrite fmap_cons, <- app_comm_cons, IterSearchFrom_Err, Herr, (IH script Herrs).
    destruct (Pushed.IterSearchFrom _ _ _ _ _ _ _ _ script) as [[evs items'] status].
    done.
Qed.

(** C4, amended.  The offset-strategy [Search] retries an error exactly
    when its text contains the secondary rate limit message, the
    "Something went wrong" message or [504 Gateway Timeout]; the watermark
    [IterSearch] retries an error exactly when its text contains the
    secondary rate limit message, and treats every other error, "Something
    went wrong" and 504 included, as fatal.  A retried error costs a
    10 second sleep and the same request again, from the same state, any
    number of times in a row: [n] retried errors leave [n] identical
    requests and [n] sleeps of 10 seconds in the trace.  Any other error ends the call at once:
    [Search] returns it, [IterSearch] yields it and returns. *)
Theorem retry_classification :
  ∀ (rateLimited : bool) (query : string) (offset : Z) (uniq : gset Z)
    (repos : list Repository) (script : list (Response Repository))
    (yield : list (Repository * option string) -> bool)
    (since : option time.Time) (items : list (Repository * option string))
    (err : string) (errs : list string),
    (Hourly.transient err
     = strings.Contains err "You have exceeded a secondary rate limit"
       || strings.Contains err "Something went wrong while executing your query"
       || strings.Contains err "504 Gateway Timeout")
    ∧ (Daily.transient err
     = strings.Contains err "You have exceeded a secondary rate limit."
       || strings.Contains err "Something went wrong while executing your query."
       || strings.Contains err "504 Gateway Timeout")
    ∧ (∀ transient,
        Offset.SearchFrom rateLimited transient query offset uniq repos (Err err :: script)
        = if transient err
          then emit (Offset.request rateLimited query offset ++ [Sleep 10])
                 (Offset.SearchFrom rateLimited transient query offset uniq repos script)
          else (Offset.request rateLimited query offset, Failed err, script))
    ∧ (∀ transient, Forall (λ err, transient err = true) errs →
        Offset.SearchFrom rateLimited transient query offset uniq repos
          ((Err <$> errs) ++ script)
        = emit (retries (length errs) (Offset.request rateLimited query offset))
            (Offset.SearchFrom rateLimited transient query offset uniq repos script))
    ∧ (Pushed.IterSearchFrom DatabaseId PushedAt Watermark.zeroRepository yield
         query since uniq items (Err err :: script)
       = if strings.Contains err "You have exceeded a secondary rate limit."
         then
           let '(evs, items', status) :=
             Pushed.IterSearchFrom DatabaseId PushedAt Watermark.zeroRepository yield
               query since uniq items script in
           (Pushed.searchRequest query since ++ [Sleep 10] ++ evs, items', status)
         else (Pushed.searchRequest query since,
               items ++ [(Watermark.zeroRepository, Some err)], Finished))
    ∧ (Forall (λ err,
          strings.Contains err "You have exceeded a secondary rate limit." = true) errs →
        Pushed.IterSearchFrom DatabaseId PushedAt Watermark.zeroRepository yield
          query since uniq items ((Err <$> errs) ++ script)
        = let '(evs, items', status) :=
            Pushed.IterSearchFrom DatabaseId PushedAt Watermark.zeroRepository yield
              query since uniq items script in
          (retries (length errs) (Pushed.searchRequest query since) ++ evs,
           items', status))
    ∧ (∀ n : nat,
        requests (retries n (Offset.request rateLimited query offset))
          = replicate n (query, Offset.cursorOf offset)
        ∧ sleeps (retries n (Offset.request rateLimited query offset))
          = replicate n 10
        ∧ requests (retries n (Pushed.searchRequest query since))
          = replicate n (Pushed.searchQuery query since, None)
        ∧ sleeps (retries n (Pushed.searchRequest query since)) = replicate n 10).
Proof.
  intros. split; [done|]. split; [done|]. split; [|split; [|split; [|split]]].
  - intros transient. apply SearchFrom_Err.
  - intros transient Herrs. by apply SearchFrom_retries.
  - apply IterSearchFrom_Err.
  - intros Herrs. by apply IterSearchFrom_retries.
  - intros n. destruct (requests_retries rateLimited query offset n).
    by destruct (requests_search_retries query since n).
Qed.

Lemma retry_classification_witness :
  Hourly.Search "q"
    ((Err <$> ["You have exceeded a secondary rate limit"; "502 or 504 Gateway Timeout"])
     ++ [Ok (Fixture.page [Fixture.hello] false)])
  = emit (retries 2 (Offset.request true "q" 0))
      (Hourly.Search "q" [Ok (Fixture.page [Fixture.hello] false)]).
Proof.
  refine (proj1 (proj2 (proj2 (proj2 (retry_classification true "q" 0 ∅ []
    [Ok (Fixture.page [Fixture.hello] false)] Pushed.consumeAll None [] ""
    ["You have exceeded a secondary rate limit"; "502 or 504 Gateway Timeout"]))))
    Hourly.transient _).
  repeat constructor.
Defined.

(** C4 as stated fails for the watermark [IterSearch]: a 504 gateway
    timeout, which [Search] retries, is yielded as an error at once, with
    no sleep and no second request. *)
Lemma retry_classification_counterexample :
  Daily.transient "non-200 OK status code: 504 Gateway Timeout" = true
  ∧ Watermark.IterSearch Pushed.consumeAll "q"
      [Err "non-200 OK status code: 504 Gateway Timeout";
       Ok (Fixture.page [Fixture.hello] false)]
    = ([Query "q sort:updated-asc" None],
       [(Watermark.zeroRepository, Some "non-200 OK status code: 504 Gateway Timeout")],
       Finished).
Proof. split; vm_compute; reflexivity. Qed.

(** ** Progress *)

Lemma fieldValue_valid field repo value :
  validField field →
  TopRepos.fieldValue field repo value = TopRepos.fieldValue field repo 0.
Proof. by intros [-> | [-> | ->]]. Qed.

Lemma TopRepos_rangeRepos_value field repos : ∀ uniq lines value repo,
  validField field → last repos = Some repo →
  (TopRepos.rangeRepos field uniq lines value repos).2
  = TopRepos.fieldValue field repo 0.
Proof.
  induction repos as [|r repos IH]; intros uniq lines value repo Hfield Hlast; [done|].
  simpl. destruct repos as [|r' repos].
  - injection Hlast as ->. rewrite (fieldValue_valid _ _ value Hfield).
    by destruct (decide _).
  - destruct (decide _); by apply IH.
Qed.

Lemma rangeRepos_always {R K : Type} `{Countable K} (key : R -> K) repos :
  ∀ uniq items,
  ∃ uniq' items',
    Pushed.rangeRepos key Pushed.consumeAll uniq items repos = (uniq', items', true).
Proof.
  induction repos as [|repo repos IH]; intros uniq items; simpl; [by eauto|].
  destruct (decide _); apply IH.
Qed.

(** Against a server that keeps answering with the same page, the
    watermark iteration never finishes: after any number of answers it has
    issued one more request and is waiting. *)
Lemma IterSearchFrom_stalls n : ∀ since uniq items,
  ∃ evs items',
    Pushed.IterSearchFrom DatabaseId PushedAt Watermark.zeroRepository
      Pushed.consumeAll "q" since uniq items (replicate n stalled)
    = (evs, items', Awaiting)
    ∧ length (requests evs) = S n.
Proof.
  induction n as [|n IH]; intros since uniq items; simpl.
  - by eexists _, _.
  - destruct (decide _).
    + edestruct IH as (evs & items' & -> & Hlen). eexists _, _. split; [done|].
      simpl. by rewrite Hlen.
    + edestruct IH as (evs & items' & -> & Hlen). eexists _, _. split; [done|].
      simpl. by rewrite Hlen.
Qed.

(** C5, amended.  The metric-windowing loop of [TopRepos] guards against
    non-progress: when the metric value of the last repository of a batch
    equals the boundary the batch was requested with, the loop ends after
    printing that batch, with no further request; it also ends on an empty
    batch.  The watermark iteration has no such guard: after a page that
    reports a next page it always goes on to the next request (here with a
    consumer that never stops), whether or not the watermark moved. *)
Theorem non_progress_guard :
  (∀ (fuel : nat) (query field : string) (lastValue : Z) (uniq : gset string)
     (script : list (Response TopRepos.Repository)) evs repos rest,
     TopRepos.RepositorySearch (TopRepos.batchQuery query field lastValue) script
       = (evs, Returned repos, rest) →
     validField field →
     (repos = [] →
        TopRepos.batches (S fuel) query field lastValue uniq script
        = (evs, [], Completed))
     ∧ (∀ repo, last repos = Some repo →
        TopRepos.fieldValue field repo 0 = lastValue →
        TopRepos.batches (S fuel) query field lastValue uniq script
        = (evs, (TopRepos.rangeRepos field uniq [] 0 repos).1.2, Completed)))
  ∧ (∀ (q : string) since seen items (page : Page Repository) answers,
       HasNextPage page = true →
       ∃ seen' items',
         Pushed.rangeRepos DatabaseId Pushed.consumeAll seen items (Nodes page)
           = (seen', items', true)
         ∧ Pushed.IterSearchFrom DatabaseId PushedAt Watermark.zeroRepository
             Pushed.consumeAll q since seen items (Ok page :: answers)
           = let '(evs', items'', status) :=
               Pushed.IterSearchFrom DatabaseId PushedAt Watermark.zeroRepository
                 Pushed.consumeAll q
                 (match last (Nodes page) with
                  | Some repo => Some (githubv4.Time (PushedAt repo))
                  | None => since
                  end) seen' items' answers in
             (Pushed.searchRequest q since ++ evs', items'', status)).
Proof.
  split.
  - intros fuel query field lastValue uniq script evs repos rest Heq Hfield. split.
    + intros ->. simpl. by rewrite Heq.
    + intros repo Hlast Hvalue. simpl. rewrite Heq.
      destruct repos as [|r repos]; [done|].
      pose proof (TopRepos_rangeRepos_value field (r :: repos) uniq [] 0 repo Hfield Hlast)
        as Hlastvalue.
      destruct (TopRepos.rangeRepos field uniq [] 0 (r :: repos)) as [[uniq' lines] value].
      simpl in Hlastvalue. rewrite Hlastvalue, Hvalue, Z.eqb_refl. done.
  - intros q since seen items page answers Hnext.
    destruct (rangeRepos_always DatabaseId (Nodes page) seen items) as (seen' & items' & Hr).
    exists seen', items'. split; [done|]. simpl. rewrite Hr, Hnext. simpl.
    by destruct (Pushed.IterSearchFrom _ _ _ _ _ _ _ _ answers) as [[? ?] ?].
Qed.

Lemma non_progress_guard_witness :
  TopRepos.batches 1 "" "stars" 80 ∅
    [Ok (Fixture.page [TopRepos.mkRepository "a/b" 80 1 1;
                       TopRepos.mkRepository "a/c" 80 2 2] false);
     Ok (Fixture.page [TopRepos.mkRepository "a/d" 70 1 1] false)]
  = ([Query "sort:stars stars:<=80" None],
     (TopRepos.rangeRepos "stars" ∅ [] 0
        [TopRepos.mkRepository "a/b" 80 1 1; TopRepos.mkRepository "a/c" 80 2 2]).1.2,
     Completed).
Proof.
  refine (proj2 (proj1 non_progress_guard 0%nat "" "stars" 80 ∅
    [Ok (Fixture.page [TopRepos.mkRepository "a/b" 80 1 1;
                       TopRepos.mkRepository "a/c" 80 2 2] false);
     Ok (Fixture.page [TopRepos.mkRepository "a/d" 70 1 1] false)]
    [Query "sort:stars stars:<=80" None]
    [TopRepos.mkRepository "a/b" 80 1 1; TopRepos.mkRepository "a/c" 80 2 2]
    [Ok (Fixture.page [TopRepos.mkRepository "a/d" 70 1 1] false)] _ _)
    (TopRepos.mkRepository "a/c" 80 2 2) _ _).
  - vm_compute. reflexivity.
  - by left.
  - reflexivity.
  - reflexivity.
Defined.

(** C5 as stated fails for the watermark [IterSearch]: the server keeps
    answering with the same page, so the watermark of the second and third
    window is the one of the window before, and the iteration still issues
    the same request again and waits for its answer. *)
Lemma non_progress_guard_counterexample :
  Watermark.IterSearch Pushed.consumeAll "q" [stalled; stalled; stalled]
  = ([Query "q sort:updated-asc" None;
      Query "q sort:updated-asc pushed:>=2025-06-02T07:40:00Z" None;
      Query "q sort:updated-asc pushed:>=2025-06-02T07:40:00Z" None;
      Query "q sort:updated-asc pushed:>=2025-06-02T07:40:00Z" None],
     [(Fixture.hello, None)],
     Awaiting).
Proof. vm_compute. reflexivity. Qed.

(** ** The watermark boundary *)

Lemma entities_yielded {R} (l : list R) : Pushed.entities (yielded l) = l.
Proof. induction l as [|r l IH]; [done|]. simpl. unfold Pushed.entities in *. simpl. by f_equal. Qed.

Section FirstSeen.

Context {R K : Type} `{Countable K}.
Variable key : R -> K.

Lemma firstSeen_spec l : ∀ seen,
  NoDup (key <$> firstSeen key seen l)
  ∧ (∀ k, k ∈ key <$> firstSeen key seen l ↔ k ∈ key <$> l ∧ k ∉ seen)
  ∧ (∀ r, r ∈ firstSeen key seen l → r ∈ l).
Proof.
  induction l as [|r l IH]; intros seen; simpl.
  - split; [constructor|]. split; [|done]. intros k. rewrite elem_of_nil. tauto.
  - destruct (decide (key r ∈ seen)) as [Hseen|Hnew].
    + destruct (IH seen) as (Hnd & Hin & Hsub). split; [done|]. split.
      * intros k. rewrite Hin, elem_of_cons. split; [tauto|].
        intros [[->|?] ?]; tauto.
      * intros r' Hr'. right. by apply Hsub.
    + destruct (IH ({[key r]} ∪ seen)) as (Hnd & Hin & Hsub). split; [|split].
      * simpl. constructor; [|done]. rewrite Hin. set_solver.
      * intros k. simpl. rewrite !elem_of_cons, Hin.
        rewrite not_elem_of_union, not_elem_of_singleton.
        destruct (decide (k = key r)) as [->|Hne]; tauto.
      * intros r' Hr'. apply elem_of_cons in Hr' as [->|Hr']; [by left|].
        right. by apply Hsub.
Qed.

Lemma rangeRepos_firstSeen repos : ∀ uniq items,
  Pushed.rangeRepos key Pushed.consumeAll uniq items repos
  = (list_to_set (key <$> repos) ∪ uniq, items ++ yielded (firstSeen key uniq repos), true).
Proof.
  induction repos as [|repo repos IH]; intros uniq items; simpl.
  - rewrite app_nil_r. do 2 f_equal. set_solver.
  - destruct (decide (key repo ∈ uniq)) as [Hseen|Hnew]; rewrite IH.
    + do 2 f_equal. set_solver.
    + rewrite <- app_assoc. do 2 f_equal. set_solver.
Qed.

Lemma firstSeen_app l1 : ∀ l2 seen,
  firstSeen key seen (l1 ++ l2)
  = firstSeen key seen l1 ++ firstSeen key (list_to_set (key <$> l1) ∪ seen) l2.
Proof.
  induction l1 as [|r l1 IH]; intros l2 seen; simpl.
  - f_equal. set_solver.
  - destruct (decide (key r ∈ seen)) as [Hseen|Hnew]; rewrite IH.
    + do 2 f_equal. set_solver.
    + simpl. do 3 f_equal. set_solver.
Qed.

Lemma filter_key_none (l : list R) (k : K) :
  k ∉ key <$> l → filter (λ r, key r = k) l = [].
Proof.
  induction l as [|r l IH]; intros Hk; [done|].
  rewrite fmap_cons, not_elem_of_cons in Hk. destruct Hk as [Hne Hk].
  rewrite filter_cons. destruct (decide (key r = k)) as [Heq|_]; [by subst|].
  by apply IH.
Qed.

Lemma filter_key_once (l : list R) (k : K) :
  NoDup (key <$> l) → k ∈ key <$> l →
  length (filter (λ r, key r = k) l) = 1%nat.
Proof.
  induction l as [|r l IH]; intros Hnd Hin; [by apply elem_of_nil in Hin|].
  rewrite fmap_cons in Hnd, Hin. apply NoDup_cons in Hnd as [Hr Hnd].
  rewrite filter_cons. destruct (decide (key r = k)) as [<-|Hne].
  - simpl. by rewrite filter_key_none.
  - apply elem_of_cons in Hin as [->|Hin]; [done|]. by apply IH.
Qed.

End FirstSeen.

(** C6.  In the watermark strategy, after a first page that ends with the
    entity [boundary] and reports a next page, the follow-up request
    re-issues the query with the inclusive filter [pushed:>=] the push
    timestamp of [boundary].  Whatever the second page holds, the
    iteration yields each new entity at its first occurrence: the
    identifiers yielded are pairwise distinct, the boundary entity is
    yielded once even when the second page returns it again, and no
    identifier of either page is dropped; in particular an entity of the
    second page that shares the boundary push timestamp and was not seen
    on the first page is yielded from the second page. *)
Theorem watermark_boundary :
  ∀ (query : string) (nodes nodes' : list Repository) (boundary : Repository)
    (c1 c2 : string) evs items status,
    Watermark.IterSearch Pushed.consumeAll query
      [Ok (mkPage (nodes ++ [boundary]) true c1); Ok (mkPage nodes' false c2)]
      = (evs, items, status) →
    requests evs
      = [(query +:+ " sort:updated-asc", None);
         ((query +:+ " sort:updated-asc") +:+ " pushed:>="
            +:+ time.FormatStampZ (githubv4.Time (PushedAt boundary)), None)]
    ∧ status = Finished
    ∧ items = yielded (firstSeen DatabaseId ∅ ((nodes ++ [boundary]) ++ nodes'))
    ∧ NoDup (DatabaseId <$> Pushed.entities items)
    ∧ length (filter (λ r, DatabaseId r = DatabaseId boundary) (Pushed.entities items))
      = 1%nat
    ∧ (∀ r, r ∈ (nodes ++ [boundary]) ++ nodes' →
         length (filter (λ e, DatabaseId e = DatabaseId r) (Pushed.entities items))
         = 1%nat)
    ∧ (∀ r, r ∈ nodes' → PushedAt r = PushedAt boundary →
         DatabaseId r ∉ DatabaseId <$> (nodes ++ [boundary]) →
         ∃ e, e ∈ Pushed.entities items ∧ e ∈ nodes'
              ∧ DatabaseId e = DatabaseId r).
Proof.
  intros query nodes nodes' boundary c1 c2 evs items status Heq.
  unfold Watermark.IterSearch, Pushed.IterSearch in Heq. simpl in Heq.
  rewrite rangeRepos_firstSeen in Heq. rewrite last_snoc in Heq.
  rewrite rangeRepos_firstSeen in Heq. injection Heq as <- <- <-.
  set (page1 := nodes ++ [boundary]).
  assert (Hitems : yielded (firstSeen DatabaseId ∅ page1)
                   ++ yielded (firstSeen DatabaseId
                        (list_to_set (DatabaseId <$> page1) ∪ ∅) nodes')
                   = yielded (firstSeen DatabaseId ∅ (page1 ++ nodes'))).
  { rewrite firstSeen_app. unfold yielded. by rewrite fmap_app. }
  rewrite Hitems, entities_yielded.
  destruct (firstSeen_spec DatabaseId (page1 ++ nodes') ∅) as (Hnd & Hin & Hsub).
  assert (Hall : ∀ r, r ∈ page1 ++ nodes' →
    DatabaseId r ∈ DatabaseId <$> firstSeen DatabaseId ∅ (page1 ++ nodes')).
  { intros r Hr. apply Hin. split; [by apply list_elem_of_fmap_2|set_solver]. }
  split; [done|]. split; [done|]. split; [done|]. split; [done|]. split; [|split].
  - apply filter_key_once; [done|]. apply Hall. subst page1. set_solver.
  - intros r Hr. apply filter_key_once; [done|]. by apply Hall.
  - intros r Hr _ Hnew.
    assert (Hr' : r ∈ page1 ++ nodes') by set_solver.
    apply Hall, list_elem_of_fmap in Hr' as (e & Hid & He).
    exists e. split; [done|]. split; [|done].
    apply Hsub, elem_of_app in He as [He|He]; [|done].
    destruct Hnew. rewrite Hid. by apply list_elem_of_fmap_2.
Qed.

Lemma watermark_boundary_witness :
  ∃ e, e ∈ [Fixture.hello; Fixture.spoon; Fixture.knife]
       ∧ e ∈ [Fixture.spoon; Fixture.knife]
       ∧ DatabaseId e = DatabaseId Fixture.knife.
Proof.
  pose proof (watermark_boundary "q" [Fixture.hello] [Fixture.spoon; Fixture.knife]
    Fixture.spoon "" "" _ _ _ eq_refl) as (_ & _ & Hitems & _ & _ & _ & Hshared).
  assert (Hin : Fixture.knife ∈ [Fixture.spoon; Fixture.knife])
    by (right; left).
  assert (Hnew : DatabaseId Fixture.knife
                 ∉ DatabaseId <$> ([Fixture.hello] ++ [Fixture.spoon])).
  { intros Hin'. simpl in Hin'. rewrite !elem_of_cons, elem_of_nil in Hin'.
    destruct Hin' as [Heq|[Heq|[]]]; discriminate Heq. }
  exact (Hshared Fixture.knife Hin eq_refl Hnew).
Defined.

(** ** The deduplication key *)

Section RenameFacts.

Variable g : Repository -> string.

Lemma rangeNodes_rename nodes : ∀ uniq repos,
  Offset.rangeNodes uniq (rename g <$> repos) (rename g <$> nodes)
  = let '(uniq', repos') := Offset.rangeNodes uniq repos nodes in
    (uniq', rename g <$> repos').
Proof.
  induction nodes as [|node nodes IH]; intros uniq repos; simpl; [done|].
  destruct (decide (DatabaseId node ∈ uniq)); [apply IH|].
  rewrite <- IH. by rewrite fmap_app.
Qed.

Lemma SearchFrom_rename rateLimited transient script : ∀ query offset uniq repos,
  Offset.SearchFrom rateLimited transient query offset uniq (rename g <$> repos)
    (renameAnswer g <$> script)
  = let '(evs, res, rest) :=
      Offset.SearchFrom rateLimited transient query offset uniq repos script in
    (evs, renameResult g res, renameAnswer g <$> rest).
Proof.
  induction script as [|[page|err] script IH]; intros query offset uniq repos;
    rewrite ?fmap_cons; cbn [renameAnswer Offset.SearchFrom]; [done| |].
  - cbn [renamePage Nodes HasNextPage]. rewrite rangeNodes_rename.
    destruct (Offset.rangeNodes uniq repos (Nodes page)) as [uniq' repos'].
    destruct (negb (HasNextPage page)); [done|].
    destruct (offset + Offset.step <? Offset.ceiling); [|done].
    rewrite IH. unfold emit.
    by destruct (Offset.SearchFrom _ _ _ _ _ _ script) as [[? ?] ?].
  - destruct (transient err); [|done].
    rewrite IH. unfold emit.
    by destruct (Offset.SearchFrom _ _ _ _ _ _ script) as [[? ?] ?].
Qed.

Variable yield : list (Repository * option string) -> bool.

Lemma rangeRepos_rename repos : ∀ uniq items,
  Pushed.rangeRepos DatabaseId yield uniq (renameItem g <$> items) (rename g <$> repos)
  = let '(uniq', items', more) :=
      Pushed.rangeRepos DatabaseId (λ its, yield (renameItem g <$> its))
        uniq items repos in
    (uniq', renameItem g <$> items', more).
Proof.
  induction repos as [|repo repos IH]; intros uniq items; simpl; [done|].
  destruct (decide (DatabaseId repo ∈ uniq)); [apply IH|].
  rewrite fmap_app. simpl.
  replace ((renameItem g <$> items) ++ [(rename g repo, None)])
    with (renameItem g <$> (items ++ [(repo, None)])) by (by rewrite fmap_app).
  destruct (yield _); [apply IH|done].
Qed.

Lemma IterSearchFrom_rename script : ∀ query since uniq items,
  Pushed.IterSearchFrom DatabaseId PushedAt Watermark.zeroRepository yield
    query since uniq (renameItem g <$> items) (renameAnswer g <$> script)
  = let '(evs, items', status) :=
      Pushed.IterSearchFrom DatabaseId PushedAt Watermark.zeroRepository
        (λ its, yield (renameItem g <$> its)) query since uniq items script in
    (evs, renameItem g <$> items', status).
Proof.
  induction script as [|[page|err] script IH]; intros query since uniq items;
    rewrite ?fmap_cons;
    cbn [renameAnswer Pushed.IterSearchFrom Pushed.Search renamePage Nodes HasNextPage];
    [done| |].
  - rewrite rangeRepos_rename.
    destruct (Pushed.rangeRepos DatabaseId _ uniq items (Nodes page))
      as [[uniq' items'] []]; [|done].
    destruct (negb (HasNextPage page)); [done|].
    rewrite fmap_last. destruct (last (Nodes page)) as [repo|]; simpl.
    + rewrite IH. by destruct (Pushed.IterSearchFrom _ _ _ _ _ _ _ _ script) as [[? ?] ?].
    + rewrite IH. by destruct (Pushed.IterSearchFrom _ _ _ _ _ _ _ _ script) as [[? ?] ?].
  - destruct (strings.Contains err _).
    + rewrite IH. by destruct (Pushed.IterSearchFrom _ _ _ _ _ _ _ _ script) as [[? ?] ?].
    + by rewrite fmap_app.
Qed.

End RenameFacts.

(** C8.  Where the decoded record has the integer identifier (the
    [Repository] of [Hourly], [Daily] and [Watermark]), the deduplication
    key is [DatabaseId] and never the display path: of two nodes the second
    is skipped exactly when it has the identifier of the first, and
    rewriting the display paths of the answers in any way (making them all
    equal, or all distinct) changes neither the requests nor which records
    are returned or yielded, only the display paths they carry.  The
    [Legacy] record has no identifier; there the key is [NameWithOwner]. *)
Theorem identifier_is_key :
  ∀ (g : Repository -> string) (rateLimited : bool) (transient : string -> bool)
    (yield : list (Repository * option string) -> bool)
    (query : string) (script : list (Response Repository))
    (a b : Repository) (a' b' : Legacy.Repository),
    (Offset.rangeNodes ∅ [] [a; b]).2
      = (if decide (DatabaseId a = DatabaseId b) then [a] else [a; b])
    ∧ (Pushed.rangeRepos DatabaseId Pushed.consumeAll ∅ [] [a; b]).1.2
      = yielded (if decide (DatabaseId a = DatabaseId b) then [a] else [a; b])
    ∧ Offset.Search rateLimited transient query (renameAnswer g <$> script)
      = (let '(evs, res, rest) := Offset.Search rateLimited transient query script in
         (evs, renameResult g res, renameAnswer g <$> rest))
    ∧ Watermark.IterSearch yield query (renameAnswer g <$> script)
      = (let '(evs, items, status) :=
           Watermark.IterSearch (λ its, yield (renameItem g <$> its)) query script in
         (evs, renameItem g <$> items, status))
    ∧ (Pushed.rangeRepos Legacy.NameWithOwner Pushed.consumeAll ∅ [] [a'; b']).1.2
      = yielded (if decide (Legacy.NameWithOwner a' = Legacy.NameWithOwner b')
                 then [a'] else [a'; b']).
Proof.
  intros g rateLimited transient yield query script a b a' b'.
  split; [|split; [|split; [|split]]].
  - simpl. destruct (decide (DatabaseId a ∈ ∅)) as [Hin|_]; [set_solver|].
    simpl. destruct (decide (DatabaseId a = DatabaseId b)) as [Heq|Hne].
    + destruct (decide _) as [|Hnot]; [done|]. destruct Hnot. set_solver.
    + destruct (decide _) as [Hin|]; [|done]. set_solver.
  - rewrite rangeRepos_firstSeen. simpl.
    destruct (decide (DatabaseId a ∈ ∅)) as [Hin|_]; [set_solver|].
    simpl. destruct (decide (DatabaseId a = DatabaseId b)) as [Heq|Hne].
    + destruct (decide _) as [|Hnot]; [done|]. destruct Hnot. set_solver.
    + destruct (decide _) as [Hin|]; [|done]. set_solver.
  - apply (SearchFrom_rename g rateLimited transient script query 0 ∅ []).
  - apply (IterSearchFrom_rename g yield script query None ∅ []).
  - rewrite rangeRepos_firstSeen. simpl.
    destruct (decide (Legacy.NameWithOwner a' ∈ ∅)) as [Hin|_]; [set_solver|].
    simpl. destruct (decide (Legacy.NameWithOwner a' = Legacy.NameWithOwner b')) as [Heq|Hne].
    + destruct (decide _) as [|Hnot]; [done|]. destruct Hnot. set_solver.
    + destruct (decide _) as [Hin|]; [|done]. set_solver.
Qed.

(** ** The records written *)

Lemma rowsOf_write {R} evs rows (out : Output R) :
  rowsOf (write evs rows out) = rows ++ rowsOf out.
Proof. by destruct out as [[[? ?] ?] ?]. Qed.

Lemma Forall_isRecord_map repos : Forall isRecord (map csvRecord repos).
Proof.
  induction repos as [|repo repos IH]; [constructor|].
  rewrite map_cons. constructor; [|done]. exists repo. reflexivity.
Qed.

Lemma Cut_join owner name :
  strings.Contains owner "/" = false →
  strings.Cut (owner +:+ "/" +:+ name) "/" = (owner, name, true).
Proof.
  induction owner as [|c owner IH]; intros Hno; [done|].
  cbn [strings.Contains strings.HasPrefix] in Hno.
  apply orb_false_iff in Hno as [Hc Hno].
  simpl. rewrite Ascii.eqb_sym.
  destruct (Ascii.eqb "/" c); [done|]. by rewrite (IH Hno).
Qed.

Lemma FormatRFC3339_nonempty t : time.FormatRFC3339 t ≠ "".
Proof.
  unfold time.FormatRFC3339. destruct (time.FormatDate t); discriminate.
Qed.

Lemma Hourly_rangeHours_records query day hours : ∀ script,
  Forall isRecord (rowsOf (Hourly.rangeHours query day hours script)).
Proof.
  induction hours as [|hour hours IH]; intros script; simpl; [constructor|].
  destruct (Hourly.Search _ script) as [[evs [repos|err|]] rest];
    [|constructor|constructor].
  rewrite rowsOf_write. apply Forall_app. split; [apply Forall_isRecord_map|apply IH].
Qed.

Lemma Hourly_rangeDays_records fuel : ∀ query day endTime script,
  Forall isRecord (rowsOf (Hourly.rangeDays fuel query day endTime script)).
Proof.
  induction fuel as [|fuel IH]; intros query day endTime script;
    cbn [Hourly.rangeDays]; [constructor|].
  destruct (time.After day endTime); [constructor|].
  pose proof (Hourly_rangeHours_records query day (seqZ 0 24) script) as Hday.
  destruct (Hourly.rangeHours query day (seqZ 0 24) script) as [[[evs rows] exit] rest].
  destruct exit; try exact Hday.
  rewrite rowsOf_write. apply Forall_app. split; [exact Hday|apply IH].
Qed.

Lemma Daily_rangeDays_records fuel : ∀ query day endTime script,
  Forall isRecord (rowsOf (Daily.rangeDays fuel query day endTime script)).
Proof.
  induction fuel as [|fuel IH]; intros query day endTime script; simpl; [constructor|].
  destruct (time.After day endTime); [constructor|].
  destruct (Daily.Search _ script) as [[evs [repos|err|]] rest];
    [|constructor|constructor].
  rewrite rowsOf_write. apply Forall_app. split; [apply Forall_isRecord_map|apply IH].
Qed.

Lemma rangeItems_records items status :
  Forall isRecord (Pushed.rangeItems csvRecord items status).1.
Proof.
  induction items as [|[repo [err|]] items IH]; simpl; [constructor|constructor|].
  destruct (Pushed.rangeItems csvRecord items status) as [rows exit].
  constructor; [|done]. exists repo. reflexivity.
Qed.

(** C9, amended.  In [Hourly], [Daily] and [Watermark] every record
    written is the record of a repository, with the ten fields owner, name,
    identifier, stars, forks, size, creation, update, push and archival
    timestamp in this order; owner and name are the display path cut at its
    first ['/']; a timestamp field is empty exactly when the timestamp is
    the zero time and is its RFC3339 text otherwise.  [Legacy] writes four
    fields instead: display path, stars, creation and push timestamp, both
    always as RFC3339 text. *)
Theorem csv_record :
  (∀ repo, ∃ owner name found,
      strings.Cut (NameWithOwner repo) "/" = (owner, name, found)
      ∧ csvRecord repo
        = [ owner; name;
            strconv.FormatInt (DatabaseId repo);
            strconv.FormatInt (StargazerCount repo);
            strconv.FormatInt (ForkCount repo);
            strconv.FormatInt (DiskUsage repo);
            csvDateTime (CreatedAt repo);
            csvDateTime (UpdatedAt repo);
            csvDateTime (PushedAt repo);
            csvDateTime (ArchivedAt repo) ])
  ∧ (∀ owner name, strings.Contains owner "/" = false →
      strings.Cut (owner +:+ "/" +:+ name) "/" = (owner, name, true))
  ∧ (∀ dt, csvDateTime dt
           = if githubv4.IsZero dt then ""
             else time.FormatDate (githubv4.Time dt) +:+ "T"
                  +:+ time.FormatClock (githubv4.Time dt)
                  +:+ time.FormatZone (githubv4.Time dt))
  ∧ (∀ dt, csvDateTime dt = "" ↔ githubv4.IsZero dt = true)
  ∧ (∀ fuel query startTime endTime script,
      Forall isRecord (rowsOf (Hourly.main fuel query startTime endTime script)))
  ∧ (∀ fuel query startTime endTime script,
      Forall isRecord (rowsOf (Daily.main fuel query startTime endTime script)))
  ∧ (∀ query script, Forall isRecord (Watermark.main query script).1.2)
  ∧ (∀ repo, Legacy.csvRecord repo
      = [ Legacy.NameWithOwner repo;
          strconv.Itoa (Legacy.StargazerCount repo);
          time.FormatRFC3339 (githubv4.Time (Legacy.CreatedAt repo));
          time.FormatRFC3339 (githubv4.Time (Legacy.PushedAt repo)) ]).
Proof.
  split; [|split; [|split; [|split; [|split; [|split; [|split]]]]]].
  - intros repo. unfold csvRecord.
    destruct (strings.Cut (NameWithOwner repo) "/") as [[owner name] found].
    by exists owner, name, found.
  - apply Cut_join.
  - done.
  - intros dt. unfold csvDateTime. destruct (githubv4.IsZero dt); [done|].
    split; [|done]. intros Hempty. by destruct (FormatRFC3339_nonempty _ Hempty).
  - intros fuel query startTime endTime script. unfold Hourly.main.
    destruct (time.After startTime endTime); [constructor|].
    apply Hourly_rangeDays_records.
  - intros fuel query startTime endTime script. unfold Daily.main.
    destruct (time.After startTime endTime); [constructor|].
    apply Daily_rangeDays_records.
  - intros query script. unfold Watermark.main.
    destruct (Watermark.IterSearch _ query script) as [[evs items] status].
    pose proof (rangeItems_records items status) as Hrows.
    by destruct (Pushed.rangeItems csvRecord items status) as [rows exit].
  - done.
Qed.

Lemma csv_record_witness :
  strings.Cut ("octocat" +:+ "/" +:+ "hello/world") "/" = ("octocat", "hello/world", true).
Proof.
  refine (proj1 (proj2 csv_record) "octocat" "hello/world" _). reflexivity.
Defined.

(** C9 as stated fails for [Legacy]: its record has four fields, the first
    of them the undivided display path, and the zero creation time is
    written as [0001-01-01T00:00:00Z], not as the empty string. *)
Lemma csv_record_counterexample :
  Legacy.main "q"
    [Ok (Fixture.page
           [Legacy.mkRepository "octocat/hello" Fixture.never
              (Fixture.at_ Fixture.morning) 7] false)]
  = ([Query "q sort:updated-asc" None],
     [["octocat/hello"; "7"; "0001-01-01T00:00:00Z"; "2025-06-02T07:39:59Z"]],
     Completed).
Proof. vm_compute. reflexivity. Qed.

(** ** Date partitions *)

Lemma append_assoc (a b c : string) : (a +:+ b) +:+ c = a +:+ b +:+ c.
Proof.
  induction a as [|x a IH]; [done|].
  change (String x ((a +:+ b) +:+ c) = String x (a +:+ b +:+ c)). by rewrite IH.
Qed.

Lemma pad_d_appendInt width x : 0 ≤ x → fmt.pad_d width x = time.appendInt x width.
Proof.
  intros Hx. unfold fmt.pad_d, time.appendInt.
  destruct (Z.ltb_spec x 0) as [?|_]; [lia|]. simpl String.length.
  by rewrite Nat.sub_0_r.
Qed.

Lemma Date_day d r n :
  0 ≤ r < 86400 → time.Date (time.mkTime (86400 * d + r) n 0) = time.civil d.
Proof.
  intros Hr. unfold time.Date, time.abs, time.secondsPerDay. simpl.
  f_equal. symmetry. apply (Z.div_unique_pos _ 86400 d r); lia.
Qed.

Lemma Clock_day d r n :
  0 ≤ r < 86400 →
  time.Clock (time.mkTime (86400 * d + r) n 0) = (r / 3600, (r mod 3600) / 60, r mod 60).
Proof.
  intros Hr. unfold time.Clock, time.abs, time.secondsPerDay. simpl.
  replace ((86400 * d + r + 0) mod 86400) with r; [done|].
  apply (Z.mod_unique_pos _ 86400 d r); lia.
Qed.

Lemma FormatDate_day d r n :
  0 ≤ r < 86400 →
  time.FormatDate (time.mkTime (86400 * d + r) n 0) = time.FormatDate (time.Midnight d).
Proof.
  intros Hr. unfold time.FormatDate, time.Midnight, time.secondsPerDay.
  rewrite (Date_day d r n Hr).
  replace (86400 * d) with (86400 * d + 0) by lia.
  by rewrite (Date_day d 0 0) by lia.
Qed.

Lemma FormatClock_hour_start d h :
  0 ≤ h < 24 →
  time.FormatClock (instant (86400 * d + 3600 * h)) = fmt.pad_d 2 h +:+ ":00:00".
Proof.
  intros Hh. unfold time.FormatClock, instant.
  rewrite (Clock_day d (3600 * h) 0) by lia.
  replace (3600 * h / 3600) with h by (apply (Z.div_unique_pos _ 3600 h 0); lia).
  replace ((3600 * h) mod 3600) with 0
    by (apply (Z.mod_unique_pos _ 3600 h 0); lia).
  replace ((3600 * h) mod 60) with 0
    by (apply (Z.mod_unique_pos _ 60 (60 * h) 0); lia).
  by rewrite pad_d_appendInt by lia.
Qed.

Lemma FormatClock_hour_end d h :
  0 ≤ h < 24 →
  time.FormatClock (instant (86400 * d + (3600 * h + 3599))) = fmt.pad_d 2 h +:+ ":59:59".
Proof.
  intros Hh. unfold time.FormatClock, instant.
  rewrite (Clock_day d (3600 * h + 3599) 0) by lia.
  replace ((3600 * h + 3599) / 3600) with h
    by (apply (Z.div_unique_pos _ 3600 h 3599); lia).
  replace ((3600 * h + 3599) mod 3600) with 3599
    by (apply (Z.mod_unique_pos _ 3600 h 3599); lia).
  replace ((3600 * h + 3599) mod 60) with 59
    by (apply (Z.mod_unique_pos _ 60 (60 * h + 59) 59); lia).
  by rewrite pad_d_appendInt by lia.
Qed.

(** The text of the hourly clause is the rendering of the window. *)
Lemma FormatStampZ_hour_start d h s :
  0 ≤ h < 24 → s = 86400 * d + 3600 * h →
  time.FormatStampZ (instant s)
  = time.FormatDate (time.Midnight d) +:+ "T" +:+ fmt.pad_d 2 h +:+ ":00:00Z".
Proof.
  intros Hh ->. unfold time.FormatStampZ.
  rewrite FormatClock_hour_start by done.
  unfold instant. rewrite FormatDate_day by lia.
  by rewrite !append_assoc.
Qed.

Lemma FormatStampZ_hour_end d h s :
  0 ≤ h < 24 → s = 86400 * d + (3600 * h + 3599) →
  time.FormatStampZ (instant s)
  = time.FormatDate (time.Midnight d) +:+ "T" +:+ fmt.pad_d 2 h +:+ ":59:59Z".
Proof.
  intros Hh ->. unfold time.FormatStampZ.
  rewrite FormatClock_hour_end by done.
  unfold instant. rewrite FormatDate_day by lia.
  by rewrite !append_assoc.
Qed.

Lemma hourQuery_window query d h :
  0 ≤ h < 24 →
  Hourly.hourQuery query (time.Midnight d) h
  = createdQuery query
      (86400 * d + 3600 * h, 86400 * d + 3600 * (h + 1) - 1).
Proof.
  intros Hh. unfold Hourly.hourQuery, createdQuery. simpl fst. simpl snd.
  rewrite (FormatStampZ_hour_start d h) by done.
  rewrite (FormatStampZ_hour_end d h) by (done || lia).
  by rewrite !append_assoc.
Qed.

(** The text of the daily clause is the rendering of the window. *)
Lemma dayQuery_window query d :
  Daily.dayQuery query (time.Midnight d)
  = createdQuery query (86400 * d, 86400 * (d + 1) - 1).
Proof.
  unfold Daily.dayQuery, createdQuery. simpl fst. simpl snd.
  rewrite (FormatStampZ_hour_start d 0) by lia.
  rewrite (FormatStampZ_hour_end d 23) by lia.
  by rewrite !append_assoc.
Qed.

Lemma write_nil {R} (out : Output R) : write [] [] out = out.
Proof. by destruct out as [[[evs rows] exit] rest]. Qed.

Section SearchEach.

Variable search : string -> list (Response Repository)
                  -> Run Repository (list Repository).

Lemma searchEach_app qs1 : ∀ qs2 script,
  searchEach search (qs1 ++ qs2) script
  = match searchEach search qs1 script with
    | (evs, rows, Completed, rest) => write evs rows (searchEach search qs2 rest)
    | stopped => stopped
    end.
Proof.
  induction qs1 as [|q qs1 IH]; intros qs2 script; simpl.
  - by rewrite write_nil.
  - destruct (search q script) as [[evs [repos|err|]] rest]; [|done|done].
    rewrite IH.
    destruct (searchEach search qs1 rest) as [[[evs1 rows1] exit] rest1].
    destruct exit; simpl; try done.
    destruct (searchEach search qs2 rest1) as [[[evs2 rows2] exit2] rest2].
    simpl. by rewrite !app_assoc.
Qed.

(** A run of searches never ends for lack of fuel. *)
Lemma searchEach_fuel qs : ∀ script, (searchEach search qs script).1.2 ≠ OutOfFuel.
Proof.
  induction qs as [|q qs IH]; intros script; simpl; [done|].
  destruct (search q script) as [[evs [repos|err|]] rest]; [|done|done].
  specialize (IH rest).
  by destruct (searchEach search qs rest) as [[[evs1 rows1] exit] rest1].
Qed.

End SearchEach.

Lemma After_Midnight d d' :
  time.After (time.Midnight d) (time.Midnight d') = bool_decide (d' < d).
Proof.
  unfold time.After, time.Midnight, time.secondsPerDay. simpl.
  rewrite andb_false_r, orb_false_r.
  case_bool_decide; [apply Z.ltb_lt|apply Z.ltb_ge]; lia.
Qed.

Lemma AddDate_Midnight d : time.AddDate_days (time.Midnight d) 1 = time.Midnight (d + 1).
Proof.
  unfold time.AddDate_days, time.Midnight, time.secondsPerDay. simpl. f_equal. lia.
Qed.

Lemma Hourly_rangeHours_searchEach query day hours : ∀ script,
  Hourly.rangeHours query day hours script
  = searchEach Hourly.Search (Hourly.hourQuery query day <$> hours) script.
Proof.
  induction hours as [|hour hours IH]; intros script; [done|].
  rewrite fmap_cons. cbn [Hourly.rangeHours searchEach].
  destruct (Hourly.Search _ script) as [[evs [repos|err|]] rest]; [|done|done].
  by rewrite IH.
Qed.

Lemma Hourly_rangeDays_searchEach k : ∀ fuel query d script,
  (k < fuel)%nat →
  Hourly.rangeDays fuel query (time.Midnight d) (time.Midnight (d + Z.of_nat k - 1)) script
  = searchEach Hourly.Search (hourlyQueries query d k) script.
Proof.
  induction k as [|k IH]; intros fuel query d script Hfuel;
    (destruct fuel as [|fuel]; [lia|]); cbn [Hourly.rangeDays hourlyQueries].
  - rewrite After_Midnight, bool_decide_eq_true_2 by lia. done.
  - rewrite After_Midnight, bool_decide_eq_false_2 by lia.
    rewrite Hourly_rangeHours_searchEach, searchEach_app.
    destruct (searchEach Hourly.Search _ script) as [[[evs rows] exit] rest].
    destruct exit; try done.
    rewrite AddDate_Midnight.
    replace (d + Z.of_nat (S k) - 1) with (d + 1 + Z.of_nat k - 1) by lia.
    rewrite IH by lia. done.
Qed.

Lemma Daily_rangeDays_searchEach k : ∀ fuel query d script,
  (k < fuel)%nat →
  Daily.rangeDays fuel query (time.Midnight d) (time.Midnight (d + Z.of_nat k - 1)) script
  = searchEach Daily.Search (dailyQueries query d k) script.
Proof.
  induction k as [|k IH]; intros fuel query d script Hfuel;
    (destruct fuel as [|fuel]; [lia|]); cbn [Daily.rangeDays dailyQueries searchEach].
  - rewrite After_Midnight, bool_decide_eq_true_2 by lia. done.
  - rewrite After_Midnight, bool_decide_eq_false_2 by lia.
    destruct (Daily.Search _ script) as [[evs [repos|err|]] rest]; [|done|done].
    rewrite AddDate_Midnight.
    replace (d + Z.of_nat (S k) - 1) with (d + 1 + Z.of_nat k - 1) by lia.
    rewrite IH by lia. done.
Qed.

Lemma windows_app len start n1 n2 :
  0 ≤ n1 → 0 ≤ n2 →
  windows len start (n1 + n2)
  = windows len start n1 ++ windows len (start + len * n1) n2.
Proof.
  intros Hn1 Hn2. unfold windows. rewrite seqZ_app, fmap_app by done. f_equal.
  replace (0 + n1) with (n1 + 0) by lia.
  rewrite <- fmap_add_seqZ, <- list_fmap_compose.
  apply list_fmap_ext. intros i x _. simpl. f_equal; lia.
Qed.

Lemma windows_lookup len start n (i : nat) lo hi :
  windows len start n !! i = Some (lo, hi)
  ↔ Z.of_nat i < n ∧ lo = start + len * Z.of_nat i
    ∧ hi = start + len * (Z.of_nat i + 1) - 1.
Proof.
  unfold windows. rewrite list_lookup_fmap. split.
  - intros Hlook. destruct (seqZ 0 n !! i) as [j|] eqn:Hj; [|done].
    apply lookup_seqZ in Hj as [-> Hi]. injection Hlook as <- <-.
    split; [done|]. split; f_equal; lia.
  - intros (Hi & -> & ->). rewrite lookup_seqZ_lt by done. simpl.
    do 2 f_equal; lia.
Qed.

Lemma hourlyQueries_windows query k : ∀ d,
  hourlyQueries query d k
  = createdQuery query <$> windows 3600 (86400 * d) (24 * Z.of_nat k).
Proof.
  induction k as [|k IH]; intros d; [done|].
  cbn [hourlyQueries]. rewrite IH.
  replace (24 * Z.of_nat (S k)) with (24 + 24 * Z.of_nat k) by lia.
  rewrite windows_app, fmap_app by lia. f_equal.
  - unfold windows. rewrite <- list_fmap_compose.
    apply list_fmap_ext. intros i h Hh. apply lookup_seqZ in Hh as [-> Hi].
    simpl. by rewrite hourQuery_window by lia.
  - do 2 f_equal. lia.
Qed.

Lemma dailyQueries_windows query k : ∀ d,
  dailyQueries query d k
  = createdQuery query <$> windows 86400 (86400 * d) (Z.of_nat k).
Proof.
  induction k as [|k IH]; intros d; [done|].
  cbn [dailyQueries]. rewrite IH.
  replace (Z.of_nat (S k)) with (1 + Z.of_nat k) by lia.
  rewrite windows_app, fmap_app by lia.
  change (windows 86400 (86400 * d) 1)
    with [(86400 * d + 86400 * 0, 86400 * d + 86400 * (0 + 1) - 1)].
  simpl. f_equal.
  - rewrite dayQuery_window. do 2 f_equal; lia.
  - do 2 f_equal. lia.
Qed.

Lemma windows_cover len start n t :
  0 < len → start ≤ t < start + len * n →
  ∃ i : nat, Z.of_nat i < n
    ∧ start + len * Z.of_nat i ≤ t ≤ start + len * (Z.of_nat i + 1) - 1
    ∧ ∀ j : nat, start + len * Z.of_nat j ≤ t ≤ start + len * (Z.of_nat j + 1) - 1 →
        j = i.
Proof.
  intros Hlen Ht.
  pose proof (Z.div_mod (t - start) len ltac:(lia)) as Hdm.
  pose proof (Z.mod_pos_bound (t - start) len Hlen) as Hmod.
  assert (Hq : 0 ≤ (t - start) / len) by (apply Z.div_pos; lia).
  exists (Z.to_nat ((t - start) / len)). rewrite Z2Nat.id by done.
  split; [nia|]. split; [lia|].
  intros j Hj. apply Nat2Z.inj. rewrite Z2Nat.id by done.
  apply (Z.div_unique_pos (t - start) len (Z.of_nat j) (t - start - len * Z.of_nat j)); lia.
Qed.

(** C7.  For start and end dates with start not after end, [main] of
    [Hourly] runs one search per hour of each day of the range, 24 per day,
    and [main] of [Daily] one search per day, in order of time (with fuel
    for the day loop above the number of days, which it never exhausts).
    The creation-date clause of the i-th search is the rendering of the
    i-th window of 3600 (or 86400) seconds from midnight of the start day:
    seconds [start + len * i] to [start + len * (i + 1) - 1], bounds
    included.  Hence every second from 00:00:00 of the start day to
    23:59:59 of the end day lies in exactly one window, and the windows
    hold no other second.  Each search is a call of [Search] of its own,
    which starts at offset 0 with an empty seen-set. *)
Theorem date_partitions :
  ∀ (query : string) (d1 d2 : Z) (fuel : nat) (script : list (Response Repository)),
    d1 ≤ d2 → (Z.to_nat (d2 - d1 + 1) < fuel)%nat →
    let start := 86400 * d1 in
    let days := d2 - d1 + 1 in
    Hourly.main fuel query (time.Midnight d1) (time.Midnight d2) script
      = searchEach Hourly.Search
          (createdQuery query <$> windows 3600 start (24 * days)) script
    ∧ Daily.main fuel query (time.Midnight d1) (time.Midnight d2) script
      = searchEach Daily.Search
          (createdQuery query <$> windows 86400 start days) script
    ∧ (Hourly.main fuel query (time.Midnight d1) (time.Midnight d2) script).1.2
      ≠ OutOfFuel
    ∧ (Daily.main fuel query (time.Midnight d1) (time.Midnight d2) script).1.2
      ≠ OutOfFuel
    ∧ length (windows 3600 start (24 * days)) = Z.to_nat (24 * days)
    ∧ length (windows 86400 start days) = Z.to_nat days
    ∧ (∀ len n (i : nat) lo hi,
         windows len start n !! i = Some (lo, hi) →
         lo = start + len * Z.of_nat i ∧ hi = start + len * (Z.of_nat i + 1) - 1)
    ∧ (∀ len n t, 0 < len → start ≤ t < start + len * n →
         ∃ (i : nat) w, windows len start n !! i = Some w ∧ w.1 ≤ t ≤ w.2
           ∧ ∀ (j : nat) w', windows len start n !! j = Some w' →
               w'.1 ≤ t ≤ w'.2 → j = i)
    ∧ (∀ len n w t, 0 < len → w ∈ windows len start n → w.1 ≤ t ≤ w.2 →
         start ≤ t < start + len * n)
    ∧ (∀ q answers,
         Hourly.Search q answers = Offset.SearchFrom true Hourly.transient q 0 ∅ [] answers
         ∧ Daily.Search q answers
           = Offset.SearchFrom false Daily.transient q 0 ∅ [] answers).
Proof.
  intros query d1 d2 fuel script Hle Hfuel start days.
  assert (Hend : d2 = d1 + Z.of_nat (Z.to_nat days) - 1) by (subst days; lia).
  assert (HH : Hourly.main fuel query (time.Midnight d1) (time.Midnight d2) script
    = searchEach Hourly.Search
        (createdQuery query <$> windows 3600 start (24 * days)) script).
  { unfold Hourly.main. rewrite After_Midnight, bool_decide_eq_false_2 by lia.
    rewrite Hend at 1. rewrite Hourly_rangeDays_searchEach by done.
    rewrite hourlyQueries_windows. do 3 f_equal. subst days. lia. }
  assert (HD : Daily.main fuel query (time.Midnight d1) (time.Midnight d2) script
    = searchEach Daily.Search
        (createdQuery query <$> windows 86400 start days) script).
  { unfold Daily.main. rewrite After_Midnight, bool_decide_eq_false_2 by lia.
    rewrite Hend at 1. rewrite Daily_rangeDays_searchEach by done.
    rewrite dailyQueries_windows. do 3 f_equal. subst days. lia. }
  split; [exact HH|]. split; [exact HD|].
  split; [rewrite HH; apply searchEach_fuel|].
  split; [rewrite HD; apply searchEach_fuel|].
  split; [unfold windows; by rewrite length_fmap, length_seqZ|].
  split; [unfold windows; by rewrite length_fmap, length_seqZ|].
  split; [|split; [|split]].
  - intros len n i lo hi Hlook. by apply windows_lookup in Hlook as (_ & -> & ->).
  - intros len n t Hlen Ht.
    destruct (windows_cover len start n t Hlen Ht) as (i & Hi & Hin & Huniq).
    exists i, (start + len * Z.of_nat i, start + len * (Z.of_nat i + 1) - 1).
    split; [by apply windows_lookup|]. split; [done|].
    intros j [lo hi] Hlook Hw. apply windows_lookup in Hlook as (_ & -> & ->).
    by apply Huniq.
  - intros len n [lo hi] t Hlen Hw Ht.
    apply list_elem_of_lookup in Hw as [i Hlook].
    apply windows_lookup in Hlook as (Hi & -> & ->). simpl in Ht. nia.
  - done.
Qed.

Lemma date_partitions_witness :
  Daily.main 3 "stars:>5" (time.Midnight 739403) (time.Midnight 739404)
    [Ok (Fixture.page [Fixture.hello] false); Ok (Fixture.page [Fixture.hello] false)]
  = searchEach Daily.Search
      (createdQuery "stars:>5" <$> windows 86400 (86400 * 739403) (739404 - 739403 + 1))
      [Ok (Fixture.page [Fixture.hello] false); Ok (Fixture.page [Fixture.hello] false)].
Proof.
  refine (proj1 (proj2 (date_partitions "stars:>5" 739403 739404 3
    [Ok (Fixture.page [Fixture.hello] false); Ok (Fixture.page [Fixture.hello] false)]
    _ _))); lia.
Defined.

(** Two days that return the same repository: it is written once per day,
    the seen-set of the first day's search is not carried over. *)
Example partitions_have_their_own_seen_set :
  Daily.main 3 "stars:>5" (time.Midnight 739403) (time.Midnight 739404)
    [Ok (Fixture.page [Fixture.hello] false); Ok (Fixture.page [Fixture.hello] false)]
  = ([Query "stars:>5 created:2025-06-02T00:00:00Z..2025-06-02T23:59:59Z" None;
      Query "stars:>5 created:2025-06-03T00:00:00Z..2025-06-03T23:59:59Z" None],
     [csvRecord Fixture.hello; csvRecord Fixture.hello],
     Completed, []).
Proof. vm_compute. reflexivity. Qed.

(** * Further properties *)

(** ** The offset search: order, retries, failure, accounting *)

Lemma rangeNodes_firstSeen nodes : ∀ uniq repos,
  Offset.rangeNodes uniq repos nodes
  = (list_to_set (DatabaseId <$> nodes) ∪ uniq,
     repos ++ firstSeen DatabaseId uniq nodes).
Proof.
  induction nodes as [|node nodes IH]; intros uniq repos; simpl.
  - rewrite app_nil_r. f_equal. set_solver.
  - destruct (decide (DatabaseId node ∈ uniq)) as [Hseen|Hnew]; rewrite IH.
    + f_equal. set_solver.
    + rewrite <- app_assoc. f_equal. set_solver.
Qed.

Lemma sleeps_request rateLimited query offset :
  sleeps (Offset.request rateLimited query offset) = [].
Proof. unfold Offset.request. by destruct rateLimited. Qed.

Lemma sleeps_app evs1 evs2 : sleeps (evs1 ++ evs2) = sleeps evs1 ++ sleeps evs2.
Proof. apply omap_app. Qed.

Lemma requests_app evs1 evs2 :
  requests (evs1 ++ evs2) = requests evs1 ++ requests evs2.
Proof. apply omap_app. Qed.

Section OffsetMore.

Variable rateLimited : bool.
Variable transient : string -> bool.

(** What a call consumed, what it returned or why it failed, and what its
    trace holds. *)
Lemma SearchFrom_consumed script : ∀ query offset uniq repos evs res rest,
  Offset.SearchFrom rateLimited transient query offset uniq repos script
    = (evs, res, rest) →
  ∃ used,
    script = used ++ rest
    ∧ length (requests evs)
      = (length used + match res with Pending => 1 | _ => 0 end)%nat
    ∧ sleeps evs
      = replicate (length (filter (λ a, retried transient a = true) used)) 10
    ∧ match res with
      | Returned repos' =>
          repos' = repos ++ firstSeen DatabaseId uniq (pageNodes used)
          ∧ Forall (λ a, fatal transient a = false) used
      | Failed err =>
          ∃ used', used = used' ++ [Err err] ∧ transient err = false
                   ∧ Forall (λ a, fatal transient a = false) used'
      | Pending => rest = [] ∧ Forall (λ a, fatal transient a = false) used
      end.
Proof.
  induction script as [|[results|err] script IH];
    intros query offset uniq repos evs res rest Heq; simpl in Heq.
  - injection Heq as <- <- <-. exists []. rewrite requests_request_only, sleeps_request.
    by repeat split.
  - rewrite rangeNodes_firstSeen in Heq.
    assert (Hstop : ∀ res0,
      (Offset.request rateLimited query offset, res0, script) = (evs, res, rest) →
      res0 = Returned (repos ++ firstSeen DatabaseId uniq (Nodes results)) →
      ∃ used, Ok results :: script = used ++ rest
        ∧ length (requests evs)
          = (length used + match res with Pending => 1 | _ => 0 end)%nat
        ∧ sleeps evs
          = replicate (length (filter (λ a, retried transient a = true) used)) 10
        ∧ match res with
          | Returned repos' =>
              repos' = repos ++ firstSeen DatabaseId uniq (pageNodes used)
              ∧ Forall (λ a, fatal transient a = false) used
          | Failed err =>
              ∃ used', used = used' ++ [Err err] ∧ transient err = false
                       ∧ Forall (λ a, fatal transient a = false) used'
          | Pending => rest = [] ∧ Forall (λ a, fatal transient a = false) used
          end).
    { intros res0 [= <- <- <-] ->. exists [Ok results].
      rewrite requests_request_only, sleeps_request. simpl. rewrite app_nil_r.
      repeat split; try done. by repeat constructor. }
    destruct (negb (HasNextPage results)); [by eapply Hstop|].
    destruct (offset + Offset.step <? Offset.ceiling); [|by eapply Hstop].
    unfold emit in Heq.
    destruct (Offset.SearchFrom _ _ _ _ _ _ script) as [[evs2 res2] rest2] eqn:Hrec.
    injection Heq as <- <- <-.
    destruct (IH _ _ _ _ _ _ _ Hrec) as (used & -> & Hlen & Hsleep & Hres).
    exists (Ok results :: used). split; [done|]. split; [|split].
    + rewrite requests_request. simpl. by rewrite Hlen.
    + rewrite sleeps_app, sleeps_request. simpl. by rewrite Hsleep.
    + destruct res2 as [repos'|err|].
      * destruct Hres as [-> Hall]. split; [|by constructor].
        simpl. rewrite firstSeen_app, <- app_assoc. done.
      * destruct Hres as (used' & -> & Hf & Hall).
        exists (Ok results :: used'). split; [done|]. split; [done|]. by constructor.
      * destruct Hres as [-> Hall]. split; [done|]. by constructor.
  - destruct (transient err) eqn:Herr.
    + unfold emit in Heq.
      destruct (Offset.SearchFrom _ _ _ _ _ _ script) as [[evs2 res2] rest2] eqn:Hrec.
      injection Heq as <- <- <-.
      destruct (IH _ _ _ _ _ _ _ Hrec) as (used & -> & Hlen & Hsleep & Hres).
      assert (Hok : fatal transient (Err err : Response Repository) = false)
        by (simpl; by rewrite Herr).
      exists (Err err :: used). split; [done|]. split; [|split].
      * rewrite <- app_assoc, requests_request. simpl. by rewrite Hlen.
      * rewrite !sleeps_app, sleeps_request. simpl.
        rewrite filter_cons. simpl. rewrite Herr.
        destruct (decide (true = true)); [|done]. simpl. by rewrite Hsleep.
      * destruct res2 as [repos'|err'|].
        -- destruct Hres as [-> Hall]. split; [done|]. by constructor.
        -- destruct Hres as (used' & -> & Hf & Hall).
           exists (Err err :: used'). split; [done|]. split; [done|]. by constructor.
        -- destruct Hres as [-> Hall]. split; [done|]. by constructor.
    + injection Heq as <- <- <-. exists [Err err].
      rewrite requests_request_only, sleeps_request. simpl.
      rewrite filter_cons. simpl. rewrite Herr.
      destruct (decide (false = true)); [done|]. simpl.
      repeat split; try done. by exists [].
Qed.

(** Dropping the retried errors from the script changes neither the
    result nor what is left of the script. *)
Lemma SearchFrom_settled script : ∀ query offset uniq repos,
  let '(evs, res, rest) :=
    Offset.SearchFrom rateLimited transient query offset uniq repos script in
  ∃ evs',
    Offset.SearchFrom rateLimited transient query offset uniq repos
      (settled transient script)
    = (evs', res, settled transient rest)
    ∧ sleeps evs' = []
    ∧ requests evs' ⊆ requests evs.
Proof.
  induction script as [|[results|err] script IH]; intros query offset uniq repos;
    unfold settled; rewrite ?filter_cons; simpl.
  - eexists. split; [done|]. by rewrite sleeps_request.
  - destruct (decide (false = false)); [|done]. simpl.
    destruct (Offset.rangeNodes uniq repos (Nodes results)) as [uniq1 repos1].
    destruct (negb (HasNextPage results)).
    { eexists. split; [done|]. by rewrite sleeps_request. }
    destruct (offset + Offset.step <? Offset.ceiling).
    2:{ eexists. split; [done|]. by rewrite sleeps_request. }
    specialize (IH query (offset + Offset.step) uniq1 repos1). unfold emit.
    destruct (Offset.SearchFrom _ _ _ _ _ _ script) as [[evs2 res2] rest2].
    destruct IH as (evs' & Hrun & Hsl & Hsub). unfold settled in Hrun. rewrite Hrun.
    eexists. split; [done|].
    rewrite !sleeps_app, !sleeps_request, !requests_request, Hsl.
    split; [done|]. set_solver.
  - destruct (transient err) eqn:Herr.
    + destruct (decide (true = false)); [done|].
      specialize (IH query offset uniq repos). unfold emit.
      destruct (Offset.SearchFrom _ _ _ _ _ _ script) as [[evs2 res2] rest2].
      destruct IH as (evs' & Hrun & Hsl & Hsub). unfold settled in Hrun.
      exists evs'. split; [done|]. split; [done|].
      rewrite <- app_assoc, requests_request. set_solver.
    + destruct (decide (false = false)); [|done]. simpl. rewrite Herr.
      eexists. split; [done|]. by rewrite sleeps_request.
Qed.

End OffsetMore.

Lemma SearchFrom_paced transient script : ∀ query offset uniq repos,
  paced (Offset.SearchFrom true transient query offset uniq repos script).1.1 = true.
Proof.
  induction script as [|[results|err] script IH]; intros query offset uniq repos;
    simpl; [done| |].
  - destruct (Offset.rangeNodes uniq repos (Nodes results)) as [uniq1 repos1].
    destruct (negb (HasNextPage results)); [done|].
    destruct (offset + Offset.step <? Offset.ceiling); [|done].
    specialize (IH query (offset + Offset.step) uniq1 repos1). unfold emit.
    by destruct (Offset.SearchFrom _ _ _ _ _ _ script) as [[evs2 res2] rest2].
  - destruct (transient err); [|done].
    specialize (IH query offset uniq repos). unfold emit.
    by destruct (Offset.SearchFrom _ _ _ _ _ _ script) as [[evs2 res2] rest2].
Qed.

Lemma SearchFrom_no_take transient script : ∀ query offset uniq repos,
  Take ∉ (Offset.SearchFrom false transient query offset uniq repos script).1.1.
Proof.
  induction script as [|[results|err] script IH]; intros query offset uniq repos;
    simpl; [set_solver| |].
  - destruct (Offset.rangeNodes uniq repos (Nodes results)) as [uniq1 repos1].
    destruct (negb (HasNextPage results)); [set_solver|].
    destruct (offset + Offset.step <? Offset.ceiling); [|set_solver].
    specialize (IH query (offset + Offset.step) uniq1 repos1). unfold emit.
    destruct (Offset.SearchFrom _ _ _ _ _ _ script) as [[evs2 res2] rest2].
    simpl in *. set_solver.
  - destruct (transient err); [|set_solver].
    specialize (IH query offset uniq repos). unfold emit.
    destruct (Offset.SearchFrom _ _ _ _ _ _ script) as [[evs2 res2] rest2].
    simpl in *. set_solver.
Qed.

(** X1.  The repositories [Search] returns are the nodes of the pages it
    consumed, in page order, each identifier at its first occurrence: a
    later node with an identifier already returned is left out, nothing is
    reordered. *)
Theorem search_first_occurrences :
  ∀ (rateLimited : bool) (transient : string -> bool) (query : string)
    (script : list (Response Repository)) evs repos rest,
    Offset.Search rateLimited transient query script = (evs, Returned repos, rest) →
    ∃ used, script = used ++ rest
      ∧ repos = firstSeen DatabaseId ∅ (pageNodes used).
Proof.
  intros rateLimited transient query script evs repos rest Heq.
  destruct (SearchFrom_consumed _ _ _ _ _ _ _ _ _ _ Heq) as (used & Hused & _ & _ & Hres & _).
  by exists used.
Qed.

Lemma search_first_occurrences_witness :
  ∃ used,
    [Ok (Fixture.page [Fixture.spoon; Fixture.hello] true);
     Ok (Fixture.page [Fixture.hello; Fixture.spoon; Fixture.knife] false);
     Ok (Fixture.page [Fixture.hello] false)]
    = used ++ [Ok (Fixture.page [Fixture.hello] false)]
    ∧ [Fixture.spoon; Fixture.hello; Fixture.knife]
      = firstSeen DatabaseId ∅ (pageNodes used).
Proof.
  refine (search_first_occurrences false Daily.transient "q"
    [Ok (Fixture.page [Fixture.spoon; Fixture.hello] true);
     Ok (Fixture.page [Fixture.hello; Fixture.spoon; Fixture.knife] false);
     Ok (Fixture.page [Fixture.hello] false)] _ _ _ _).
  vm_compute. reflexivity.
Defined.

(** X2.  Retries are transparent: [Search] returns the same result (the
    same repositories, the same error, or is waiting alike) and leaves the
    same answers unconsumed as on the script without the retried errors,
    on which it never sleeps and issues no request it did not issue
    before. *)
Theorem search_retry_transparent :
  ∀ (rateLimited : bool) (transient : string -> bool) (query : string)
    (script : list (Response Repository)),
    ∃ evs',
      Offset.Search rateLimited transient query (settled transient script)
      = (evs', (Offset.Search rateLimited transient query script).1.2,
         settled transient (Offset.Search rateLimited transient query script).2)
      ∧ sleeps evs' = []
      ∧ requests evs'
        ⊆ requests (Offset.Search rateLimited transient query script).1.1.
Proof.
  intros rateLimited transient query script.
  pose proof (SearchFrom_settled rateLimited transient script query 0 ∅ []) as Hs.
  unfold Offset.Search.
  by destruct (Offset.SearchFrom _ _ _ _ _ _ script) as [[evs res] rest].
Qed.

(** X3.  [Search] fails only with an error the client returned and that
    is not retried: the script consumed ends with that error, every answer
    before it is a page or a retried error, and nothing after it is
    consumed.  A script whose errors are all retried never makes [Search]
    fail. *)
Theorem search_failure :
  ∀ (rateLimited : bool) (transient : string -> bool) (query : string)
    (script : list (Response Repository)) evs res rest,
    Offset.Search rateLimited transient query script = (evs, res, rest) →
    (∀ err, res = Failed err →
       ∃ used, script = used ++ Err err :: rest
         ∧ transient err = false
         ∧ Forall (λ a, fatal transient a = false) used)
    ∧ (Forall (λ a, fatal transient a = false) script → ∀ err, res ≠ Failed err).
Proof.
  intros rateLimited transient query script evs res rest Heq.
  destruct (SearchFrom_consumed _ _ _ _ _ _ _ _ _ _ Heq) as (used & Hused & _ & _ & Hres).
  assert (Hfail : ∀ err, res = Failed err →
    ∃ used, script = used ++ Err err :: rest
      ∧ transient err = false ∧ Forall (λ a, fatal transient a = false) used).
  { intros err ->. destruct Hres as (used' & -> & Hf & Hall).
    exists used'. by rewrite <- app_assoc in Hused. }
  split; [exact Hfail|].
  intros Hall err Hres'. destruct (Hfail err Hres') as (used' & -> & Hf & _).
  apply Forall_app in Hall as [_ Hall]. apply Forall_cons in Hall as [Herr _].
  simpl in Herr. by rewrite Hf in Herr.
Qed.

Lemma search_failure_witness :
  ∃ used,
    [Ok (Fixture.page [Fixture.hello] true); Err "502 Bad Gateway";
     Ok (Fixture.page [Fixture.spoon] false)]
    = used ++ Err "502 Bad Gateway" :: [Ok (Fixture.page [Fixture.spoon] false)]
    ∧ Hourly.transient "502 Bad Gateway" = false
    ∧ Forall (λ a, fatal Hourly.transient a = false) used.
Proof.
  refine (proj1 (search_failure true Hourly.transient "q"
    [Ok (Fixture.page [Fixture.hello] true); Err "502 Bad Gateway";
     Ok (Fixture.page [Fixture.spoon] false)] _ _ _ _) "502 Bad Gateway" _).
  - vm_compute. reflexivity.
  - reflexivity.
Defined.

(** X4.  Accounting of a [Search] call: it issues one request per answer
    it consumes, plus the one it is waiting on; it sleeps 10 seconds once
    per retried error it consumed and at no other time; with the rate
    limiter every request comes right after a draw from the limiter and no
    draw goes unused, without it the limiter is never drawn from. *)
Theorem search_accounting :
  ∀ (rateLimited : bool) (transient : string -> bool) (query : string)
    (script : list (Response Repository)) evs res rest,
    Offset.Search rateLimited transient query script = (evs, res, rest) →
    (∃ used, script = used ++ rest
       ∧ length (requests evs)
         = (length used + match res with Pending => 1 | _ => 0 end)%nat
       ∧ sleeps evs
         = replicate (length (filter (λ a, retried transient a = true) used)) 10)
    ∧ (if rateLimited then paced evs = true else Take ∉ evs).
Proof.
  intros rateLimited transient query script evs res rest Heq. split.
  - destruct (SearchFrom_consumed _ _ _ _ _ _ _ _ _ _ Heq)
      as (used & Hused & Hlen & Hsleep & _).
    by exists used.
  - unfold Offset.Search in Heq. destruct rateLimited.
    + pose proof (SearchFrom_paced transient script query 0 ∅ []) as Hp.
      by rewrite Heq in Hp.
    + pose proof (SearchFrom_no_take transient script query 0 ∅ []) as Hp.
      by rewrite Heq in Hp.
Qed.

Lemma search_accounting_witness :
  paced
    [Take; Query "q" None; Sleep 10; Take; Query "q" None; Take;
     Query "q" (Some "Y3Vyc29yOjkx")] = true.
Proof.
  refine (proj2 (search_accounting true Hourly.transient "q"
    [Err "504 Gateway Timeout"; Ok (Fixture.page [Fixture.hello] true)]
    _ Pending [] _)).
  vm_compute. reflexivity.
Defined.

(** ** The date-partitioned programs: pacing *)

Lemma paced_app_n (n : nat) : ∀ evs1 evs2,
  (length evs1 ≤ n)%nat → paced evs1 = true → paced (evs1 ++ evs2) = paced evs2.
Proof.
  induction n as [|n IH]; intros evs1 evs2 Hlen Hp.
  - by destruct evs1; [|simpl in Hlen; lia].
  - destruct evs1 as [|[|q c|d] evs1]; [done| |done|].
    + destruct evs1 as [|[|q c|d] evs1]; try done.
      simpl in *. apply IH; [lia|done].
    + simpl in *. apply IH; [lia|done].
Qed.

Lemma paced_app evs1 evs2 :
  paced evs1 = true → paced (evs1 ++ evs2) = paced evs2.
Proof. by apply (paced_app_n (length evs1)). Qed.

Lemma traceOf_write {R} evs rows (out : Output R) :
  traceOf (write evs rows out) = evs ++ traceOf out.
Proof. by destruct out as [[[? ?] ?] ?]. Qed.

Lemma Hourly_rangeHours_paced query day hours : ∀ script,
  paced (traceOf (Hourly.rangeHours query day hours script)) = true.
Proof.
  induction hours as [|hour hours IH]; intros script; [done|].
  cbn [Hourly.rangeHours].
  pose proof (SearchFrom_paced Hourly.transient script
                (Hourly.hourQuery query day hour) 0 ∅ []) as Hp.
  fold (Offset.Search true Hourly.transient (Hourly.hourQuery query day hour) script) in Hp.
  fold Hourly.Search in Hp.
  destruct (Hourly.Search _ script) as [[evs [repos|err|]] rest]; try exact Hp.
  rewrite traceOf_write, paced_app by exact Hp. apply IH.
Qed.

Lemma Hourly_rangeDays_paced fuel : ∀ query day endTime script,
  paced (traceOf (Hourly.rangeDays fuel query day endTime script)) = true.
Proof.
  induction fuel as [|fuel IH]; intros query day endTime script;
    cbn [Hourly.rangeDays]; [done|].
  destruct (time.After day endTime); [done|].
  pose proof (Hourly_rangeHours_paced query day (seqZ 0 24) script) as Hday.
  destruct (Hourly.rangeHours query day (seqZ 0 24) script) as [[[evs rows] exit] rest].
  destruct exit; try exact Hday.
  rewrite traceOf_write, paced_app by exact Hday. apply IH.
Qed.

Lemma Daily_rangeDays_no_take fuel : ∀ query day endTime script,
  Take ∉ traceOf (Daily.rangeDays fuel query day endTime script).
Proof.
  induction fuel as [|fuel IH]; intros query day endTime script;
    cbn [Daily.rangeDays]; [set_solver|].
  destruct (time.After day endTime); [set_solver|].
  pose proof (SearchFrom_no_take Daily.transient script
                (Daily.dayQuery query day) 0 ∅ []) as Hp.
  fold (Offset.Search false Daily.transient (Daily.dayQuery query day) script) in Hp.
  fold Daily.Search in Hp.
  destruct (Daily.Search _ script) as [[evs [repos|err|]] rest]; try exact Hp.
  rewrite traceOf_write. specialize (IH query (time.AddDate_days day 1) endTime rest).
  simpl in Hp. set_solver.
Qed.

(** X6.  Over a whole run of [main] of [Hourly], across all days, hours,
    pages and retries, every request comes right after a draw from the
    rate limiter and no draw goes unused; [main] of [Daily] never draws
    from a rate limiter. *)
Theorem main_paced :
  ∀ (fuel : nat) (query : string) (startTime endTime : time.Time)
    (script : list (Response Repository)),
    paced (traceOf (Hourly.main fuel query startTime endTime script)) = true
    ∧ Take ∉ traceOf (Daily.main fuel query startTime endTime script).
Proof.
  intros fuel query startTime endTime script. unfold Hourly.main, Daily.main.
  destruct (time.After startTime endTime); [split; [done|set_solver]|].
  split; [apply Hourly_rangeDays_paced|apply Daily_rangeDays_no_take].
Qed.

(** ** The watermark iteration: order, errors, the consumer *)

Section PushedMore.

Context {R K : Type} `{Countable K}.
Variable key : R -> K.
Variable pushedAt : R -> githubv4.DateTime.
Variable zeroValue : R.
Variable yield : list (R * option string) -> bool.

Lemma yielded_app (l1 l2 : list R) : yielded (l1 ++ l2) = yielded l1 ++ yielded l2.
Proof. unfold yielded. apply fmap_app. Qed.

Lemma yielded_lookup (l : list R) (i : nat) r e : yielded l !! i ≠ Some (r, Some e).
Proof.
  unfold yielded. rewrite list_lookup_fmap. by destruct (l !! i).
Qed.

Lemma rangeRepos_shape repos : ∀ uniq items uniq' items' more,
  Pushed.rangeRepos key yield uniq items repos = (uniq', items', more) →
  ∃ new, items' = items ++ yielded new
    ∧ new `prefix_of` firstSeen key uniq repos
    ∧ (more = true →
         new = firstSeen key uniq repos
         ∧ uniq' = list_to_set (key <$> repos) ∪ uniq)
    ∧ (∀ (i : nat) r, (length items ≤ i)%nat → items' !! i = Some (r, None) →
         (S i < length items')%nat ∨ more = true →
         yield (take (S i) items') = true).
Proof.
  induction repos as [|repo repos IH]; intros uniq items uniq' items' more Heq;
    simpl in Heq.
  - injection Heq as <- <- <-. exists []. rewrite app_nil_r.
    split; [done|]. split; [done|]. split; [intros _; split; [done|set_solver]|].
    intros i r Hi Hlook. apply lookup_lt_Some in Hlook. lia.
  - destruct (decide (key repo ∈ uniq)) as [Hseen|Hnew].
    + destruct (IH _ _ _ _ _ Heq) as (new & -> & Hpre & Hmore & Hacc).
      exists new. split; [done|]. simpl.
      destruct (decide (key repo ∈ uniq)); [|done].
      split; [done|]. split; [|done].
      intros Hm. destruct (Hmore Hm) as [-> ->]. split; [done|]. set_solver.
    + destruct (yield (items ++ [(repo, None)])) eqn:Hy.
      * destruct (IH _ _ _ _ _ Heq) as (new & -> & Hpre & Hmore & Hacc).
        exists (repo :: new). split; [by rewrite <- app_assoc|]. simpl.
        destruct (decide (key repo ∈ uniq)); [done|].
        split; [by apply prefix_cons|]. split.
        -- intros Hm. destruct (Hmore Hm) as [-> ->]. split; [done|]. set_solver.
        -- intros i r Hi Hlook Hcond.
           destruct (decide (i = length items)) as [->|Hne].
           ++ rewrite take_app_length'; [done|]. rewrite length_app. simpl. lia.
           ++ apply Hacc with r; [rewrite length_app; simpl; lia|done|done].
      * injection Heq as <- <- <-. exists [repo]. split; [done|]. simpl.
        destruct (decide (key repo ∈ uniq)); [done|].
        split; [apply prefix_cons, prefix_nil|]. split; [done|].
        intros i r Hi Hlook [Hlt|Hm]; [|done].
        rewrite length_app in Hlt. simpl in Hlt. lia.
Qed.

Lemma IterSearchFrom_shape script : ∀ query since uniq items evs items' status,
  Pushed.IterSearchFrom key pushedAt zeroValue yield query since uniq items script
    = (evs, items', status) →
  ∃ new tail err,
    items' = items ++ yielded new ++ tail
    ∧ new `prefix_of` firstSeen key uniq (pageNodes script)
    ∧ errorTail zeroValue tail err
    ∧ (∀ e, err = Some e →
         status = Finished ∧ Err e ∈ script ∧ secondaryRateLimit e = false)
    ∧ (∀ (i : nat) r, (length items ≤ i)%nat → items' !! i = Some (r, None) →
         (S i < length items')%nat ∨ status = Awaiting →
         yield (take (S i) items') = true).
Proof.
  induction script as [|[results|err] script IH];
    intros query since uniq items evs items' status Heq; simpl in Heq.
  - injection Heq as _ <- <-. exists [], [], None. rewrite !app_nil_r.
    split; [done|]. split; [apply prefix_nil|]. split; [done|]. split; [done|].
    intros i r Hi Hlook. apply lookup_lt_Some in Hlook. lia.
  - destruct (Pushed.rangeRepos key yield uniq items (Nodes results))
      as [[uniq1 items1] more] eqn:Hrange.
    destruct (rangeRepos_shape _ _ _ _ _ _ Hrange) as (new1 & -> & Hpre1 & Hmore & Hacc).
    assert (Hstop : ∀ evs0, (evs0, items ++ yielded new1, Finished) = (evs, items', status) →
      ∃ new tail err,
        items' = items ++ yielded new ++ tail
        ∧ new `prefix_of` firstSeen key uniq (Nodes results ++ pageNodes script)
        ∧ errorTail zeroValue tail err
        ∧ (∀ e, err = Some e →
             status = Finished ∧ Err e ∈ Ok results :: script
             ∧ secondaryRateLimit e = false)
        ∧ (∀ (i : nat) r, (length items ≤ i)%nat → items' !! i = Some (r, None) →
             (S i < length items')%nat ∨ status = Awaiting →
             yield (take (S i) items') = true)).
    { intros evs0 [= _ <- <-]. exists new1, [], None. rewrite app_nil_r.
      split; [done|]. split; [rewrite firstSeen_app; by apply prefix_app_r|].
      split; [done|]. split; [done|].
      intros i r Hi Hlook [Hlt|Hst]; [|done]. apply Hacc with r; auto. }
    destruct more; [|by eapply Hstop].
    destruct (negb (HasNextPage results)); [by eapply Hstop|].
    destruct (Pushed.IterSearchFrom _ _ _ _ _ _ _ _ script)
      as [[evs2 items2] st2] eqn:Hrec.
    injection Heq as _ <- <-. destruct (Hmore eq_refl) as [-> ->].
    destruct (IH _ _ _ _ _ _ _ Hrec) as (new2 & tail & err & -> & Hpre2 & Htail & Herr & Hacc2).
    exists (firstSeen key uniq (Nodes results) ++ new2), tail, err.
    rewrite yielded_app, <- !app_assoc. split; [done|]. split; [|split; [done|split]].
    + cbn [pageNodes]. rewrite firstSeen_app. by apply prefix_app.
    + intros e He. destruct (Herr e He) as (-> & Hin & Hno).
      split; [done|]. split; [by right|done].
    + intros i r Hi Hlook Hcond.
      set (items1 := items ++ yielded (firstSeen key uniq (Nodes results))) in *.
      rewrite (app_assoc items) in *. fold items1 in Hlook, Hcond |- *.
      destruct (decide (i < length items1)%nat) as [Hlt|Hge].
      * rewrite lookup_app_l in Hlook by done.
        rewrite take_app_le by lia. apply Hacc with r; auto.
      * apply Hacc2 with r; [lia|done|done].
  - destruct (strings.Contains err _) eqn:Hretry.
    + destruct (Pushed.IterSearchFrom _ _ _ _ _ _ _ _ script)
        as [[evs2 items2] st2] eqn:Hrec.
      injection Heq as _ <- <-.
      destruct (IH _ _ _ _ _ _ _ Hrec) as (new & tail & e' & -> & Hpre & Htail & Herr & Hacc).
      exists new, tail, e'. split; [done|]. split; [done|]. split; [done|].
      split; [|done]. intros e He. destruct (Herr e He) as (-> & Hin & Hno).
      split; [done|]. split; [by right|done].
    + injection Heq as _ <- <-. exists [], [(zeroValue, Some err)], (Some err).
      split; [done|]. split; [apply prefix_nil|]. split; [done|]. split.
      * intros e [= <-]. split; [done|]. split; [by left|done].
      * intros i r Hi Hlook. simpl in Hlook.
        destruct (decide (i = length items)) as [->|Hne].
        -- rewrite list_lookup_middle in Hlook by done. done.
        -- apply lookup_lt_Some in Hlook. rewrite length_app in Hlook.
           simpl in Hlook. lia.
Qed.

Lemma IterSearchFrom_settled script : ∀ query since uniq items,
  let '(evs, items', status) :=
    Pushed.IterSearchFrom key pushedAt zeroValue yield query since uniq items script in
  ∃ evs',
    Pushed.IterSearchFrom key pushedAt zeroValue yield query since uniq items
      (settled secondaryRateLimit script)
    = (evs', items', status)
    ∧ sleeps evs' = [].
Proof.
  induction script as [|[results|err] script IH]; intros query since uniq items;
    unfold settled; rewrite ?filter_cons; simpl.
  - by eexists.
  - destruct (decide (false = false)); [|done]. simpl.
    destruct (Pushed.rangeRepos key yield uniq items (Nodes results))
      as [[uniq1 items1] []]; [|by eexists].
    destruct (negb (HasNextPage results)); [by eexists|].
    match goal with
    | |- context [Pushed.IterSearchFrom _ _ _ _ _ ?s ?u ?i script] =>
        specialize (IH query s u i)
    end.
    destruct (Pushed.IterSearchFrom _ _ _ _ _ _ _ _ script) as [[evs2 items2] st2].
    destruct IH as (evs' & Hrun & Hsl). unfold settled in Hrun. rewrite Hrun.
    eexists. split; [done|]. done.
  - destruct (decide _) as [Hd|Hd]; unfold secondaryRateLimit in Hd.
    + rewrite Hd. simpl. rewrite Hd. by eexists.
    + apply not_false_iff_true in Hd. rewrite Hd.
      specialize (IH query since uniq items).
      destruct (Pushed.IterSearchFrom _ _ _ _ _ _ _ _ script) as [[evs2 items2] st2].
      destruct IH as (evs' & Hrun & Hsl). by exists evs'.
Qed.

End PushedMore.

Lemma prefix_NoDup_fmap {R K : Type} (key : R -> K) (l1 l2 : list R) :
  l1 `prefix_of` l2 → NoDup (key <$> l2) → NoDup (key <$> l1).
Proof.
  intros [k ->] Hnd. rewrite fmap_app in Hnd. by apply NoDup_app in Hnd as [? _].
Qed.

Lemma FormatInt_inj (a b : Z) : strconv.FormatInt a = strconv.FormatInt b → a = b.
Proof.
  unfold strconv.FormatInt. intros Heq. apply DecimalZ.to_int_inj.
  assert (Hok : ∀ z, NilZero.int_of_string (NilZero.string_of_int (Z.to_int z))
                     = Some (Z.to_int z)).
  { intros z. apply NilZero.isi; destruct z; simpl; try discriminate;
      intros [= Hnil]; by apply DecimalPos.Unsigned.to_uint_nonnil in Hnil. }
  apply (f_equal NilZero.int_of_string) in Heq. rewrite !Hok in Heq.
  by injection Heq.
Qed.

(** X7.  For any record type and key (so for [Watermark] and for
    [Legacy]), any consumer and any script, the repositories [IterSearch]
    yields are the nodes of the answered pages in page order, each key at
    its first occurrence, possibly cut short: nothing is yielded out of
    order, twice, or from nowhere. *)
Theorem itersearch_first_occurrences :
  ∀ {R K : Type} `{Countable K} (key : R -> K) (pushedAt : R -> githubv4.DateTime)
    (zeroValue : R) (yield : list (R * option string) -> bool)
    (query : string) (script : list (Response R)),
    Pushed.entities (Pushed.IterSearch key pushedAt zeroValue yield query script).1.2
      `prefix_of` firstSeen key ∅ (pageNodes script)
    ∧ NoDup (key <$> Pushed.entities
               (Pushed.IterSearch key pushedAt zeroValue yield query script).1.2).
Proof.
  intros R K ? ? key pushedAt zeroValue yield query script.
  unfold Pushed.IterSearch.
  destruct (Pushed.IterSearchFrom _ _ _ _ _ _ _ _ script) as [[evs items] status] eqn:Heq.
  destruct (IterSearchFrom_shape _ _ _ _ _ _ _ _ _ _ _ _ Heq)
    as (new & tail & err & -> & Hpre & Htail & _).
  assert (Hent : Pushed.entities (yielded new ++ tail) = new).
  { rewrite entities_app, entities_yielded.
    destruct err as [e|]; simpl in Htail; subst tail; simpl; by rewrite app_nil_r. }
  change (Pushed.entities (yielded new ++ tail)
            `prefix_of` firstSeen key ∅ (pageNodes script)
          ∧ NoDup (key <$> Pushed.entities (yielded new ++ tail))).
  rewrite Hent. split; [done|].
  eapply prefix_NoDup_fmap; [exact Hpre|]. apply firstSeen_spec.
Qed.

(** X8.  [IterSearch] yields at most one error, as its last pair, with the
    zero repository, and then has returned; the error is one the client
    returned and that is not retried. *)
Theorem itersearch_error_last :
  ∀ {R K : Type} `{Countable K} (key : R -> K) (pushedAt : R -> githubv4.DateTime)
    (zeroValue : R) (yield : list (R * option string) -> bool)
    (query : string) (script : list (Response R)) evs items status,
    Pushed.IterSearch key pushedAt zeroValue yield query script = (evs, items, status) →
    ∀ (i : nat) r e, items !! i = Some (r, Some e) →
      S i = length items ∧ r = zeroValue ∧ status = Finished
      ∧ Err e ∈ script ∧ secondaryRateLimit e = false.
Proof.
  intros R K ? ? key pushedAt zeroValue yield query script evs items status Heq i r e Hi.
  destruct (IterSearchFrom_shape _ _ _ _ _ _ _ _ _ _ _ _ Heq)
    as (new & tail & err & -> & _ & Htail & Herr & _).
  simpl in Hi. destruct (decide (i < length (yielded new))%nat) as [Hlt|Hge].
  { rewrite lookup_app_l in Hi by done. by apply yielded_lookup in Hi. }
  rewrite lookup_app_r in Hi by lia.
  destruct err as [e'|]; simpl in Htail; subst tail; [|done].
  destruct (i - length (yielded new))%nat eqn:Hidx; [|done].
  injection Hi as <- <-. destruct (Herr e' eq_refl) as (-> & Hin & Hno).
  split; [|done]. simpl. rewrite length_app. simpl. lia.
Qed.

Lemma itersearch_error_last_witness :
  S 1 = length [(Fixture.hello, @None string);
                (Watermark.zeroRepository, Some "401 Unauthorized")]
  ∧ Watermark.zeroRepository = Watermark.zeroRepository ∧ Finished = Finished
  ∧ Err "401 Unauthorized"
      ∈ [Ok (Fixture.page [Fixture.hello] true);
         Err "401 Unauthorized" : Response Repository]
  ∧ secondaryRateLimit "401 Unauthorized" = false.
Proof.
  refine (itersearch_error_last DatabaseId PushedAt Watermark.zeroRepository
    Pushed.consumeAll "q"
    [Ok (Fixture.page [Fixture.hello] true); Err "401 Unauthorized"]
    _ _ _ _ 1%nat _ _ _).
  - vm_compute. reflexivity.
  - reflexivity.
Defined.

(** X9.  [IterSearch] honours the consumer: when [yield] returns false
    for a repository, that repository is the last pair yielded and the
    iterator has returned, with no error after it and no request
    pending. *)
Theorem itersearch_consumer_stop :
  ∀ {R K : Type} `{Countable K} (key : R -> K) (pushedAt : R -> githubv4.DateTime)
    (zeroValue : R) (yield : list (R * option string) -> bool)
    (query : string) (script : list (Response R)) evs items status,
    Pushed.IterSearch key pushedAt zeroValue yield query script = (evs, items, status) →
    ∀ (i : nat) r, items !! i = Some (r, None) →
      yield (take (S i) items) = false →
      S i = length items ∧ status = Finished.
Proof.
  intros R K ? ? key pushedAt zeroValue yield query script evs items status Heq i r Hi Hy.
  destruct (IterSearchFrom_shape _ _ _ _ _ _ _ _ _ _ _ _ Heq)
    as (new & tail & err & Hitems & _ & _ & _ & Hacc).
  simpl in Hitems. pose proof (lookup_lt_Some _ _ _ Hi) as Hlt.
  destruct (decide (S i = length items)) as [Hlast|Hnot].
  - split; [done|]. destruct status; [done|].
    rewrite (Hacc i r) in Hy; [done|simpl; lia|done|by right].
  - rewrite (Hacc i r) in Hy; [done|simpl; lia|done|left; lia].
Qed.

Lemma itersearch_consumer_stop_witness :
  S 1 = length [(Fixture.hello, @None string); (Fixture.spoon, None)]
  ∧ Finished = Finished.
Proof.
  refine (itersearch_consumer_stop DatabaseId PushedAt Watermark.zeroRepository
    (λ items, bool_decide (length items < 2)%nat) "q"
    [Ok (Fixture.page [Fixture.hello; Fixture.spoon; Fixture.knife] true)]
    _ _ _ _ 1%nat Fixture.spoon _ _).
  - vm_compute. reflexivity.
  - reflexivity.
  - reflexivity.
Defined.

(** X10.  Retries are transparent for [IterSearch] too: it yields the
    same pairs and ends the same way as on the script without the errors
    it retries, on which it never sleeps. *)
Theorem itersearch_retry_transparent :
  ∀ {R K : Type} `{Countable K} (key : R -> K) (pushedAt : R -> githubv4.DateTime)
    (zeroValue : R) (yield : list (R * option string) -> bool)
    (query : string) (script : list (Response R)),
    ∃ evs',
      Pushed.IterSearch key pushedAt zeroValue yield query
        (settled secondaryRateLimit script)
      = (evs',
         (Pushed.IterSearch key pushedAt zeroValue yield query script).1.2,
         (Pushed.IterSearch key pushedAt zeroValue yield query script).2)
      ∧ sleeps evs' = [].
Proof.
  intros R K ? ? key pushedAt zeroValue yield query script.
  pose proof (IterSearchFrom_settled key pushedAt zeroValue yield script query None ∅ [])
    as Hs.
  unfold Pushed.IterSearch.
  by destruct (Pushed.IterSearchFrom _ _ _ _ _ _ _ _ script) as [[evs items] status].
Qed.

(** ** Metric windowing: pages, lines, fuel, requests *)

Lemma pageNodes_app {R} (s1 s2 : list (Response R)) :
  pageNodes (s1 ++ s2) = pageNodes s1 ++ pageNodes s2.
Proof.
  induction s1 as [|[page|msg] s1 IH]; simpl; [done| |done].
  by rewrite IH, app_assoc.
Qed.

Lemma RepositorySearchFrom_pages script : ∀ query cursor repos evs res rest,
  TopRepos.RepositorySearchFrom query cursor repos script = (evs, res, rest) →
  ∃ pages,
    Forall (λ p, HasNextPage p = true) pages
    ∧ evs = Query query cursor :: ((λ p, Query query (Some (EndCursor p))) <$> pages)
    ∧ match res with
      | Returned all =>
          ∃ final, script = (Ok <$> pages) ++ Ok final :: rest
            ∧ HasNextPage final = false
            ∧ all = repos ++ pageNodes ((Ok <$> pages) ++ [Ok final])
      | Failed err => script = (Ok <$> pages) ++ Err err :: rest
      | Pending => script = Ok <$> pages ∧ rest = []
      end.
Proof.
  induction script as [|[q|err] script IH]; intros query cursor repos evs res rest Heq;
    simpl in Heq.
  - injection Heq as <- <- <-. by exists [].
  - destruct (HasNextPage q) eqn:Hnext.
    + unfold emit in Heq.
      destruct (TopRepos.RepositorySearchFrom _ _ _ script)
        as [[evs2 res2] rest2] eqn:Hrec.
      injection Heq as <- <- <-.
      destruct (IH _ _ _ _ _ _ Hrec) as (pages & Hall & -> & Hres).
      exists (q :: pages). split; [by constructor|]. split; [done|].
      destruct res2 as [all|err|].
      * destruct Hres as (final & -> & Hlast & ->). exists final.
        split; [done|]. split; [done|]. simpl. by rewrite <- app_assoc.
      * by rewrite Hres.
      * by destruct Hres as [-> ->].
    + injection Heq as <- <- <-. exists []. split; [done|]. split; [done|].
      exists q. split; [done|]. split; [done|]. simpl. by rewrite app_nil_r.
  - injection Heq as <- <- <-. by exists [].
Qed.

Lemma TopRepos_rangeRepos_firstSeen field repos :
  validField field → ∀ uniq lines value,
  ∃ value',
    TopRepos.rangeRepos field uniq lines value repos
    = (list_to_set (TopRepos.NameWithOwner <$> repos) ∪ uniq,
       lines ++ (printLine field <$> firstSeen TopRepos.NameWithOwner uniq repos),
       value').
Proof.
  intros Hfield. induction repos as [|repo repos IH]; intros uniq lines value; simpl.
  - exists value. rewrite app_nil_r. do 2 f_equal. set_solver.
  - rewrite (fieldValue_valid field repo value Hfield).
    destruct (decide (TopRepos.NameWithOwner repo ∈ uniq)) as [Hseen|Hnew].
    + destruct (IH uniq lines (TopRepos.fieldValue field repo 0)) as [value' ->].
      exists value'. do 2 f_equal. set_solver.
    + edestruct IH as [value' ->]. exists value'.
      rewrite <- app_assoc. do 2 f_equal. set_solver.
Qed.

Section Batches.

Variable query field : string.
Hypothesis Hfield : validField field.

Lemma batches_lines fuel : ∀ lastValue uniq script evs lines exit,
  TopRepos.batches fuel query field lastValue uniq script = (evs, lines, exit) →
  ∃ printed,
    lines = printLine field <$> printed
    ∧ NoDup (TopRepos.NameWithOwner <$> printed)
    ∧ ∀ r, r ∈ printed → (TopRepos.NameWithOwner r ∉ uniq) ∧ r ∈ pageNodes script.
Proof.
  induction fuel as [|fuel IH]; intros lastValue uniq script evs lines exit Heq;
    cbn [TopRepos.batches] in Heq.
  - injection Heq as _ <- _. exists []. split; [done|]. split; [constructor|set_solver].
  - destruct (TopRepos.RepositorySearch _ script) as [[evs0 res0] rest0] eqn:Hs.
    destruct (RepositorySearchFrom_pages _ _ _ _ _ _ _ Hs) as (pages & _ & _ & Hres).
    destruct res0 as [repos|err|];
      [|injection Heq as _ <- _; exists []; split; [done|]; split; [constructor|set_solver]..].
    destruct Hres as (final & -> & _ & Hrepos). simpl in Hrepos.
    assert (Hnodes : ∀ r, r ∈ repos ∨ r ∈ pageNodes rest0 →
      r ∈ pageNodes ((Ok <$> pages) ++ Ok final :: rest0)).
    { intros r Hr. rewrite Hrepos in Hr.
      rewrite (cons_middle (Ok final)), app_assoc, pageNodes_app.
      set_solver. }
    destruct repos as [|r0 repos];
      [injection Heq as _ <- _; exists []; split; [done|]; split; [constructor|set_solver]|].
    destruct (TopRepos_rangeRepos_firstSeen field (r0 :: repos) Hfield uniq [] 0)
      as [value Hrange].
    rewrite Hrange in Heq. simpl app in Heq.
    destruct (firstSeen_spec TopRepos.NameWithOwner (r0 :: repos) uniq)
      as (Hnd & Hin & Hsub).
    destruct (value =? lastValue).
    + injection Heq as _ <- _. exists (firstSeen TopRepos.NameWithOwner uniq (r0 :: repos)).
      split; [done|]. split; [done|]. intros r Hr. split.
      * apply (list_elem_of_fmap_2 TopRepos.NameWithOwner) in Hr. apply Hin in Hr. by destruct Hr.
      * apply Hnodes. left. by apply Hsub.
    + destruct (TopRepos.batches fuel _ _ _ _ rest0) as [[evs1 lines1] exit1] eqn:Hrec.
      injection Heq as _ <- _.
      destruct (IH _ _ _ _ _ _ Hrec) as (printed & -> & Hnd1 & Hin1).
      exists (firstSeen TopRepos.NameWithOwner uniq (r0 :: repos) ++ printed).
      split; [by rewrite fmap_app|]. split.
      * rewrite fmap_app. apply NoDup_app. split; [done|]. split; [|done].
        intros k Hk Hk'. apply list_elem_of_fmap in Hk' as (r & -> & Hr).
        destruct (Hin1 r Hr) as [Hnot _]. apply Hin in Hk as [Hk _].
        apply Hnot. set_solver.
      * intros r Hr. apply elem_of_app in Hr as [Hr|Hr].
        -- split; [|apply Hnodes; left; by apply Hsub].
           apply (list_elem_of_fmap_2 TopRepos.NameWithOwner) in Hr.
           apply Hin in Hr. by destruct Hr.
        -- destruct (Hin1 r Hr) as [Hnot Hrest]. split; [set_solver|].
           apply Hnodes. by right.
Qed.

Lemma batches_fuel fuel : ∀ lastValue uniq script,
  (length script < fuel)%nat →
  (TopRepos.batches fuel query field lastValue uniq script).2 ≠ OutOfFuel.
Proof.
  induction fuel as [|fuel IH]; intros lastValue uniq script Hfuel; [lia|].
  cbn [TopRepos.batches].
  destruct (TopRepos.RepositorySearch _ script) as [[evs0 res0] rest0] eqn:Hs.
  destruct (RepositorySearchFrom_pages _ _ _ _ _ _ _ Hs) as (pages & _ & _ & Hres).
  destruct res0 as [repos|err|]; [|done|done].
  destruct Hres as (final & -> & _ & _).
  destruct repos as [|r0 repos]; [done|].
  destruct (TopRepos.rangeRepos field uniq [] 0 (r0 :: repos)) as [[uniq' lines] value].
  destruct (value =? lastValue); [done|].
  rewrite length_app in Hfuel. simpl in Hfuel.
  assert (Hlt : (length rest0 < fuel)%nat) by lia.
  specialize (IH value uniq' rest0 Hlt).
  by destruct (TopRepos.batches fuel _ _ _ _ rest0) as [[evs1 lines1] exit1].
Qed.

Lemma batches_requests fuel : ∀ lastValue uniq script evs lines exit,
  TopRepos.batches fuel query field lastValue uniq script = (evs, lines, exit) →
  ∀ request, request ∈ requests evs →
    ∃ v, request.1 = TopRepos.batchQuery query field v
      ∧ (v = lastValue
         ∨ ∃ r, r ∈ pageNodes script ∧ v = TopRepos.fieldValue field r 0).
Proof.
  induction fuel as [|fuel IH]; intros lastValue uniq script evs lines exit Heq request Hin;
    cbn [TopRepos.batches] in Heq.
  - injection Heq as <- _ _. by apply elem_of_nil in Hin.
  - destruct (TopRepos.RepositorySearch _ script) as [[evs0 res0] rest0] eqn:Hs.
    destruct (RepositorySearchFrom_pages _ _ _ _ _ _ _ Hs) as (pages & _ & Hevs & Hres).
    assert (Hfirst : ∀ request, request ∈ requests evs0 →
      request.1 = TopRepos.batchQuery query field lastValue).
    { intros rq Hrq. rewrite Hevs in Hrq. simpl in Hrq.
      apply elem_of_cons in Hrq as [->|Hrq]; [done|].
      clear -Hrq. induction pages as [|p pages IHp]; simpl in Hrq.
      - by apply elem_of_nil in Hrq.
      - apply elem_of_cons in Hrq as [->|Hrq]; [done|by apply IHp]. }
    destruct res0 as [repos|err|];
      [|injection Heq as <- _ _; exists lastValue; split; [by apply Hfirst|by left]..].
    destruct Hres as (final & -> & _ & Hrepos). simpl in Hrepos.
    assert (Hnodes : ∀ r, r ∈ repos ∨ r ∈ pageNodes rest0 →
      r ∈ pageNodes ((Ok <$> pages) ++ Ok final :: rest0)).
    { intros r Hr. rewrite Hrepos in Hr.
      rewrite (cons_middle (Ok final)), app_assoc, pageNodes_app.
      set_solver. }
    destruct repos as [|r0 repos];
      [injection Heq as <- _ _; exists lastValue; split; [by apply Hfirst|by left]|].
    destruct (last (r0 :: repos)) as [lastRepo|] eqn:Hlast;
      [|by apply last_None in Hlast].
    pose proof (TopRepos_rangeRepos_value field (r0 :: repos) uniq [] 0 lastRepo
                  Hfield Hlast) as Hvalue.
    destruct (TopRepos.rangeRepos field uniq [] 0 (r0 :: repos)) as [[uniq' lines0] value].
    simpl in Hvalue. subst value.
    destruct (_ =? lastValue);
      [injection Heq as <- _ _; exists lastValue; split; [by apply Hfirst|by left]|].
    destruct (TopRepos.batches fuel _ _ _ _ rest0) as [[evs1 lines1] exit1] eqn:Hrec.
    injection Heq as <- _ _. rewrite requests_app in Hin.
    apply elem_of_app in Hin as [Hin|Hin].
    + exists lastValue. split; [by apply Hfirst|by left].
    + destruct (IH _ _ _ _ _ _ Hrec request Hin) as (v & Hq & [->|(r & Hr & ->)]).
      * exists (TopRepos.fieldValue field lastRepo 0). split; [done|]. right.
        exists lastRepo. split; [|done]. apply Hnodes. left.
        apply last_Some in Hlast as [l' ->]. set_solver.
      * exists (TopRepos.fieldValue field r 0). split; [done|]. right.
        exists r. split; [|done]. apply Hnodes. by right.
Qed.

End Batches.

Lemma validField_eqb field :
  String.eqb field "stars" || String.eqb field "forks" || String.eqb field "size" = true
  ↔ validField field.
Proof.
  unfold validField. rewrite !orb_true_iff, !String.eqb_eq. tauto.
Qed.

(** X13.  [RepositorySearch] follows the cursor chain: the first request
    carries no cursor, each later one the [EndCursor] of the page before,
    and it goes on exactly while pages report a next page.  It returns all
    nodes of the pages it consumed, in order and with duplicates kept; it
    retries nothing: the first error of the client, whatever its text, is
    returned at once and the nodes collected so far are dropped. *)
Theorem repository_search_pages :
  ∀ (query : string) (script : list (Response TopRepos.Repository)) evs res rest,
    TopRepos.RepositorySearch query script = (evs, res, rest) →
    ∃ pages,
      Forall (λ p, HasNextPage p = true) pages
      ∧ evs = Query query None :: ((λ p, Query query (Some (EndCursor p))) <$> pages)
      ∧ match res with
        | Returned all =>
            ∃ final, script = (Ok <$> pages) ++ Ok final :: rest
              ∧ HasNextPage final = false
              ∧ all = pageNodes ((Ok <$> pages) ++ [Ok final])
        | Failed err => script = (Ok <$> pages) ++ Err err :: rest
        | Pending => script = Ok <$> pages ∧ rest = []
        end.
Proof.
  intros query script evs res rest Heq.
  exact (RepositorySearchFrom_pages script query None [] evs res rest Heq).
Qed.

Lemma repository_search_pages_witness :
  ∃ pages,
    Forall (λ p : Page TopRepos.Repository, HasNextPage p = true) pages
    ∧ [Query "sort:stars" None; Query "sort:stars" (Some "Y3Vyc29yOjEwMA==")]
      = Query "sort:stars" None
        :: ((λ p, Query "sort:stars" (Some (EndCursor p))) <$> pages)
    ∧ [Ok (mkPage [TopRepos.mkRepository "a/b" 9 1 1] true "Y3Vyc29yOjEwMA==");
       Err "You have exceeded a secondary rate limit.";
       Ok (mkPage [TopRepos.mkRepository "a/c" 8 1 1] false "")]
      = (Ok <$> pages)
        ++ Err "You have exceeded a secondary rate limit."
           :: [Ok (mkPage [TopRepos.mkRepository "a/c" 8 1 1] false "")].
Proof.
  refine (repository_search_pages "sort:stars"
    [Ok (mkPage [TopRepos.mkRepository "a/b" 9 1 1] true "Y3Vyc29yOjEwMA==");
     Err "You have exceeded a secondary rate limit.";
     Ok (mkPage [TopRepos.mkRepository "a/c" 8 1 1] false "")]
    _ (Failed "You have exceeded a secondary rate limit.") _ _).
  vm_compute. reflexivity.
Defined.

(** X14.  Over a whole run of [main] of [TopRepos], across all batches,
    every line printed is the display path and the requested metric of a
    repository some page returned, and no display path is printed twice.
    An unsupported field prints nothing. *)
Theorem toprepos_lines :
  ∀ (fuel : nat) (field query : string)
    (script : list (Response TopRepos.Repository)) evs lines exit,
    TopRepos.main fuel field query script = (evs, lines, exit) →
    ∃ printed,
      lines = printLine field <$> printed
      ∧ NoDup (TopRepos.NameWithOwner <$> printed)
      ∧ ∀ r, r ∈ printed → r ∈ pageNodes script.
Proof.
  intros fuel field query script evs lines exit Heq. unfold TopRepos.main in Heq.
  destruct (String.eqb field "stars" || String.eqb field "forks"
            || String.eqb field "size") eqn:Hf.
  - apply validField_eqb in Hf.
    destruct (batches_lines query field Hf _ _ _ _ _ _ _ Heq) as (printed & Hl & Hnd & Hin).
    exists printed. split; [done|]. split; [done|]. intros r Hr. by apply Hin.
  - injection Heq as _ <- _. exists []. split; [done|]. split; [constructor|set_solver].
Qed.

Lemma toprepos_lines_witness :
  ∃ printed,
    ["a/b,9" +:+ TopRepos.newline; "a/c,8" +:+ TopRepos.newline]
    = printLine "stars" <$> printed
    ∧ NoDup (TopRepos.NameWithOwner <$> printed)
    ∧ ∀ r, r ∈ printed →
        r ∈ pageNodes
              [Ok (Fixture.page [TopRepos.mkRepository "a/b" 9 1 1;
                                 TopRepos.mkRepository "a/c" 8 1 1] false);
               Ok (Fixture.page [TopRepos.mkRepository "a/c" 8 1 1] false)].
Proof.
  refine (toprepos_lines 5 "stars" ""
    [Ok (Fixture.page [TopRepos.mkRepository "a/b" 9 1 1;
                       TopRepos.mkRepository "a/c" 8 1 1] false);
     Ok (Fixture.page [TopRepos.mkRepository "a/c" 8 1 1] false)] _ _ _ _).
  vm_compute. reflexivity.
Defined.

(** X15.  The batch loop of [TopRepos] consumes at least one answer per
    batch: with more fuel than the script has answers, [main] never stops
    for lack of fuel, it completes, dies in [log.Fatal] or is left waiting
    for the client. *)
Theorem toprepos_fuel :
  ∀ (fuel : nat) (field query : string)
    (script : list (Response TopRepos.Repository)),
    (length script < fuel)%nat →
    (TopRepos.main fuel field query script).2 ≠ OutOfFuel.
Proof.
  intros fuel field query script Hfuel. unfold TopRepos.main.
  destruct (String.eqb field "stars" || _ || _); [|done].
  by apply batches_fuel.
Qed.

Lemma toprepos_fuel_witness :
  (TopRepos.main 3 "forks" "language:go "
     [Ok (Fixture.page [TopRepos.mkRepository "a/b" 9 4 1] false);
      Ok (Fixture.page [TopRepos.mkRepository "a/b" 9 4 1] false)]).2 ≠ OutOfFuel.
Proof.
  apply (toprepos_fuel 3 "forks" "language:go "
    [Ok (Fixture.page [TopRepos.mkRepository "a/b" 9 4 1] false);
     Ok (Fixture.page [TopRepos.mkRepository "a/b" 9 4 1] false)]).
  simpl. lia.
Defined.

(** X16.  [main] of [TopRepos] starts only with two or three arguments,
    and makes requests only for a supported field.  Every request is for
    the user's query (empty, or the third argument and a space) sorted by
    the field and bounded by the field: by [field:>0] or, after a batch,
    by [field:<=v] for the metric [v] of a repository some page returned
    (the bound is again [field:>0] when that metric is 0). *)
Theorem toprepos_requests :
  ∀ (args : list string) (fuel : nat) (script : list (Response TopRepos.Repository)),
    (TopRepos.start args fuel script = None
     ↔ length args ≠ 2%nat ∧ length args ≠ 3%nat)
    ∧ (∀ evs lines exit request,
         TopRepos.start args fuel script = Some (evs, lines, exit) →
         request ∈ requests evs →
         ∃ prog field query v,
           (args = [prog; field] ∧ query = ""
            ∨ ∃ q, args = [prog; field; q] ∧ query = q +:+ " ")
           ∧ validField field
           ∧ request.1 = TopRepos.batchQuery query field v
           ∧ (v = 0 ∨ ∃ r, r ∈ pageNodes script ∧ v = TopRepos.fieldValue field r 0))
    ∧ (∀ query field v,
         TopRepos.batchQuery query field v
         = (query +:+ "sort:" +:+ field) +:+ " " +:+ field
           +:+ (if v =? 0 then ":>0" else ":<=" +:+ fmt.pad_d 0 v)).
Proof.
  intros args fuel script. split; [|split].
  - unfold TopRepos.start.
    destruct args as [|prog [|field [|q [|x args]]]]; simpl; split;
      try done; intros [? ?]; lia.
  - intros evs lines exit request Hstart Hin.
    assert (Hmain : ∀ field query,
      TopRepos.main fuel field query script = (evs, lines, exit) →
      validField field
      ∧ ∃ v, request.1 = TopRepos.batchQuery query field v
          ∧ (v = 0 ∨ ∃ r, r ∈ pageNodes script ∧ v = TopRepos.fieldValue field r 0)).
    { intros field query Hm. unfold TopRepos.main in Hm.
      destruct (String.eqb field "stars" || String.eqb field "forks"
                || String.eqb field "size") eqn:Hf.
      - apply validField_eqb in Hf. split; [done|].
        exact (batches_requests query field Hf _ _ _ _ _ _ _ Hm request Hin).
      - injection Hm as <- _ _. by apply elem_of_nil in Hin. }
    unfold TopRepos.start in Hstart.
    destruct args as [|prog [|field [|q [|x args]]]]; try done;
      injection Hstart as Hstart; destruct (Hmain _ _ Hstart) as (Hf & v & Hq & Hv).
    + exists prog, field, "", v. split; [by left|done].
    + exists prog, field, (q +:+ " "), v. split; [right; by exists q|done].
  - intros query field v. unfold TopRepos.batchQuery.
    by destruct (v =? 0).
Qed.

Lemma toprepos_requests_witness :
  ∃ prog field query v,
    (["top"; "size"; "language:go"] = [prog; field] ∧ query = ""
     ∨ ∃ q, ["top"; "size"; "language:go"] = [prog; field; q] ∧ query = q +:+ " ")
    ∧ validField field
    ∧ ("language:go sort:size size:<=40", Some "next").1
      = TopRepos.batchQuery query field v
    ∧ (v = 0 ∨ ∃ r, r ∈ pageNodes
         [Ok (mkPage [TopRepos.mkRepository "a/b" 9 4 40] false "");
          Ok (mkPage [TopRepos.mkRepository "a/c" 9 4 30] true "next")]
         ∧ v = TopRepos.fieldValue field r 0).
Proof.
  refine (proj1 (proj2 (toprepos_requests ["top"; "size"; "language:go"] 5
    [Ok (mkPage [TopRepos.mkRepository "a/b" 9 4 40] false "");
     Ok (mkPage [TopRepos.mkRepository "a/c" 9 4 30] true "next")])) _ _ _
    ("language:go sort:size size:<=40", Some "next") _ _).
  - vm_compute. reflexivity.
  - do 2 apply list_elem_of_further. apply list_elem_of_here.
Defined.

(** ** The display path in a record *)

Lemma HasPrefix_empty s : strings.HasPrefix s "" = true.
Proof. done. Qed.

Lemma Cut_spec s :
  let '(before, after, found) := strings.Cut s "/" in
  found = strings.Contains s "/"
  ∧ if found
    then s = before +:+ "/" +:+ after ∧ strings.Contains before "/" = false
    else before = s ∧ after = "".
Proof.
  induction s as [|c s IH]; [done|].
  cbn [strings.Cut strings.Contains strings.HasPrefix].
  rewrite (Ascii.eqb_sym "/" c).
  destruct (Ascii.eqb c "/") eqn:Hc.
  - apply Ascii.eqb_eq in Hc as ->. done.
  - destruct (strings.Cut s "/") as [[before after] found].
    destruct IH as [-> IH]. split; [done|].
    destruct (strings.Contains s "/").
    + destruct IH as [-> Hno]. split; [done|].
      cbn [strings.Contains strings.HasPrefix].
      by rewrite (Ascii.eqb_sym "/" c), Hc.
    + by destruct IH as [-> ->].
Qed.

(** X17.  The first two fields of a record are the display path cut at
    its first ['/']: joined by ['/'] they give the display path back and
    the owner holds no ['/'] (a further ['/'] stays in the name); a display
    path without ['/'] is written whole as the owner, with an empty name.
    Eight more fields follow in either case. *)
Theorem csv_record_path :
  ∀ repo, ∃ owner name fields,
    csvRecord repo = owner :: name :: fields
    ∧ length fields = 8%nat
    ∧ if strings.Contains (NameWithOwner repo) "/"
      then NameWithOwner repo = owner +:+ "/" +:+ name
           ∧ strings.Contains owner "/" = false
      else owner = NameWithOwner repo ∧ name = "".
Proof.
  intros repo. unfold csvRecord.
  pose proof (Cut_spec (NameWithOwner repo)) as Hcut.
  destruct (strings.Cut (NameWithOwner repo) "/") as [[owner name] found].
  destruct Hcut as [<- Hcut]. by eexists owner, name, _.
Qed.

(** * The iterations and the programs, in full *)

(** ** Which answers the offset search reads *)

Section OffsetWalk.

Variable rateLimited : bool.
Variable transient : string -> bool.

(** Over answers that all carry on, within the page bound, the search
    goes on to the answers that follow, with everything seen so far. *)
Lemma SearchFrom_lead lead : ∀ query k uniq repos,
  forallb (carriesOn transient) lead = true →
  k + Z.of_nat (pageCount lead) ≤ 10 →
  ∃ evs0, ∀ tail,
    Offset.SearchFrom rateLimited transient query (Offset.step * k) uniq repos
      (lead ++ tail)
    = emit evs0
        (Offset.SearchFrom rateLimited transient query
           (Offset.step * (k + Z.of_nat (pageCount lead)))
           (list_to_set (DatabaseId <$> pageNodes lead) ∪ uniq)
           (repos ++ firstSeen DatabaseId uniq (pageNodes lead)) tail).
Proof.
  induction lead as [|[page|err] lead IH]; intros query k uniq repos Hall Hk.
  - exists []. intros tail. simpl. rewrite emit_nil, app_nil_r.
    replace (k + Z.of_nat 0) with k by lia. f_equal. set_solver.
  - simpl in Hall. apply andb_true_iff in Hall as [Hnext Hall].
    simpl pageCount in Hk.
    destruct (IH query (k + 1) (list_to_set (DatabaseId <$> Nodes page) ∪ uniq)
                (repos ++ firstSeen DatabaseId uniq (Nodes page)) Hall ltac:(lia))
      as [evs0 Hrun].
    exists (Offset.request rateLimited query (Offset.step * k) ++ evs0).
    intros tail. cbn [app Offset.SearchFrom].
    rewrite rangeNodes_firstSeen, Hnext. cbn [negb].
    destruct (Z.ltb_spec (Offset.step * k + Offset.step) Offset.ceiling) as [_|Hge];
      [|unfold Offset.step, Offset.ceiling in Hge; lia].
    replace (Offset.step * k + Offset.step) with (Offset.step * (k + 1))
      by (unfold Offset.step; lia).
    rewrite Hrun, emit_emit. cbn [pageNodes pageCount].
    rewrite firstSeen_app, <- app_assoc, fmap_app.
    replace (k + 1 + Z.of_nat (pageCount lead)) with (k + Z.of_nat (S (pageCount lead)))
      by lia.
    do 2 f_equal. set_solver.
  - simpl in Hall. apply andb_true_iff in Hall as [Herr Hall].
    destruct (IH query k uniq repos Hall Hk) as [evs0 Hrun].
    exists ((Offset.request rateLimited query (Offset.step * k)
             ++ [Sleep (10 * time.Second)]) ++ evs0).
    intros tail. cbn [app Offset.SearchFrom]. rewrite Herr, Hrun, emit_emit. done.
Qed.

(** The page that ends the walk: it reports no next page, or it is the
    eleventh. *)
Lemma SearchFrom_last query k uniq repos last rest :
  HasNextPage last = false ∨ k = 10 →
  Offset.SearchFrom rateLimited transient query (Offset.step * k) uniq repos
    (Ok last :: rest)
  = (Offset.request rateLimited query (Offset.step * k),
     Returned (repos ++ firstSeen DatabaseId uniq (Nodes last)), rest).
Proof.
  intros Hstop. cbn [Offset.SearchFrom]. rewrite rangeNodes_firstSeen.
  destruct (HasNextPage last); cbn [negb]; [|done].
  destruct Hstop as [?| ->]; [done|]. done.
Qed.

(** A search that returns has read answers that all carry on, and then
    the page that ends the walk. *)
Lemma SearchFrom_returned_shape script : ∀ query k uniq repos evs repos' rest,
  k ≤ 10 →
  Offset.SearchFrom rateLimited transient query (Offset.step * k) uniq repos script
    = (evs, Returned repos', rest) →
  ∃ lead last,
    script = lead ++ Ok last :: rest
    ∧ forallb (carriesOn transient) lead = true
    ∧ k + Z.of_nat (pageCount lead) ≤ 10
    ∧ (HasNextPage last = false ∨ k + Z.of_nat (pageCount lead) = 10).
Proof.
  induction script as [|[page|err] script IH];
    intros query k uniq repos evs repos' rest Hk Heq; cbn [Offset.SearchFrom] in Heq.
  - discriminate.
  - destruct (Offset.rangeNodes uniq repos (Nodes page)) as [uniq1 repos1].
    destruct (HasNextPage page) eqn:Hnext; cbn [negb] in Heq.
    + destruct (Z.ltb_spec (Offset.step * k + Offset.step) Offset.ceiling) as [Hlt|Hge].
      * unfold Offset.step, Offset.ceiling in Hlt.
        replace (Offset.step * k + Offset.step) with (Offset.step * (k + 1)) in Heq
          by (unfold Offset.step; lia).
        unfold emit in Heq.
        destruct (Offset.SearchFrom _ _ _ _ _ _ script) as [[evs2 res2] rest2] eqn:Hrec.
        injection Heq as _ -> ->.
        assert (Hk1 : k + 1 ≤ 10) by lia.
        destruct (IH _ _ _ _ _ _ _ Hk1 Hrec) as (lead & last & -> & Hall & Hle & Hstop).
        exists (Ok page :: lead), last. cbn [forallb carriesOn pageCount].
        rewrite Hnext, Hall. split; [done|]. split; [done|]. split; [lia|].
        destruct Hstop; [by left|right; lia].
      * unfold Offset.step, Offset.ceiling in Hge. injection Heq as _ _ <-.
        exists [], page. simpl. split; [done|]. split; [done|]. split; [lia|].
        right. lia.
    + injection Heq as _ _ <-. exists [], page. simpl.
      split; [done|]. split; [done|]. split; [lia|]. by left.
  - destruct (transient err) eqn:Herr; [|discriminate].
    unfold emit in Heq.
    destruct (Offset.SearchFrom _ _ _ _ _ _ script) as [[evs2 res2] rest2] eqn:Hrec.
    injection Heq as _ -> ->.
    destruct (IH _ _ _ _ _ _ _ Hk Hrec) as (lead & last & -> & Hall & Hle & Hstop).
    exists (Err err :: lead), last. cbn [forallb carriesOn pageCount].
    rewrite Herr, Hall. done.
Qed.

End OffsetWalk.

Lemma pageNodes_snoc {R} (lead : list (Response R)) (last : Page R) :
  pageNodes (lead ++ [Ok last]) = pageNodes lead ++ Nodes last.
Proof.
  induction lead as [|[page|err] lead IH]; simpl.
  - by rewrite app_nil_r.
  - by rewrite IH, app_assoc.
  - done.
Qed.

(** The offset search in full: on answers that carry on, at most ten
    pages among them, followed by a page that reports no next page or is
    the eleventh, it returns the first occurrences of the nodes of these
    pages and leaves the rest; and it returns in no other case. *)
Lemma Search_returns rateLimited transient query lead last rest :
  forallb (carriesOn transient) lead = true →
  (pageCount lead ≤ 10)%nat →
  HasNextPage last = false ∨ pageCount lead = 10%nat →
  ∃ evs,
    Offset.Search rateLimited transient query (lead ++ Ok last :: rest)
    = (evs, Returned (firstSeen DatabaseId ∅ (pageNodes (lead ++ [Ok last]))), rest).
Proof.
  intros Hall Hle Hstop. unfold Offset.Search.
  destruct (SearchFrom_lead rateLimited transient lead query 0 ∅ [] Hall ltac:(lia))
    as [evs0 Hrun].
  change 0 with (Offset.step * 0) at 1. rewrite Hrun.
  rewrite SearchFrom_last by (destruct Hstop; [by left|right; lia]).
  eexists. cbn [emit]. rewrite pageNodes_snoc, firstSeen_app. done.
Qed.

Lemma Search_returned rateLimited transient query script evs repos rest :
  Offset.Search rateLimited transient query script = (evs, Returned repos, rest) →
  ∃ lead last,
    script = lead ++ Ok last :: rest
    ∧ forallb (carriesOn transient) lead = true
    ∧ (pageCount lead ≤ 10)%nat
    ∧ (HasNextPage last = false ∨ pageCount lead = 10%nat)
    ∧ repos = firstSeen DatabaseId ∅ (pageNodes (lead ++ [Ok last])).
Proof.
  intros Heq. pose proof Heq as Hshape. unfold Offset.Search in Hshape.
  change 0 with (Offset.step * 0) in Hshape.
  apply SearchFrom_returned_shape in Hshape as (lead & last & -> & Hall & Hle & Hstop);
    [|lia].
  assert (Hle' : (pageCount lead ≤ 10)%nat) by lia.
  assert (Hstop' : HasNextPage last = false ∨ pageCount lead = 10%nat)
    by (destruct Hstop; [by left|right; lia]).
  exists lead, last. split; [done|]. split; [done|]. split; [done|]. split; [done|].
  destruct (Search_returns rateLimited transient query lead last rest Hall Hle' Hstop')
    as [evs' Hrun].
  rewrite Hrun in Heq. by injection Heq as _ <-.
Qed.

(** ** Which answers the watermark iteration reads, and what it yields *)

Lemma consumed_take {R} transient (script : list (Response R)) :
  take (length (consumed transient script)) script = consumed transient script.
Proof.
  induction script as [|answer script IH]; [done|]. simpl.
  destruct (carriesOn transient answer); simpl; [by rewrite IH|done].
Qed.

Lemma consumed_carries {R} transient (script : list (Response R)) :
  ∀ (i : nat) answer,
    consumed transient script !! i = Some answer →
    carriesOn transient answer = true →
    (S i < length (consumed transient script))%nat
    ∨ forallb (carriesOn transient) script = true.
Proof.
  induction script as [|a script IH]; intros i answer Hi Hc; [done|].
  simpl in Hi |- *. destruct (carriesOn transient a) eqn:Ha.
  - destruct i as [|i]; simpl in Hi.
    + destruct script as [|a' script]; [by right|]. left. simpl.
      destruct (carriesOn transient a'); simpl; lia.
    + destruct (IH i answer Hi Hc) as [Hlt|Hall]; [left; simpl; lia|by right].
  - destruct i as [|i]; simpl in Hi; [|done]. injection Hi as ->. congruence.
Qed.

Lemma requests_walk {R} (pushedAt : R -> githubv4.DateTime) query since since'
    (answer : Response R) script (n : nat) :
  (∀ answers, watermark pushedAt since (answer :: answers)
              = watermark pushedAt since' answers) →
  (λ i : nat, (Pushed.searchQuery query (watermark pushedAt since
                                           (take i (answer :: script))),
               @None string)) <$> seq 0 (S n)
  = (Pushed.searchQuery query since, None)
    :: ((λ i : nat, (Pushed.searchQuery query (watermark pushedAt since' (take i script)),
                     @None string)) <$> seq 0 n).
Proof.
  intros Hstep. cbn [seq fmap list_fmap]. f_equal.
  rewrite <- fmap_S_seq, <- list_fmap_compose. apply list_fmap_ext.
  intros i j _. unfold compose. cbn [take]. by rewrite Hstep.
Qed.

Section WatermarkWalk.

Context {R K : Type} `{Countable K}.
Variable key : R -> K.
Variable pushedAt : R -> githubv4.DateTime.
Variable zeroValue : R.
Variable yield : list (R * option string) -> bool.

Lemma accepts_app (l1 l2 : list R) : ∀ items,
  accepts yield items (l1 ++ l2)
  = accepts yield items l1 && accepts yield (items ++ yielded l1) l2.
Proof.
  induction l1 as [|r l1 IH]; intros items; simpl.
  - by rewrite app_nil_r.
  - rewrite IH, <- app_assoc, andb_assoc. done.
Qed.

Lemma rangeRepos_accepts repos : ∀ uniq items,
  accepts yield items (firstSeen key uniq repos) = true →
  Pushed.rangeRepos key yield uniq items repos
  = (list_to_set (key <$> repos) ∪ uniq,
     items ++ yielded (firstSeen key uniq repos), true).
Proof.
  induction repos as [|repo repos IH]; intros uniq items Hacc; simpl in *.
  - rewrite app_nil_r. do 2 f_equal. set_solver.
  - destruct (decide (key repo ∈ uniq)) as [Hseen|Hnew].
    + rewrite IH by done. do 2 f_equal. set_solver.
    + simpl in Hacc. apply andb_true_iff in Hacc as [Hy Hacc].
      rewrite Hy, IH by done. rewrite <- app_assoc. do 2 f_equal. set_solver.
Qed.

(** With a consumer that takes all it is offered, the iteration reads the
    answers up to the first that does not carry on, yields the first
    occurrences of their nodes and then the error, if it ended with one,
    and has issued one request per answer read, and one more when all of
    them carried on. *)
Lemma IterSearchFrom_accepts script : ∀ query since uniq items,
  accepts yield items
    (firstSeen key uniq (pageNodes (consumed secondaryRateLimit script))) = true →
  ∃ evs,
    Pushed.IterSearchFrom key pushedAt zeroValue yield query since uniq items script
    = (evs,
       items
       ++ yielded (firstSeen key uniq (pageNodes (consumed secondaryRateLimit script)))
       ++ match failure secondaryRateLimit script with
          | Some err => [(zeroValue, Some err)]
          | None => []
          end,
       if forallb (carriesOn secondaryRateLimit) script then Awaiting else Finished)
    ∧ requests evs
      = (λ i : nat,
           (Pushed.searchQuery query (watermark pushedAt since (take i script)),
            @None string))
        <$> seq 0 (length (consumed secondaryRateLimit script)
                   + if forallb (carriesOn secondaryRateLimit) script then 1 else 0).
Proof.
  induction script as [|[page|err] script IH]; intros query since uniq items Hacc.
  - eexists. split; [simpl; by rewrite app_nil_r|done].
  - cbn [consumed carriesOn] in Hacc |- *. cbn [Pushed.IterSearchFrom Pushed.Search].
    cbn [forallb carriesOn failure].
    destruct (HasNextPage page) eqn:Hnext; cbn [negb andb].
    + cbn [pageNodes] in Hacc |- *. rewrite firstSeen_app in Hacc |- *.
      rewrite accepts_app in Hacc. apply andb_true_iff in Hacc as [Hacc1 Hacc2].
      rewrite rangeRepos_accepts by done.
      destruct (IH query
                  (match last (Nodes page) with
                   | Some repo => Some (githubv4.Time (pushedAt repo))
                   | None => since
                   end)
                  (list_to_set (key <$> Nodes page) ∪ uniq)
                  (items ++ yielded (firstSeen key uniq (Nodes page))) Hacc2)
        as (evs & -> & Hreq).
      eexists. split.
      * unfold yielded. rewrite fmap_app, <- !app_assoc. reflexivity.
      * cbn [length Nat.add]. rewrite (requests_walk pushedAt query since
          (match last (Nodes page) with
           | Some repo => Some (githubv4.Time (pushedAt repo))
           | None => since
           end)) by done.
        cbn [Pushed.searchRequest app requests omap]. by rewrite <- Hreq.
    + cbn [pageNodes] in Hacc |- *. rewrite app_nil_r in Hacc |- *.
      rewrite rangeRepos_accepts by done.
      eexists. split; [by rewrite app_nil_r|done].
  - cbn [consumed carriesOn] in Hacc |- *. cbn [Pushed.IterSearchFrom Pushed.Search].
    cbn [forallb carriesOn failure].
    change (strings.Contains err "You have exceeded a secondary rate limit.")
      with (secondaryRateLimit err).
    destruct (secondaryRateLimit err) eqn:Herr; cbn [andb].
    + cbn [pageNodes] in Hacc |- *.
      destruct (IH query since uniq items Hacc) as (evs & -> & Hreq).
      eexists. split; [reflexivity|].
      cbn [length Nat.add]. rewrite (requests_walk pushedAt query since since) by done.
      cbn [Pushed.searchRequest app requests omap]. by rewrite <- Hreq.
    + eexists. split; [reflexivity|done].
Qed.

End WatermarkWalk.

(** ** Deduplication and the watermark walk, in full *)

Lemma watermark_app {R} (pushedAt : R -> githubv4.DateTime) (l1 l2 : list (Response R)) :
  ∀ since,
    watermark pushedAt since (l1 ++ l2)
    = watermark pushedAt (watermark pushedAt since l1) l2.
Proof.
  induction l1 as [|[page|err] l1 IH]; intros since; simpl; [done| |]; apply IH.
Qed.

Lemma consumed_lookup {R} transient (script : list (Response R)) (i : nat) answer :
  consumed transient script !! i = Some answer → script !! i = Some answer.
Proof.
  rewrite <- (consumed_take transient script) at 1.
  intros Hi. by apply lookup_take_Some in Hi as [? _].
Qed.

(** C1.  One exhaustive-search iteration never returns or yields two
    records with the same identifier: a node whose identifier is already
    in the seen-set is skipped, every other node is kept once.

    The offset-strategy [Search] (with or without the rate limiter,
    whatever errors are retried) returns on answers that all carry on (pages
    with a next page, retried errors; at most ten pages), followed by a
    page that reports no next page or is the eleventh; what it returns
    then are the nodes of these pages in page order, each identifier at its
    first occurrence, and the later answers are left.  It returns in no
    other case.

    The watermark [IterSearch] yields, whatever the consumer does,
    repositories with pairwise distinct identifiers, in the order of the
    first occurrences of the nodes of the answers; with a consumer that
    takes all it is offered, it yields exactly the first occurrences of
    the nodes of the answers it reads (those up to the first that is
    neither a page with a next page nor a retried error).

    The first occurrences of a list of nodes hold every identifier of the
    list once, and only these: for each node there is exactly one among
    them with its identifier. *)
Theorem unique_identifiers :
  ∀ (rateLimited : bool) (transient : string -> bool) (query : string),
    (∀ lead last rest,
       forallb (carriesOn transient) lead = true →
       (pageCount lead ≤ 10)%nat →
       HasNextPage last = false ∨ pageCount lead = 10%nat →
       ∃ evs,
         Offset.Search rateLimited transient query (lead ++ Ok last :: rest)
         = (evs, Returned (firstSeen DatabaseId ∅ (pageNodes (lead ++ [Ok last]))),
            rest))
    ∧ (∀ script evs repos rest,
         Offset.Search rateLimited transient query script = (evs, Returned repos, rest) →
         ∃ lead last,
           script = lead ++ Ok last :: rest
           ∧ forallb (carriesOn transient) lead = true
           ∧ (pageCount lead ≤ 10)%nat
           ∧ (HasNextPage last = false ∨ pageCount lead = 10%nat)
           ∧ repos = firstSeen DatabaseId ∅ (pageNodes (lead ++ [Ok last]))
           ∧ NoDup (DatabaseId <$> repos))
    ∧ (∀ (yield : list (Repository * option string) -> bool) script,
         NoDup (DatabaseId
                  <$> Pushed.entities (Watermark.IterSearch yield query script).1.2)
         ∧ Pushed.entities (Watermark.IterSearch yield query script).1.2
             `prefix_of` firstSeen DatabaseId ∅ (pageNodes script)
         ∧ (accepts yield []
              (firstSeen DatabaseId ∅ (pageNodes (consumed secondaryRateLimit script)))
            = true →
            Pushed.entities (Watermark.IterSearch yield query script).1.2
            = firstSeen DatabaseId ∅ (pageNodes (consumed secondaryRateLimit script))))
    ∧ (∀ nodes : list Repository,
         NoDup (DatabaseId <$> firstSeen DatabaseId ∅ nodes)
         ∧ (∀ id, id ∈ DatabaseId <$> firstSeen DatabaseId ∅ nodes
                  ↔ id ∈ DatabaseId <$> nodes)
         ∧ (∀ r, r ∈ firstSeen DatabaseId ∅ nodes → r ∈ nodes)
         ∧ (∀ r, r ∈ nodes →
              length (filter (λ e, DatabaseId e = DatabaseId r)
                        (firstSeen DatabaseId ∅ nodes)) = 1%nat)).
Proof.
  intros rateLimited transient query.
  split; [intros lead last rest; apply Search_returns|]. split.
  { intros script evs repos rest Heq.
    destruct (Search_returned _ _ _ _ _ _ _ Heq)
      as (lead & last & Hscript & Hall & Hle & Hstop & ->).
    exists lead, last. repeat (split; [done|]). apply firstSeen_spec. }
  split.
  - intros yield script. unfold Watermark.IterSearch, Pushed.IterSearch.
    destruct (Pushed.IterSearchFrom DatabaseId PushedAt Watermark.zeroRepository yield
                query None ∅ [] script) as [[evs items] status] eqn:Hrun.
    destruct (IterSearchFrom_shape _ _ _ _ _ _ _ _ _ _ _ _ Hrun)
      as (new & tail & err & -> & Hpre & Htail & _).
    assert (Hent : Pushed.entities (([] ++ yielded new ++ tail), status).1 = new).
    { simpl. rewrite entities_app, entities_yielded.
      destruct err as [e|]; simpl in Htail; subst tail; simpl; by rewrite app_nil_r. }
    simpl in Hent |- *. rewrite Hent. split; [|split; [done|]].
    + eapply prefix_NoDup_fmap; [exact Hpre|]. apply firstSeen_spec.
    + intros Hacc.
      destruct (IterSearchFrom_accepts DatabaseId PushedAt Watermark.zeroRepository
                  yield script query None ∅ [] Hacc) as (evs' & Hrun' & _).
      rewrite Hrun in Hrun'. injection Hrun' as _ Hitems _. simpl in Hitems.
      rewrite <- Hent, Hitems, entities_app, entities_yielded.
      destruct (failure secondaryRateLimit script); simpl; by rewrite app_nil_r.
  - intros nodes.
    destruct (firstSeen_spec DatabaseId nodes ∅) as (Hnd & Hin & Hsub).
    split; [done|]. split; [intros id; rewrite Hin; set_solver|]. split; [done|].
    intros r Hr. apply filter_key_once; [done|]. apply Hin.
    split; [by apply list_elem_of_fmap_2|set_solver].
Qed.

Lemma unique_identifiers_witness :
  ∃ evs,
    Offset.Search true Hourly.transient "q"
      ([Err "504 Gateway Timeout";
        Ok (Fixture.page [Fixture.hello; Fixture.spoon] true)]
       ++ Ok (Fixture.page [Fixture.spoon; Fixture.knife; Fixture.hello] false)
       :: [Ok (Fixture.page [Fixture.hello] false)])
    = (evs, Returned [Fixture.hello; Fixture.spoon; Fixture.knife],
       [Ok (Fixture.page [Fixture.hello] false)]).
Proof.
  refine (proj1 (unique_identifiers true Hourly.transient "q")
    [Err "504 Gateway Timeout"; Ok (Fixture.page [Fixture.hello; Fixture.spoon] true)]
    (Fixture.page [Fixture.spoon; Fixture.knife; Fixture.hello] false)
    [Ok (Fixture.page [Fixture.hello] false)] _ _ _).
  - reflexivity.
  - simpl. lia.
  - left. reflexivity.
Defined.

(** C3.  The watermark [Search] appends [ sort:updated-asc] to the query
    and, when a watermark is set, [ pushed:>=] with the watermark; no
    request carries a [$cursor].  [IterSearch] (of [Watermark] and of
    [Legacy]: any record type and key) issues its first request with no
    timestamp filter; the request that follows [i] answers filters on the
    push timestamp of the last entity of the latest non-empty page among
    them, and carries no filter while there was none.  The iteration ends
    with the page that reports no next page: no request follows it.

    With a consumer that takes all it is offered the requests are known in
    full: one per answer read (the answers up to the first that is neither
    a page with a next page nor a retried error), and one more when all
    answers were read, on which the iteration is then waiting.  So after
    every page that reports a next page the next request is issued, and
    when the page is not empty it filters on the push timestamp of the
    last entity of that page. *)
Theorem watermark_requests :
  ∀ {R K : Type} `{Countable K} (key : R -> K) (pushedAt : R -> githubv4.DateTime)
    (zeroValue : R) (yield : list (R * option string) -> bool)
    (query : string) (script : list (Response R)) evs items status,
    Pushed.IterSearch key pushedAt zeroValue yield query script = (evs, items, status) →
    Pushed.searchQuery query None = query +:+ " sort:updated-asc"
    ∧ (∀ since, Pushed.searchQuery query (Some since)
         = (query +:+ " sort:updated-asc") +:+ " pushed:>=" +:+ time.FormatStampZ since)
    ∧ requests evs !! 0%nat = Some (query +:+ " sort:updated-asc", None)
    ∧ (∀ (i : nat) request, requests evs !! i = Some request →
         request
         = (Pushed.searchQuery query (watermark pushedAt None (take i script)), None))
    ∧ (∀ (i : nat) page, script !! i = Some (Ok page) → HasNextPage page = false →
         (i < length (requests evs))%nat →
         status = Finished ∧ length (requests evs) = S i)
    ∧ (accepts yield []
         (firstSeen key ∅ (pageNodes (consumed secondaryRateLimit script))) = true →
       requests evs
       = (λ i : nat,
            (Pushed.searchQuery query (watermark pushedAt None (take i script)),
             @None string))
         <$> seq 0 (length (consumed secondaryRateLimit script)
                    + if forallb (carriesOn secondaryRateLimit) script then 1 else 0)
       ∧ status = (if forallb (carriesOn secondaryRateLimit) script
                   then Awaiting else Finished)
       ∧ (∀ (i : nat) page,
            consumed secondaryRateLimit script !! i = Some (Ok page) →
            HasNextPage page = true →
            requests evs !! S i
            = Some (Pushed.searchQuery query
                      (watermark pushedAt None (take (S i) script)), None)
            ∧ ∀ repo, last (Nodes page) = Some repo →
                watermark pushedAt None (take (S i) script)
                = Some (githubv4.Time (pushedAt repo)))).
Proof.
  intros R K ? ? key pushedAt zeroValue yield query script evs items status Heq.
  split; [done|]. split; [done|]. split; [|split; [|split]].
  - destruct (IterSearchFrom_first _ _ _ _ _ _ _ _ _ _ _ _ Heq) as [evs' ->]. done.
  - by eapply IterSearchFrom_requests.
  - by eapply IterSearchFrom_last_page.
  - intros Hacc.
    destruct (IterSearchFrom_accepts key pushedAt zeroValue yield script query None ∅ []
                Hacc) as (evs' & Hrun & Hreq).
    unfold Pushed.IterSearch in Heq. rewrite Heq in Hrun.
    injection Hrun as <- _ ->. split; [done|]. split; [done|].
    intros i page Hi Hnext.
    pose proof (lookup_lt_Some _ _ _ Hi) as Hlt.
    pose proof (consumed_lookup _ _ _ _ Hi) as Hscript.
    split.
    + rewrite Hreq, list_lookup_fmap, lookup_seq_lt; [done|].
      destruct (consumed_carries secondaryRateLimit script i (Ok page) Hi Hnext)
        as [Hmore| ->]; lia.
    + intros repo Hlast. rewrite (take_S_r _ _ _ Hscript), watermark_app. simpl.
      by rewrite Hlast.
Qed.

Lemma watermark_requests_witness :
  requests
    [Query "q sort:updated-asc" None;
     Query "q sort:updated-asc pushed:>=2025-06-02T07:40:01Z" None;
     Query "q sort:updated-asc pushed:>=2025-06-02T07:40:01Z" None]
  !! 1%nat
  = Some (Pushed.searchQuery "q"
            (watermark PushedAt None
               (take 1 [Ok (Fixture.page [Fixture.hello; Fixture.spoon] true);
                        Ok (Fixture.page [Fixture.spoon] true)])), None).
Proof.
  pose proof (watermark_requests DatabaseId PushedAt Watermark.zeroRepository
    Pushed.consumeAll "q"
    [Ok (Fixture.page [Fixture.hello; Fixture.spoon] true);
     Ok (Fixture.page [Fixture.spoon] true)]
    [Query "q sort:updated-asc" None;
     Query "q sort:updated-asc pushed:>=2025-06-02T07:40:01Z" None;
     Query "q sort:updated-asc pushed:>=2025-06-02T07:40:01Z" None]
    [(Fixture.hello, None); (Fixture.spoon, None)] Awaiting) as Hw.
  assert (Hrun : Pushed.IterSearch DatabaseId PushedAt Watermark.zeroRepository
    Pushed.consumeAll "q"
    [Ok (Fixture.page [Fixture.hello; Fixture.spoon] true);
     Ok (Fixture.page [Fixture.spoon] true)]
    = ([Query "q sort:updated-asc" None;
        Query "q sort:updated-asc pushed:>=2025-06-02T07:40:01Z" None;
        Query "q sort:updated-asc pushed:>=2025-06-02T07:40:01Z" None],
       [(Fixture.hello, None); (Fixture.spoon, None)], Awaiting))
    by (vm_compute; reflexivity).
  destruct (Hw Hrun) as (_ & _ & _ & _ & _ & Hfull).
  destruct (Hfull eq_refl) as (_ & _ & Hnext).
  exact (proj1 (Hnext 0%nat (Fixture.page [Fixture.hello; Fixture.spoon] true)
                 eq_refl eq_refl)).
Defined.

(** ** The range loop of [main] over the iteration *)

Section IterationMain.

Context {R K : Type} `{Countable K}.
Variable key : R -> K.
Variable pushedAt : R -> githubv4.DateTime.
Variable zeroValue : R.
Variable record : R -> list string.
Variable writer : Process.Writer.

Lemma body_snoc (pre : list R) (repo : R) :
  Process.body record writer (yielded pre ++ [(repo, None)])
  = match Process.Write writer ((record <$> pre) ++ [record repo]) with
    | None => true
    | Some _ => false
    end.
Proof.
  unfold Process.body. rewrite entities_app, entities_yielded.
  by rewrite fmap_app.
Qed.

Lemma Process_rangeRepos_app (l1 l2 : list R) : ∀ accepted,
  Process.rangeRepos record writer accepted (l1 ++ l2)
  = match Process.rangeRepos record writer accepted l1 with
    | (accepted', Some err) => (accepted', Some err)
    | (accepted', None) => Process.rangeRepos record writer accepted' l2
    end.
Proof.
  induction l1 as [|r l1 IH]; intros accepted; [done|]. simpl.
  destruct (Process.Write writer (accepted ++ [record r])); [done|]. apply IH.
Qed.

(** The range loop of [main] over pairs with a nil error is the loop
    that hands the records of the repositories to the writer. *)
Lemma rangeItems_yielded (new : list R) : ∀ accepted tail status,
  Process.rangeItems record writer accepted (yielded new ++ tail) status
  = match Process.rangeRepos record writer accepted new with
    | (accepted', Some err) => (accepted', Process.Fatalf (Process.WriteFailed err))
    | (accepted', None) => Process.rangeItems record writer accepted' tail status
    end.
Proof.
  induction new as [|r new IH]; intros accepted tail status; [done|]. simpl.
  destruct (Process.Write writer (accepted ++ [record r])); [done|]. apply IH.
Qed.

Lemma rangeRepos_body repos : ∀ uniq pre,
  match Process.rangeRepos record writer (record <$> pre) (firstSeen key uniq repos) with
  | (accepted, None) =>
      Pushed.rangeRepos key (Process.body record writer) uniq (yielded pre) repos
      = (list_to_set (key <$> repos) ∪ uniq,
         yielded (pre ++ firstSeen key uniq repos), true)
      ∧ accepted = record <$> (pre ++ firstSeen key uniq repos)
  | (accepted, Some err) =>
      ∃ uniq' new,
        Pushed.rangeRepos key (Process.body record writer) uniq (yielded pre) repos
        = (uniq', yielded (pre ++ new), false)
        ∧ Process.rangeRepos record writer (record <$> pre) new = (accepted, Some err)
  end.
Proof.
  induction repos as [|repo repos IH]; intros uniq pre.
  - simpl. rewrite app_nil_r. split; [|done]. do 2 f_equal. set_solver.
  - cbn [firstSeen Pushed.rangeRepos].
    destruct (decide (key repo ∈ uniq)) as [Hseen|Hnew].
    + specialize (IH uniq pre).
      destruct (Process.rangeRepos record writer (record <$> pre)
                  (firstSeen key uniq repos)) as [accepted [err|]]; [done|].
      destruct IH as [-> ->]. split; [|done]. do 2 f_equal. set_solver.
    + cbn [Process.rangeRepos]. rewrite body_snoc.
      destruct (Process.Write writer ((record <$> pre) ++ [record repo])) as [err|] eqn:Hw.
      * exists ({[key repo]} ∪ uniq), [repo]. split.
        -- unfold yielded. by rewrite fmap_app.
        -- simpl. by rewrite Hw.
      * specialize (IH ({[key repo]} ∪ uniq) (pre ++ [repo])).
        rewrite fmap_app in IH. cbn [fmap list_fmap] in IH.
        destruct (Process.rangeRepos record writer ((record <$> pre) ++ [record repo])
                    (firstSeen key ({[key repo]} ∪ uniq) repos)) as [accepted [err|]].
        -- destruct IH as (uniq' & new & Hrun & Hnew').
           exists uniq', (repo :: new). split.
           ++ replace (yielded pre ++ [(repo, None)]) with (yielded (pre ++ [repo]))
                by (unfold yielded; by rewrite fmap_app).
              rewrite Hrun. by rewrite <- app_assoc.
           ++ simpl. by rewrite Hw.
        -- destruct IH as [Hrun ->].
           replace (yielded pre ++ [(repo, None)]) with (yielded (pre ++ [repo]))
             by (unfold yielded; by rewrite fmap_app).
           rewrite Hrun, <- app_assoc. split; [|reflexivity].
           do 2 f_equal. set_solver.
Qed.

(** [main] over the iteration, with the writer in the body of its range
    loop: the records accepted are those the writer accepts of the first
    occurrences of the nodes of the answers read, handed over in order;
    the run dies with the first record refused, else ends as the
    iteration does. *)
Lemma IterSearchFrom_body script : ∀ query since uniq pre,
  ∃ evs new status,
    Pushed.IterSearchFrom key pushedAt zeroValue (Process.body record writer)
      query since uniq (yielded pre) script
    = (evs, yielded pre ++ new, status)
    ∧ Process.rangeItems record writer (record <$> pre) new status
      = match Process.rangeRepos record writer (record <$> pre)
                (firstSeen key uniq (pageNodes (consumed secondaryRateLimit script))) with
        | (accepted, Some err) => (accepted, Process.Fatalf (Process.WriteFailed err))
        | (accepted, None) =>
            (accepted,
             match failure secondaryRateLimit script with
             | Some err => Process.Fatalf (Process.SearchFailed err)
             | None =>
                 if forallb (carriesOn secondaryRateLimit) script
                 then Process.Waiting else Process.Completed
             end)
        end.
Proof.
  induction script as [|[page|err] script IH]; intros query since uniq pre.
  - eexists _, [], _. split; [simpl; by rewrite app_nil_r|done].
  - cbn [consumed carriesOn Pushed.IterSearchFrom Pushed.Search forallb failure].
    pose proof (rangeRepos_body (Nodes page) uniq pre) as Hpage.
    destruct (HasNextPage page) eqn:Hnext; cbn [negb andb pageNodes].
    + rewrite firstSeen_app, Process_rangeRepos_app.
      destruct (Process.rangeRepos record writer (record <$> pre)
                  (firstSeen key uniq (Nodes page))) as [accepted [err|]] eqn:Hw.
      * destruct Hpage as (uniq' & new & -> & Hnew).
        eexists _, (yielded new), _. split.
        -- unfold yielded. by rewrite fmap_app.
        -- rewrite <- (app_nil_r (yielded new)), rangeItems_yielded. by rewrite Hnew.
      * destruct Hpage as [-> Hacc].
        destruct (IH query
                    (match last (Nodes page) with
                     | Some repo => Some (githubv4.Time (pushedAt repo))
                     | None => since
                     end)
                    (list_to_set (key <$> Nodes page) ∪ uniq)
                    (pre ++ firstSeen key uniq (Nodes page)))
          as (evs & new & status & Hrun & Hitems).
        rewrite Hrun.
        eexists _, (yielded (firstSeen key uniq (Nodes page)) ++ new), _. split.
        -- unfold yielded. by rewrite fmap_app, <- app_assoc.
        -- rewrite rangeItems_yielded, Hw, Hacc. exact Hitems.
    + rewrite app_nil_r.
      destruct (Process.rangeRepos record writer (record <$> pre)
                  (firstSeen key uniq (Nodes page))) as [accepted [err|]] eqn:Hw.
      * destruct Hpage as (uniq' & new & -> & Hnew).
        eexists _, (yielded new), _. split.
        -- unfold yielded. by rewrite fmap_app.
        -- rewrite <- (app_nil_r (yielded new)), rangeItems_yielded. by rewrite Hnew.
      * destruct Hpage as [-> ->].
        eexists _, (yielded (firstSeen key uniq (Nodes page))), _. split.
        -- unfold yielded. by rewrite fmap_app.
        -- rewrite <- (app_nil_r (yielded _)), rangeItems_yielded. by rewrite Hw.
  - cbn [consumed carriesOn Pushed.IterSearchFrom Pushed.Search forallb failure].
    change (strings.Contains err "You have exceeded a secondary rate limit.")
      with (secondaryRateLimit err).
    destruct (secondaryRateLimit err) eqn:Herr; cbn [andb pageNodes].
    + destruct (IH query since uniq pre) as (evs & new & status & -> & Hitems).
      by eexists _, new, _.
    + by eexists _, [(zeroValue, Some err)], _.
Qed.

End IterationMain.

(** ** The date-partitioned programs with their writer *)

Lemma handedOver_snoc writer accepted row :
  handedOver writer accepted →
  Process.Write writer (accepted ++ [row]) = None →
  handedOver writer (accepted ++ [row]).
Proof.
  intros Hacc Hrow n Hn. rewrite length_app in Hn. simpl in Hn.
  destruct (decide (n < length accepted)%nat) as [Hlt|Hge].
  - rewrite take_app_le by lia. by apply Hacc.
  - rewrite take_ge by (rewrite length_app; simpl; lia). done.
Qed.

Lemma Process_rangeRepos_spec writer repos : ∀ accepted accepted' werr,
  Process.rangeRepos csvRecord writer accepted repos = (accepted', werr) →
  ∃ new, accepted' = accepted ++ new
    ∧ Forall isRecord new
    ∧ (handedOver writer accepted → handedOver writer accepted')
    ∧ ∀ err, werr = Some err →
        ∃ repo, Process.Write writer (accepted' ++ [csvRecord repo]) = Some err.
Proof.
  induction repos as [|repo repos IH]; intros accepted accepted' werr Heq; simpl in Heq.
  - injection Heq as <- <-. exists []. rewrite app_nil_r. by repeat split.
  - destruct (Process.Write writer (accepted ++ [csvRecord repo])) as [err|] eqn:Hw.
    + injection Heq as <- <-. exists []. rewrite app_nil_r.
      split; [done|]. split; [done|]. split; [done|].
      intros err' [= <-]. by exists repo.
    + destruct (IH _ _ _ Heq) as (new & -> & Hrec & Hacc & Herr).
      exists (csvRecord repo :: new). split; [by rewrite <- app_assoc|].
      split; [constructor; [by exists repo|done]|]. split; [|done].
      intros Hpre. apply Hacc. by apply handedOver_snoc.
Qed.

Section Sound.

Variable rateLimited : bool.
Variable transient : string -> bool.
Variable writer : Process.Writer.

Lemma sound_stop script accepted exit :
  exit = Process.Completed ∨ exit = Process.OutOfFuel →
  sound transient writer script accepted ([], accepted, exit, script).
Proof.
  intros Hexit. exists [], []. rewrite app_nil_r.
  split; [done|]. split; [done|]. split; [done|]. split; [done|].
  by destruct Hexit as [-> | ->].
Qed.

(** One search of a loop, and what the loop does with its result. *)
Lemma sound_search query script accepted evs res rest :
  Offset.Search rateLimited transient query script = (evs, res, rest) →
  match res with
  | Returned repos =>
      match Process.rangeRepos csvRecord writer accepted repos with
      | (accepted', Some err) =>
          sound transient writer script accepted
            (evs, accepted', Process.Fatalf (Process.WriteFailed err), rest)
      | (accepted', None) =>
          ∀ out, sound transient writer rest accepted' out →
                 sound transient writer script accepted (Process.after evs out)
      end
  | Failed err =>
      sound transient writer script accepted
        (evs, accepted, Process.Fatalf (Process.SearchFailed err), rest)
  | Pending =>
      sound transient writer script accepted (evs, accepted, Process.Waiting, rest)
  end.
Proof.
  intros Heq.
  destruct (SearchFrom_consumed _ _ _ _ _ _ _ _ _ _ Heq) as (used & -> & Hlen & _ & Hres).
  destruct res as [repos|err|].
  - destruct Hres as [_ Hall].
    destruct (Process.rangeRepos csvRecord writer accepted repos)
      as [accepted' werr] eqn:Hw.
    destruct (Process_rangeRepos_spec _ _ _ _ _ Hw) as (new & -> & Hrec & Hacc & Herr).
    destruct werr as [err|].
    + exists used, new. split; [done|]. split; [done|]. split; [done|].
      split; [done|]. split; [by rewrite Hlen|]. split; [done|]. by apply Herr.
    + intros [[[evs1 accepted1] exit1] rest1]
        (used1 & new1 & -> & -> & Hrec1 & Hacc1 & Hlen1 & Hexit1).
      exists (used ++ used1), (new ++ new1). rewrite <- !app_assoc.
      split; [done|]. split; [done|]. split; [by apply Forall_app|].
      split; [rewrite (app_assoc accepted); auto|]. split.
      * rewrite requests_app, !length_app, Hlen, Hlen1. lia.
      * rewrite (app_assoc accepted).
        destruct exit1 as [|[| | err| err| ]| |]; try done;
          try (apply Forall_app; by split).
        -- destruct Hexit1 as (used' & -> & Hf & Hall').
           exists (used ++ used'). rewrite <- app_assoc. split; [done|].
           split; [done|]. by apply Forall_app.
        -- destruct Hexit1 as [Hall' Hrepo]. split; [by apply Forall_app|done].
        -- destruct Hexit1 as [-> Hall']. split; [done|]. by apply Forall_app.
  - destruct Hres as (used' & -> & Hf & Hall).
    exists (used' ++ [Err err]), []. rewrite app_nil_r.
    split; [done|]. split; [done|]. split; [done|]. split; [done|].
    split; [by rewrite Hlen|]. by exists used'.
  - destruct Hres as [-> Hall]. exists used, []. rewrite !app_nil_r.
    split; [done|]. split; [done|]. split; [done|]. split; [done|].
    split; [by rewrite Hlen|]. done.
Qed.

(** Answers that arrive later change nothing for a search that returned
    or failed; a search that is waiting fails with the error that
    arrives, when it is not retried. *)
Lemma SearchFrom_more script : ∀ query offset uniq repos evs res rest,
  Offset.SearchFrom rateLimited transient query offset uniq repos script
    = (evs, res, rest) →
  match res with
  | Pending =>
      ∀ err tail, transient err = false →
        Offset.SearchFrom rateLimited transient query offset uniq repos
          (script ++ Err err :: tail)
        = (evs, Failed err, tail)
  | _ =>
      ∀ tail,
        Offset.SearchFrom rateLimited transient query offset uniq repos (script ++ tail)
        = (evs, res, rest ++ tail)
  end.
Proof.
  induction script as [|[page|err] script IH];
    intros query offset uniq repos evs res rest Heq; cbn [Offset.SearchFrom] in Heq.
  - injection Heq as <- <- <-. intros err tail Herr. simpl. by rewrite Herr.
  - destruct (Offset.rangeNodes uniq repos (Nodes page)) as [uniq1 repos1] eqn:Hnodes.
    assert (Hstop :
      (Offset.request rateLimited query offset, Returned repos1, script)
        = (evs, res, rest) →
      negb (HasNextPage page) = true
      ∨ (offset + Offset.step <? Offset.ceiling) = false →
      ∀ tail,
        Offset.SearchFrom rateLimited transient query offset uniq repos
          ((Ok page :: script) ++ tail)
        = (evs, Returned repos1, rest ++ tail)).
    { intros [= <- _ <-] Hcond tail. cbn [app Offset.SearchFrom].
      rewrite Hnodes. destruct (negb (HasNextPage page)); [done|].
      destruct Hcond as [?| ->]; done. }
    destruct (negb (HasNextPage page)) eqn:Hnext.
    { pose proof (Hstop Heq (or_introl eq_refl)) as Hext.
      injection Heq as _ <- _. exact Hext. }
    destruct (offset + Offset.step <? Offset.ceiling) eqn:Hlt.
    2:{ pose proof (Hstop Heq (or_intror eq_refl)) as Hext.
        injection Heq as _ <- _. exact Hext. }
    unfold emit in Heq.
    destruct (Offset.SearchFrom _ _ _ _ _ _ script) as [[evs2 res2] rest2] eqn:Hrec.
    injection Heq as <- <- <-. specialize (IH _ _ _ _ _ _ _ Hrec).
    destruct res2 as [repos2|err2|].
    + intros tail. cbn [app Offset.SearchFrom]. rewrite Hnodes, Hnext, Hlt, IH. done.
    + intros tail. cbn [app Offset.SearchFrom]. rewrite Hnodes, Hnext, Hlt, IH. done.
    + intros err tail Herr. cbn [app Offset.SearchFrom].
      rewrite Hnodes, Hnext, Hlt, IH by done. done.
  - destruct (transient err) eqn:Herr.
    + unfold emit in Heq.
      destruct (Offset.SearchFrom _ _ _ _ _ _ script) as [[evs2 res2] rest2] eqn:Hrec.
      injection Heq as <- <- <-. specialize (IH _ _ _ _ _ _ _ Hrec).
      destruct res2 as [repos2|err2|].
      * intros tail. cbn [app Offset.SearchFrom]. rewrite Herr, IH. done.
      * intros tail. cbn [app Offset.SearchFrom]. rewrite Herr, IH. done.
      * intros err' tail Herr'. cbn [app Offset.SearchFrom].
        rewrite Herr, IH by done. done.
    + injection Heq as <- <- <-. intros tail. cbn [app Offset.SearchFrom].
      by rewrite Herr.
Qed.

End Sound.

Lemma Process_Hourly_rangeHours_sound writer query day hours : ∀ accepted script,
  sound Hourly.transient writer script accepted
    (Process.Hourly.rangeHours writer query day hours accepted script).
Proof.
  induction hours as [|hour hours IH]; intros accepted script;
    cbn [Process.Hourly.rangeHours]; [apply sound_stop; by left|].
  unfold Hourly.Search.
  destruct (Offset.Search true Hourly.transient (Hourly.hourQuery query day hour) script)
    as [[evs res] rest] eqn:Hs.
  pose proof (sound_search _ _ writer _ _ accepted _ _ _ Hs) as Hstep.
  destruct res as [repos|err|]; [|done|done].
  destruct (Process.rangeRepos csvRecord writer accepted repos) as [accepted' [err|]];
    [done|]. apply Hstep, IH.
Qed.

Lemma Process_Hourly_rangeDays_sound writer fuel : ∀ query day endTime accepted script,
  sound Hourly.transient writer script accepted
    (Process.Hourly.rangeDays writer fuel query day endTime accepted script).
Proof.
  induction fuel as [|fuel IH]; intros query day endTime accepted script;
    cbn [Process.Hourly.rangeDays]; [apply sound_stop; by right|].
  destruct (time.After day endTime); [apply sound_stop; by left|].
  pose proof (Process_Hourly_rangeHours_sound writer query day (seqZ 0 24) accepted script)
    as Hday.
  destruct (Process.Hourly.rangeHours writer query day (seqZ 0 24) accepted script)
    as [[[evs accepted1] exit1] rest1].
  destruct exit1; try exact Hday.
  specialize (IH query (time.AddDate_days day 1) endTime accepted1 rest1).
  destruct (Process.Hourly.rangeDays writer fuel query _ endTime accepted1 rest1)
    as [[[evs2 accepted2] exit2] rest2].
  destruct Hday as (used1 & new1 & -> & -> & Hrec1 & Hacc1 & Hlen1 & Hall1).
  destruct IH as (used2 & new2 & -> & -> & Hrec2 & Hacc2 & Hlen2 & Hexit2).
  exists (used1 ++ used2), (new1 ++ new2). rewrite <- !app_assoc.
  split; [done|]. split; [done|]. split; [by apply Forall_app|].
  split; [rewrite (app_assoc accepted); auto|]. split.
  - rewrite requests_app, !length_app, Hlen1, Hlen2. lia.
  - rewrite (app_assoc accepted).
    destruct exit2 as [|[| | err| err| ]| |]; try done;
      try (apply Forall_app; by split).
    + destruct Hexit2 as (used' & -> & Hf & Hall').
      exists (used1 ++ used'). rewrite <- app_assoc. split; [done|].
      split; [done|]. by apply Forall_app.
    + destruct Hexit2 as [Hall' Hrepo]. split; [by apply Forall_app|done].
    + destruct Hexit2 as [-> Hall']. split; [done|]. by apply Forall_app.
Qed.

Lemma Process_Daily_rangeDays_sound writer fuel : ∀ query day endTime accepted script,
  sound Daily.transient writer script accepted
    (Process.Daily.rangeDays writer fuel query day endTime accepted script).
Proof.
  induction fuel as [|fuel IH]; intros query day endTime accepted script;
    cbn [Process.Daily.rangeDays]; [apply sound_stop; by right|].
  destruct (time.After day endTime); [apply sound_stop; by left|].
  unfold Daily.Search.
  destruct (Offset.Search false Daily.transient (Daily.dayQuery query day) script)
    as [[evs res] rest] eqn:Hs.
  pose proof (sound_search _ _ writer _ _ accepted _ _ _ Hs) as Hstep.
  destruct res as [repos|err|]; [|done|done].
  destruct (Process.rangeRepos csvRecord writer accepted repos) as [accepted' [err|]];
    [done|]. apply Hstep, IH.
Qed.

Lemma Process_Hourly_rangeHours_more writer query day hours :
  ∀ accepted script evs accepted' exit rest,
  Process.Hourly.rangeHours writer query day hours accepted script
    = (evs, accepted', exit, rest) →
  match exit with
  | Process.Waiting =>
      ∀ err tail, Hourly.transient err = false →
        Process.Hourly.rangeHours writer query day hours accepted
          (script ++ Err err :: tail)
        = (evs, accepted', Process.Fatalf (Process.SearchFailed err), tail)
  | _ =>
      ∀ tail,
        Process.Hourly.rangeHours writer query day hours accepted (script ++ tail)
        = (evs, accepted', exit, rest ++ tail)
  end.
Proof.
  induction hours as [|hour hours IH]; intros accepted script evs accepted' exit rest Heq;
    cbn [Process.Hourly.rangeHours] in Heq.
  - by injection Heq as <- <- <- <-.
  - unfold Hourly.Search, Offset.Search in Heq.
    destruct (Offset.SearchFrom true Hourly.transient (Hourly.hourQuery query day hour)
                0 ∅ [] script) as [[evs1 res1] rest1] eqn:Hs.
    pose proof (SearchFrom_more _ _ _ _ _ _ _ _ _ _ Hs) as Hmore.
    destruct res1 as [repos|err|].
    + destruct (Process.rangeRepos csvRecord writer accepted repos)
        as [accepted1 [err|]] eqn:Hw.
      * injection Heq as <- <- <- <-. intros tail.
        cbn [Process.Hourly.rangeHours]. unfold Hourly.Search, Offset.Search.
        by rewrite Hmore, Hw.
      * destruct (Process.Hourly.rangeHours writer query day hours accepted1 rest1)
          as [[[evs2 accepted2] exit2] rest2] eqn:Hrec.
        injection Heq as <- <- <- <-. specialize (IH _ _ _ _ _ _ Hrec).
        destruct exit2 as [|cause| |]; intros;
          cbn [Process.Hourly.rangeHours]; unfold Hourly.Search, Offset.Search;
          rewrite Hmore, Hw, IH by done; done.
    + injection Heq as <- <- <- <-. intros tail.
      cbn [Process.Hourly.rangeHours]. unfold Hourly.Search, Offset.Search.
      by rewrite Hmore.
    + injection Heq as <- <- <- <-. intros err tail Herr.
      cbn [Process.Hourly.rangeHours]. unfold Hourly.Search, Offset.Search.
      by rewrite Hmore.
Qed.

Lemma Process_Hourly_rangeDays_more writer fuel :
  ∀ query day endTime accepted script evs accepted' exit rest,
  Process.Hourly.rangeDays writer fuel query day endTime accepted script
    = (evs, accepted', exit, rest) →
  match exit with
  | Process.Waiting =>
      ∀ err tail, Hourly.transient err = false →
        Process.Hourly.rangeDays writer fuel query day endTime accepted
          (script ++ Err err :: tail)
        = (evs, accepted', Process.Fatalf (Process.SearchFailed err), tail)
  | _ =>
      ∀ tail,
        Process.Hourly.rangeDays writer fuel query day endTime accepted (script ++ tail)
        = (evs, accepted', exit, rest ++ tail)
  end.
Proof.
  induction fuel as [|fuel IH];
    intros query day endTime accepted script evs accepted' exit rest Heq;
    cbn [Process.Hourly.rangeDays] in Heq.
  - by injection Heq as <- <- <- <-.
  - destruct (time.After day endTime) eqn:Hafter.
    { injection Heq as <- <- <- <-. intros tail.
      cbn [Process.Hourly.rangeDays]. by rewrite Hafter. }
    destruct (Process.Hourly.rangeHours writer query day (seqZ 0 24) accepted script)
      as [[[evs1 accepted1] exit1] rest1] eqn:Hday.
    pose proof (Process_Hourly_rangeHours_more _ _ _ _ _ _ _ _ _ _ Hday) as Hmore.
    destruct exit1 as [|cause| |].
    + destruct (Process.Hourly.rangeDays writer fuel query _ endTime accepted1 rest1)
        as [[[evs2 accepted2] exit2] rest2] eqn:Hrec.
      injection Heq as <- <- <- <-. specialize (IH _ _ _ _ _ _ _ _ _ Hrec).
      destruct exit2 as [|cause| |]; intros;
        cbn [Process.Hourly.rangeDays]; rewrite Hafter, Hmore, IH by done; done.
    + injection Heq as <- <- <- <-. intros tail.
      cbn [Process.Hourly.rangeDays]. by rewrite Hafter, Hmore.
    + injection Heq as <- <- <- <-. intros err tail Herr.
      cbn [Process.Hourly.rangeDays]. by rewrite Hafter, Hmore.
    + injection Heq as <- <- <- <-. intros tail.
      cbn [Process.Hourly.rangeDays]. by rewrite Hafter, Hmore.
Qed.

Lemma Process_Daily_rangeDays_more writer fuel :
  ∀ query day endTime accepted script evs accepted' exit rest,
  Process.Daily.rangeDays writer fuel query day endTime accepted script
    = (evs, accepted', exit, rest) →
  match exit with
  | Process.Waiting =>
      ∀ err tail, Daily.transient err = false →
        Process.Daily.rangeDays writer fuel query day endTime accepted
          (script ++ Err err :: tail)
        = (evs, accepted', Process.Fatalf (Process.SearchFailed err), tail)
  | _ =>
      ∀ tail,
        Process.Daily.rangeDays writer fuel query day endTime accepted (script ++ tail)
        = (evs, accepted', exit, rest ++ tail)
  end.
Proof.
  induction fuel as [|fuel IH];
    intros query day endTime accepted script evs accepted' exit rest Heq;
    cbn [Process.Daily.rangeDays] in Heq.
  - by injection Heq as <- <- <- <-.
  - destruct (time.After day endTime) eqn:Hafter.
    { injection Heq as <- <- <- <-. intros tail.
      cbn [Process.Daily.rangeDays]. by rewrite Hafter. }
    unfold Daily.Search, Offset.Search in Heq.
    destruct (Offset.SearchFrom false Daily.transient (Daily.dayQuery query day)
                0 ∅ [] script) as [[evs1 res1] rest1] eqn:Hs.
    pose proof (SearchFrom_more _ _ _ _ _ _ _ _ _ _ Hs) as Hmore.
    destruct res1 as [repos|err|].
    + destruct (Process.rangeRepos csvRecord writer accepted repos)
        as [accepted1 [err|]] eqn:Hw.
      * injection Heq as <- <- <- <-. intros tail.
        cbn [Process.Daily.rangeDays]. unfold Daily.Search, Offset.Search.
        by rewrite Hafter, Hmore, Hw.
      * destruct (Process.Daily.rangeDays writer fuel query _ endTime accepted1 rest1)
          as [[[evs2 accepted2] exit2] rest2] eqn:Hrec.
        injection Heq as <- <- <- <-. specialize (IH _ _ _ _ _ _ _ _ _ Hrec).
        destruct exit2 as [|cause| |]; intros;
          cbn [Process.Daily.rangeDays]; unfold Daily.Search, Offset.Search;
          rewrite Hafter, Hmore, Hw, IH by done; done.
    + injection Heq as <- <- <- <-. intros tail.
      cbn [Process.Daily.rangeDays]. unfold Daily.Search, Offset.Search.
      by rewrite Hafter, Hmore.
    + injection Heq as <- <- <- <-. intros err tail Herr.
      cbn [Process.Daily.rangeDays]. unfold Daily.Search, Offset.Search.
      by rewrite Hafter, Hmore.
Qed.

(** A writer [w'] that takes the first [n] records as [w] does and refuses
    the next one: the runs of the loops with [w'] against those with [w]. *)
Section Room.

Variable w w' : Process.Writer.
Variable n : nat.
Variable err : string.
Hypothesis agree :
  ∀ records, (length records ≤ n)%nat → Process.Write w' records = Process.Write w records.
Hypothesis refuse :
  ∀ records, length records = S n → Process.Write w' records = Some err.

Lemma Process_rangeRepos_room repos : ∀ accepted0 accepted werr,
  Process.rangeRepos csvRecord w accepted0 repos = (accepted, werr) →
  (length accepted0 ≤ n)%nat →
  ((n < length accepted)%nat →
     Process.rangeRepos csvRecord w' accepted0 repos = (take n accepted, Some err))
  ∧ ((length accepted ≤ n)%nat → werr = None →
     Process.rangeRepos csvRecord w' accepted0 repos = (accepted, None)).
Proof.
  induction repos as [|repo repos IH]; intros accepted0 accepted werr Heq Hle;
    simpl in Heq.
  - injection Heq as <- <-. split; [lia|done].
  - destruct (Process.Write w (accepted0 ++ [csvRecord repo])) as [e|] eqn:Hw.
    { injection Heq as <- <-. split; [lia|done]. }
    destruct (Process_rangeRepos_spec _ _ _ _ _ Heq) as (new & Hext & _).
    destruct (decide (length accepted0 < n)%nat) as [Hlt|Hge].
    + assert (Hle' : (length (accepted0 ++ [csvRecord repo]) ≤ n)%nat)
        by (rewrite length_app; simpl; lia).
      destruct (IH _ _ _ Heq Hle') as [Hfull Hroom]. simpl.
      rewrite agree, Hw by done. done.
    + assert (Hlen : length (accepted0 ++ [csvRecord repo]) = S n)
        by (rewrite length_app; simpl; lia).
      simpl. rewrite (refuse _ Hlen). subst accepted. split.
      * intros _. rewrite <- app_assoc, take_app_length'; [done|lia].
      * rewrite !length_app. simpl. lia.
Qed.

Lemma Process_Hourly_rangeHours_room query day hours :
  ∀ accepted0 script evs accepted exit rest,
  Process.Hourly.rangeHours w query day hours accepted0 script
    = (evs, accepted, exit, rest) →
  (length accepted0 ≤ n)%nat →
  ((n < length accepted)%nat →
     ∃ evs' rest',
       Process.Hourly.rangeHours w' query day hours accepted0 script
       = (evs', take n accepted, Process.Fatalf (Process.WriteFailed err), rest'))
  ∧ ((length accepted ≤ n)%nat → (∀ e, exit ≠ Process.Fatalf (Process.WriteFailed e)) →
     Process.Hourly.rangeHours w' query day hours accepted0 script
     = (evs, accepted, exit, rest)).
Proof.
  induction hours as [|hour hours IH]; intros accepted0 script evs accepted exit rest
    Heq Hle; cbn [Process.Hourly.rangeHours] in Heq |- *.
  - injection Heq as <- <- <- <-. split; [lia|done].
  - destruct (Hourly.Search _ script) as [[evs1 [repos|e|]] rest1].
    + destruct (Process.rangeRepos csvRecord w accepted0 repos)
        as [accepted1 werr] eqn:Hw.
      destruct (Process_rangeRepos_room _ _ _ _ Hw Hle) as [Hfull Hroom].
      destruct (Process_rangeRepos_spec _ _ _ _ _ Hw) as (new1 & Hext1 & _).
      destruct werr as [e|].
      * injection Heq as <- <- <- <-. split.
        -- intros Hn. rewrite Hfull by done. by eexists _, _.
        -- intros _ Hexit. by destruct (Hexit e).
      * pose proof (Process_Hourly_rangeHours_sound w query day hours accepted1 rest1)
          as Hsound.
        destruct (Process.Hourly.rangeHours w query day hours accepted1 rest1)
          as [[[evs2 accepted2] exit2] rest2] eqn:Hrec.
        destruct Hsound as (_ & new2 & _ & Hext2 & _).
        injection Heq as <- <- <- <-.
        destruct (decide (length accepted1 ≤ n)%nat) as [Hle1|Hgt1].
        -- rewrite Hroom by done.
           destruct (IH _ _ _ _ _ _ Hrec Hle1) as [Hfull2 Hroom2]. split.
           ++ intros Hn. destruct (Hfull2 Hn) as (evs' & rest' & ->). by eexists _, _.
           ++ intros Hn Hexit. by rewrite Hroom2.
        -- rewrite Hfull by lia. split.
           ++ intros _. eexists _, _. do 3 f_equal. subst accepted2.
              rewrite take_app_le by lia. done.
           ++ intros Hn. subst accepted2. rewrite length_app in Hn. lia.
    + injection Heq as <- <- <- <-. split; [lia|done].
    + injection Heq as <- <- <- <-. split; [lia|done].
Qed.

Lemma Process_Hourly_rangeDays_room fuel :
  ∀ query day endTime accepted0 script evs accepted exit rest,
  Process.Hourly.rangeDays w fuel query day endTime accepted0 script
    = (evs, accepted, exit, rest) →
  (length accepted0 ≤ n)%nat →
  ((n < length accepted)%nat →
     ∃ evs' rest',
       Process.Hourly.rangeDays w' fuel query day endTime accepted0 script
       = (evs', take n accepted, Process.Fatalf (Process.WriteFailed err), rest'))
  ∧ ((length accepted ≤ n)%nat → (∀ e, exit ≠ Process.Fatalf (Process.WriteFailed e)) →
     Process.Hourly.rangeDays w' fuel query day endTime accepted0 script
     = (evs, accepted, exit, rest)).
Proof.
  induction fuel as [|fuel IH];
    intros query day endTime accepted0 script evs accepted exit rest Heq Hle;
    cbn [Process.Hourly.rangeDays] in Heq |- *.
  - injection Heq as <- <- <- <-. split; [lia|done].
  - destruct (time.After day endTime).
    { injection Heq as <- <- <- <-. split; [lia|done]. }
    destruct (Process.Hourly.rangeHours w query day (seqZ 0 24) accepted0 script)
      as [[[evs1 accepted1] exit1] rest1] eqn:Hday.
    destruct (Process_Hourly_rangeHours_room _ _ _ _ _ _ _ _ _ Hday Hle)
      as [Hfull Hroom].
    destruct exit1 as [|cause| |].
    + pose proof (Process_Hourly_rangeDays_sound w fuel query
                    (time.AddDate_days day 1) endTime accepted1 rest1) as Hsound.
      destruct (Process.Hourly.rangeDays w fuel query _ endTime accepted1 rest1)
        as [[[evs2 accepted2] exit2] rest2] eqn:Hrec.
      destruct Hsound as (_ & new2 & _ & Hext2 & _).
      injection Heq as <- <- <- <-.
      destruct (decide (length accepted1 ≤ n)%nat) as [Hle1|Hgt1].
      * rewrite Hroom by done.
        destruct (IH _ _ _ _ _ _ _ _ _ Hrec Hle1) as [Hfull2 Hroom2]. split.
        -- intros Hn. destruct (Hfull2 Hn) as (evs' & rest' & ->). by eexists _, _.
        -- intros Hn Hexit. by rewrite Hroom2.
      * destruct Hfull as (evs' & rest' & ->); [lia|]. split.
        -- intros _. eexists _, _. do 3 f_equal. subst accepted2.
           rewrite take_app_le by lia. done.
        -- intros Hn. subst accepted2. rewrite length_app in Hn. lia.
    + injection Heq as <- <- <- <-. split.
      * intros Hn. destruct (Hfull Hn) as (evs' & rest' & ->). by eexists _, _.
      * intros Hn Hexit. by rewrite Hroom.
    + injection Heq as <- <- <- <-. split.
      * intros Hn. destruct (Hfull Hn) as (evs' & rest' & ->). by eexists _, _.
      * intros Hn Hexit. by rewrite Hroom.
    + injection Heq as <- <- <- <-. split.
      * intros Hn. destruct (Hfull Hn) as (evs' & rest' & ->). by eexists _, _.
      * intros Hn Hexit. by rewrite Hroom.
Qed.

Lemma Process_Daily_rangeDays_room fuel :
  ∀ query day endTime accepted0 script evs accepted exit rest,
  Process.Daily.rangeDays w fuel query day endTime accepted0 script
    = (evs, accepted, exit, rest) →
  (length accepted0 ≤ n)%nat →
  ((n < length accepted)%nat →
     ∃ evs' rest',
       Process.Daily.rangeDays w' fuel query day endTime accepted0 script
       = (evs', take n accepted, Process.Fatalf (Process.WriteFailed err), rest'))
  ∧ ((length accepted ≤ n)%nat → (∀ e, exit ≠ Process.Fatalf (Process.WriteFailed e)) →
     Process.Daily.rangeDays w' fuel query day endTime accepted0 script
     = (evs, accepted, exit, rest)).
Proof.
  induction fuel as [|fuel IH];
    intros query day endTime accepted0 script evs accepted exit rest Heq Hle;
    cbn [Process.Daily.rangeDays] in Heq |- *.
  - injection Heq as <- <- <- <-. split; [lia|done].
  - destruct (time.After day endTime).
    { injection Heq as <- <- <- <-. split; [lia|done]. }
    destruct (Daily.Search _ script) as [[evs1 [repos|e|]] rest1].
    + destruct (Process.rangeRepos csvRecord w accepted0 repos)
        as [accepted1 werr] eqn:Hw.
      destruct (Process_rangeRepos_room _ _ _ _ Hw Hle) as [Hfull Hroom].
      destruct (Process_rangeRepos_spec _ _ _ _ _ Hw) as (new1 & Hext1 & _).
      destruct werr as [e|].
      * injection Heq as <- <- <- <-. split.
        -- intros Hn. rewrite Hfull by done. by eexists _, _.
        -- intros _ Hexit. by destruct (Hexit e).
      * pose proof (Process_Daily_rangeDays_sound w fuel query
                      (time.AddDate_days day 1) endTime accepted1 rest1) as Hsound.
        destruct (Process.Daily.rangeDays w fuel query _ endTime accepted1 rest1)
          as [[[evs2 accepted2] exit2] rest2] eqn:Hrec.
        destruct Hsound as (_ & new2 & _ & Hext2 & _).
        injection Heq as <- <- <- <-.
        destruct (decide (length accepted1 ≤ n)%nat) as [Hle1|Hgt1].
        -- rewrite Hroom by done.
           destruct (IH _ _ _ _ _ _ _ _ _ Hrec Hle1) as [Hfull2 Hroom2]. split.
           ++ intros Hn. destruct (Hfull2 Hn) as (evs' & rest' & ->). by eexists _, _.
           ++ intros Hn Hexit. by rewrite Hroom2.
        -- rewrite Hfull by lia. split.
           ++ intros _. eexists _, _. do 3 f_equal. subst accepted2.
              rewrite take_app_le by lia. done.
           ++ intros Hn. subst accepted2. rewrite length_app in Hn. lia.
    + injection Heq as <- <- <- <-. split; [lia|done].
    + injection Heq as <- <- <- <-. split; [lia|done].
Qed.

End Room.

Lemma checkError_inv writer accepted exit exit' :
  Process.checkError writer accepted exit = exit' →
  match exit' with
  | Process.Fatalf (Process.FlushFailed err) =>
      (exit = Process.Completed ∧ Process.Error writer accepted = Some err)
      ∨ exit = exit'
  | Process.Completed => exit = Process.Completed ∧ Process.Error writer accepted = None
  | _ => exit = exit'
  end.
Proof.
  intros <-. destruct exit as [|[| | | |]| |]; simpl; try done; [|by right].
  destruct (Process.Error writer accepted) eqn:He; [by left|done].
Qed.

Lemma handedOver_nil writer : handedOver writer [].
Proof. intros n Hn. simpl in Hn. lia. Qed.

Section MainFatal.

Variable transient : string -> bool.
Variable transport : option string.
Variable writer : Process.Writer.
Variable startTime endTime : time.Time.
Variable script : list (Response Repository).

(** From a sound run of the day loop to the report of [main]. *)
Lemma main_sound (out : list Event * list (list string) * Process.Exit
                        * list (Response Repository)) :
  sound transient writer script [] out →
  time.After startTime endTime = false → transport = None →
  let '(evs, accepted, exit, rest) := out in
  Forall isRecord accepted
  ∧ handedOver writer accepted
  ∧ (∃ used, script = used ++ rest)
  ∧ (∀ cause, Process.checkError writer accepted exit = Process.Fatalf cause →
       diedOf transient transport writer startTime endTime script evs accepted rest cause)
  ∧ (Process.checkError writer accepted exit = Process.Completed →
       Process.Error writer accepted = None).
Proof.
  destruct out as [[[evs accepted] exit] rest].
  intros (used & new & -> & -> & Hrec & Hacc & Hlen & Hexit) Hafter Htr.
  split; [done|]. split; [apply Hacc, handedOver_nil|]. split; [by exists used|].
  split.
  - intros cause Hc. apply checkError_inv in Hc.
    destruct cause as [| err| err| err| err]; simpl.
    + by subst exit.
    + by subst exit.
    + subst exit. destruct Hexit as (used' & -> & Hf & Hall).
      split; [done|]. split; [done|]. exists used'. rewrite <- app_assoc.
      split; [done|]. split; [done|]. split; [done|].
      rewrite Hlen, length_app. simpl. lia.
    + subst exit. destruct Hexit as [_ Hrepo]. done.
    + destruct Hc as [[_ He]| ->]; done.
  - intros Hc. apply checkError_inv in Hc. by destruct Hc.
Qed.

End MainFatal.

(** [writer.Error] is consulted only by the check at the end of [main]. *)
Lemma Process_rangeRepos_Write {R} (record : R -> list string) w1 w2 repos :
  (∀ records, Process.Write w1 records = Process.Write w2 records) →
  ∀ accepted, Process.rangeRepos record w1 accepted repos
              = Process.rangeRepos record w2 accepted repos.
Proof.
  intros Hw. induction repos as [|repo repos IH]; intros accepted; [done|].
  simpl. rewrite Hw. destruct (Process.Write w2 _); [done|]. apply IH.
Qed.

Lemma Process_Hourly_rangeHours_Write w1 w2 query day hours :
  (∀ records, Process.Write w1 records = Process.Write w2 records) →
  ∀ accepted script,
    Process.Hourly.rangeHours w1 query day hours accepted script
    = Process.Hourly.rangeHours w2 query day hours accepted script.
Proof.
  intros Hw. induction hours as [|hour hours IH]; intros accepted script; [done|].
  cbn [Process.Hourly.rangeHours].
  destruct (Hourly.Search _ script) as [[evs [repos|err|]] rest]; [|done|done].
  rewrite (Process_rangeRepos_Write csvRecord w1 w2 repos Hw).
  destruct (Process.rangeRepos csvRecord w2 accepted repos) as [accepted' [err|]]; [done|].
  by rewrite IH.
Qed.

Lemma Process_Hourly_rangeDays_Write w1 w2 fuel :
  (∀ records, Process.Write w1 records = Process.Write w2 records) →
  ∀ query day endTime accepted script,
    Process.Hourly.rangeDays w1 fuel query day endTime accepted script
    = Process.Hourly.rangeDays w2 fuel query day endTime accepted script.
Proof.
  intros Hw. induction fuel as [|fuel IH]; intros query day endTime accepted script;
    [done|].
  cbn [Process.Hourly.rangeDays]. destruct (time.After day endTime); [done|].
  rewrite (Process_Hourly_rangeHours_Write w1 w2 query day (seqZ 0 24) Hw).
  destruct (Process.Hourly.rangeHours w2 query day (seqZ 0 24) accepted script)
    as [[[evs accepted'] [|cause| |]] rest]; try done.
  by rewrite IH.
Qed.

Lemma Process_Daily_rangeDays_Write w1 w2 fuel :
  (∀ records, Process.Write w1 records = Process.Write w2 records) →
  ∀ query day endTime accepted script,
    Process.Daily.rangeDays w1 fuel query day endTime accepted script
    = Process.Daily.rangeDays w2 fuel query day endTime accepted script.
Proof.
  intros Hw. induction fuel as [|fuel IH]; intros query day endTime accepted script;
    [done|].
  cbn [Process.Daily.rangeDays]. destruct (time.After day endTime); [done|].
  destruct (Daily.Search _ script) as [[evs [repos|err|]] rest]; [|done|done].
  rewrite (Process_rangeRepos_Write csvRecord w1 w2 repos Hw).
  destruct (Process.rangeRepos csvRecord w2 accepted repos) as [accepted' [err|]]; [done|].
  by rewrite IH.
Qed.

(** X5.  [main] of [Hourly] and of [Daily], from the parsed flags on,
    with every [log.Fatalf] it then holds.  When the start date is after
    the end date it dies before anything else; else, when
    [ghauth.Transport] returned an error, it dies of that; in both cases
    before any request and with no record handed to the writer.  A run
    that died did so for one of five reasons, each read off the inputs:
    the two above; an error of the client that [Search] does not retry,
    which is then the first such error of the script and the last answer
    read, the request it answered being the last request made; a record
    the writer refused; or an error reported by [writer.Error()] after the
    loop.  The records reported are records of repositories, each accepted
    by the writer when it was handed over; they are in the buffer of the
    writer, which a fatal exit does not flush.  Conversely: a run that is
    waiting for an answer dies with [Search failed] when the answer is an
    error that is not retried; a run that returned dies when
    [writer.Error()] reports an error instead; and with a writer that
    takes the first [n] records alike and refuses the next one, a run
    that had more than [n] records accepted dies with [Write failed], the
    first [n] of them accepted. *)
Theorem main_fatal :
  ∀ (transport : option string) (writer : Process.Writer) (fuel : nat)
    (query : string) (startTime endTime : time.Time)
    (script : list (Response Repository)),
    (time.After startTime endTime = true →
       Process.Hourly.main transport writer fuel query startTime endTime script
         = ([], [], Process.Fatalf Process.StartAfterEnd, script)
       ∧ Process.Daily.main transport writer fuel query startTime endTime script
         = ([], [], Process.Fatalf Process.StartAfterEnd, script))
    ∧ (∀ err, time.After startTime endTime = false → transport = Some err →
       Process.Hourly.main transport writer fuel query startTime endTime script
         = ([], [], Process.Fatalf (Process.TransportFailed err), script)
       ∧ Process.Daily.main transport writer fuel query startTime endTime script
         = ([], [], Process.Fatalf (Process.TransportFailed err), script))
    ∧ (∀ evs accepted exit rest,
         Process.Hourly.main transport writer fuel query startTime endTime script
           = (evs, accepted, exit, rest) →
         Forall isRecord accepted
         ∧ handedOver writer accepted
         ∧ (∃ used, script = used ++ rest)
         ∧ (∀ cause, exit = Process.Fatalf cause →
              diedOf Hourly.transient transport writer startTime endTime script
                evs accepted rest cause)
         ∧ (exit = Process.Completed → Process.Error writer accepted = None))
    ∧ (∀ evs accepted exit rest,
         Process.Daily.main transport writer fuel query startTime endTime script
           = (evs, accepted, exit, rest) →
         Forall isRecord accepted
         ∧ handedOver writer accepted
         ∧ (∃ used, script = used ++ rest)
         ∧ (∀ cause, exit = Process.Fatalf cause →
              diedOf Daily.transient transport writer startTime endTime script
                evs accepted rest cause)
         ∧ (exit = Process.Completed → Process.Error writer accepted = None))
    ∧ (∀ evs accepted rest err tail,
         Process.Hourly.main transport writer fuel query startTime endTime script
           = (evs, accepted, Process.Waiting, rest) →
         Hourly.transient err = false →
         Process.Hourly.main transport writer fuel query startTime endTime
           (script ++ Err err :: tail)
         = (evs, accepted, Process.Fatalf (Process.SearchFailed err), tail))
    ∧ (∀ evs accepted rest err tail,
         Process.Daily.main transport writer fuel query startTime endTime script
           = (evs, accepted, Process.Waiting, rest) →
         Daily.transient err = false →
         Process.Daily.main transport writer fuel query startTime endTime
           (script ++ Err err :: tail)
         = (evs, accepted, Process.Fatalf (Process.SearchFailed err), tail))
    ∧ (∀ evs accepted rest err error,
         Process.Hourly.main transport writer fuel query startTime endTime script
           = (evs, accepted, Process.Completed, rest) →
         error accepted = Some err →
         Process.Hourly.main transport (Process.mkWriter (Process.Write writer) error)
           fuel query startTime endTime script
         = (evs, accepted, Process.Fatalf (Process.FlushFailed err), rest))
    ∧ (∀ evs accepted rest err error,
         Process.Daily.main transport writer fuel query startTime endTime script
           = (evs, accepted, Process.Completed, rest) →
         error accepted = Some err →
         Process.Daily.main transport (Process.mkWriter (Process.Write writer) error)
           fuel query startTime endTime script
         = (evs, accepted, Process.Fatalf (Process.FlushFailed err), rest))
    ∧ (∀ (writer' : Process.Writer) (n : nat) err evs accepted exit rest,
         (∀ records, (length records ≤ n)%nat →
            Process.Write writer' records = Process.Write writer records) →
         (∀ records, length records = S n → Process.Write writer' records = Some err) →
         Process.Hourly.main transport writer fuel query startTime endTime script
           = (evs, accepted, exit, rest) →
         (n < length accepted)%nat →
         ∃ evs' rest',
           Process.Hourly.main transport writer' fuel query startTime endTime script
           = (evs', take n accepted, Process.Fatalf (Process.WriteFailed err), rest'))
    ∧ (∀ (writer' : Process.Writer) (n : nat) err evs accepted exit rest,
         (∀ records, (length records ≤ n)%nat →
            Process.Write writer' records = Process.Write writer records) →
         (∀ records, length records = S n → Process.Write writer' records = Some err) →
         Process.Daily.main transport writer fuel query startTime endTime script
           = (evs, accepted, exit, rest) →
         (n < length accepted)%nat →
         ∃ evs' rest',
           Process.Daily.main transport writer' fuel query startTime endTime script
           = (evs', take n accepted, Process.Fatalf (Process.WriteFailed err), rest')).
Proof.
  intros transport writer fuel query startTime endTime script.
  unfold Process.Hourly.main, Process.Daily.main.
  split; [by intros ->|]. split; [by intros err -> ->|].
  assert (Hearly : ∀ cause evs accepted exit rest,
    ([], [], Process.Fatalf cause, script) = (evs, accepted, exit, rest) →
    (∀ transient, diedOf transient transport writer startTime endTime script
                    [] [] script cause) →
    ∀ transient,
      Forall isRecord accepted
      ∧ handedOver writer accepted
      ∧ (∃ used, script = used ++ rest)
      ∧ (∀ cause', exit = Process.Fatalf cause' →
           diedOf transient transport writer startTime endTime script
             evs accepted rest cause')
      ∧ (exit = Process.Completed → Process.Error writer accepted = None)).
  { intros cause evs accepted exit rest [= <- <- <- <-] Hdied transient.
    split; [done|]. split; [apply handedOver_nil|]. split; [by exists []|].
    split; [|done]. intros cause' [= <-]. apply Hdied. }
  destruct (time.After startTime endTime) eqn:Hafter.
  { split; [|split; [|split; [|split; [|split; [|split; [|split]]]]]];
      try (by intros).
    - intros evs accepted exit rest Heq. by apply (Hearly _ _ _ _ _ Heq).
    - intros evs accepted exit rest Heq. by apply (Hearly _ _ _ _ _ Heq).
    - intros w' n err evs accepted exit rest _ _ [= _ <- _ _] Hn. simpl in Hn. lia.
    - intros w' n err evs accepted exit rest _ _ [= _ <- _ _] Hn. simpl in Hn. lia. }
  destruct transport as [terr|] eqn:Htr.
  { split; [|split; [|split; [|split; [|split; [|split; [|split]]]]]];
      try (by intros).
    - intros evs accepted exit rest Heq. by apply (Hearly _ _ _ _ _ Heq).
    - intros evs accepted exit rest Heq. by apply (Hearly _ _ _ _ _ Heq).
    - intros w' n err evs accepted exit rest _ _ [= _ <- _ _] Hn. simpl in Hn. lia.
    - intros w' n err evs accepted exit rest _ _ [= _ <- _ _] Hn. simpl in Hn. lia. }
  clear Hearly.
  split; [|split; [|split; [|split; [|split; [|split; [|split]]]]]].
  - intros evs accepted exit rest Heq.
    pose proof (Process_Hourly_rangeDays_sound writer fuel query startTime endTime []
                  script) as Hsound.
    destruct (Process.Hourly.rangeDays writer fuel query startTime endTime [] script)
      as [[[evs0 accepted0] exit0] rest0].
    injection Heq as <- <- <- <-.
    pose proof (main_sound Hourly.transient None writer startTime endTime script _
                  Hsound Hafter eq_refl) as (Hrec & Hacc & Hused & Hdied & Hdone).
    done.
  - intros evs accepted exit rest Heq.
    pose proof (Process_Daily_rangeDays_sound writer fuel query startTime endTime []
                  script) as Hsound.
    destruct (Process.Daily.rangeDays writer fuel query startTime endTime [] script)
      as [[[evs0 accepted0] exit0] rest0].
    injection Heq as <- <- <- <-.
    pose proof (main_sound Daily.transient None writer startTime endTime script _
                  Hsound Hafter eq_refl) as (Hrec & Hacc & Hused & Hdied & Hdone).
    done.
  - intros evs accepted rest err tail Heq Herr.
    destruct (Process.Hourly.rangeDays writer fuel query startTime endTime [] script)
      as [[[evs0 accepted0] exit0] rest0] eqn:Hrun.
    injection Heq as <- <- Hexit <-. apply checkError_inv in Hexit. subst exit0.
    by rewrite (Process_Hourly_rangeDays_more _ _ _ _ _ _ _ _ _ _ _ Hrun err tail Herr).
  - intros evs accepted rest err tail Heq Herr.
    destruct (Process.Daily.rangeDays writer fuel query startTime endTime [] script)
      as [[[evs0 accepted0] exit0] rest0] eqn:Hrun.
    injection Heq as <- <- Hexit <-. apply checkError_inv in Hexit. subst exit0.
    by rewrite (Process_Daily_rangeDays_more _ _ _ _ _ _ _ _ _ _ _ Hrun err tail Herr).
  - intros evs accepted rest err error Heq Herr.
    rewrite (Process_Hourly_rangeDays_Write
               (Process.mkWriter (Process.Write writer) error) writer) by done.
    destruct (Process.Hourly.rangeDays writer fuel query startTime endTime [] script)
      as [[[evs0 accepted0] exit0] rest0].
    injection Heq as <- <- Hexit <-. apply checkError_inv in Hexit as [-> _].
    simpl. by rewrite Herr.
  - intros evs accepted rest err error Heq Herr.
    rewrite (Process_Daily_rangeDays_Write
               (Process.mkWriter (Process.Write writer) error) writer) by done.
    destruct (Process.Daily.rangeDays writer fuel query startTime endTime [] script)
      as [[[evs0 accepted0] exit0] rest0].
    injection Heq as <- <- Hexit <-. apply checkError_inv in Hexit as [-> _].
    simpl. by rewrite Herr.
  - intros w' n err evs accepted exit rest Hagree Hrefuse Heq Hn.
    destruct (Process.Hourly.rangeDays writer fuel query startTime endTime [] script)
      as [[[evs0 accepted0] exit0] rest0] eqn:Hrun.
    injection Heq as <- <- _ <-.
    destruct (Process_Hourly_rangeDays_room writer w' n err Hagree Hrefuse _ _ _ _ _ _
                _ _ _ _ Hrun ltac:(simpl; lia)) as [Hfull _].
    destruct (Hfull Hn) as (evs' & rest' & ->). by eexists _, _.
  - intros w' n err evs accepted exit rest Hagree Hrefuse Heq Hn.
    destruct (Process.Daily.rangeDays writer fuel query startTime endTime [] script)
      as [[[evs0 accepted0] exit0] rest0] eqn:Hrun.
    injection Heq as <- <- _ <-.
    destruct (Process_Daily_rangeDays_room writer w' n err Hagree Hrefuse _ _ _ _ _ _
                _ _ _ _ Hrun ltac:(simpl; lia)) as [Hfull _].
    destruct (Hfull Hn) as (evs' & rest' & ->). by eexists _, _.
Qed.

Lemma main_fatal_witness :
  Process.Daily.main None accepting 5 "q" (time.Midnight 739403) (time.Midnight 739404)
    ([Err "504 Gateway Timeout"]
     ++ Err "401 Unauthorized" :: [Ok (Fixture.page [Fixture.spoon] false)])
  = ([Query (Daily.dayQuery "q" (time.Midnight 739403)) None; Sleep 10;
      Query (Daily.dayQuery "q" (time.Midnight 739403)) None],
     [],
     Process.Fatalf (Process.SearchFailed "401 Unauthorized"),
     [Ok (Fixture.page [Fixture.spoon] false)]).
Proof.
  refine (proj1 (proj2 (proj2 (proj2 (proj2 (proj2
    (main_fatal None accepting 5 "q" (time.Midnight 739403) (time.Midnight 739404)
       [Err "504 Gateway Timeout"]))))))
    _ _ [] "401 Unauthorized" [Ok (Fixture.page [Fixture.spoon] false)] _ _).
  - vm_compute. reflexivity.
  - reflexivity.
Defined.

(** ** The watermark programs with their writer *)

Lemma Process_rangeRepos_all {R} (record : R -> list string) writer (l : list R) :
  ∀ accepted,
    (∀ n : nat, (n < length l)%nat →
       Process.Write writer (accepted ++ (record <$> take (S n) l)) = None) →
    Process.rangeRepos record writer accepted l = (accepted ++ (record <$> l), None).
Proof.
  induction l as [|r l IH]; intros accepted Hall; simpl.
  - by rewrite app_nil_r.
  - pose proof (Hall O ltac:(simpl; lia)) as H0. simpl in H0. rewrite H0, IH.
    + by rewrite <- app_assoc.
    + intros n Hn. rewrite <- app_assoc. apply (Hall (S n)). simpl. lia.
Qed.

Lemma Process_rangeRepos_refused {R} (record : R -> list string) writer (l : list R) :
  ∀ accepted (n : nat) err,
    (n < length l)%nat →
    (∀ m : nat, (m < n)%nat →
       Process.Write writer (accepted ++ (record <$> take (S m) l)) = None) →
    Process.Write writer (accepted ++ (record <$> take (S n) l)) = Some err →
    Process.rangeRepos record writer accepted l
    = (accepted ++ (record <$> take n l), Some err).
Proof.
  induction l as [|r l IH]; intros accepted n err Hn Hbefore Hat; simpl in Hn; [lia|].
  destruct n as [|n].
  - simpl in Hat |- *. rewrite Hat. by rewrite app_nil_r.
  - cbn [Process.rangeRepos].
    pose proof (Hbefore O ltac:(lia)) as H0. simpl in H0. rewrite H0.
    rewrite (IH (accepted ++ [record r]) n err).
    + by rewrite <- app_assoc.
    + lia.
    + intros m Hm. rewrite <- app_assoc. apply (Hbefore (S m)). lia.
    + by rewrite <- app_assoc.
Qed.

Lemma NoDup_identifier_column (l : list Repository) :
  NoDup (DatabaseId <$> l) →
  NoDup ((λ row : list string, row !! 2%nat) <$> (csvRecord <$> l)).
Proof.
  intros Hnd. rewrite <- list_fmap_compose.
  assert (Hcol : ∀ repo, (λ row : list string, row !! 2%nat) (csvRecord repo)
                         = Some (strconv.FormatInt (DatabaseId repo))).
  { intros repo. unfold csvRecord. by destruct (strings.Cut _ _) as [[? ?] ?]. }
  rewrite (list_fmap_ext _ (λ repo, Some (strconv.FormatInt (DatabaseId repo))) l)
    by (intros; apply Hcol).
  replace ((λ repo, Some (strconv.FormatInt (DatabaseId repo))) <$> l)
    with ((λ id, Some (strconv.FormatInt id)) <$> (DatabaseId <$> l))
    by (by rewrite <- list_fmap_compose).
  apply NoDup_fmap_2; [intros a b [= Hab]; by apply FormatInt_inj|done].
Qed.

Section IterationProgram.

Context {R K : Type} `{Countable K}.
Variable key : R -> K.
Variable pushedAt : R -> githubv4.DateTime.
Variable zeroValue : R.
Variable record : R -> list string.
Variable writer : Process.Writer.
Variable query : string.
Variable script : list (Response R).

(** The range loop of [main] over a whole iteration. *)
Lemma IterSearch_body :
  ∃ evs items status,
    Pushed.IterSearch key pushedAt zeroValue (Process.body record writer) query script
    = (evs, items, status)
    ∧ Process.rangeItems record writer [] items status
      = match Process.rangeRepos record writer []
                (firstSeen key ∅ (pageNodes (consumed secondaryRateLimit script))) with
        | (accepted, Some err) => (accepted, Process.Fatalf (Process.WriteFailed err))
        | (accepted, None) =>
            (accepted,
             match failure secondaryRateLimit script with
             | Some err => Process.Fatalf (Process.SearchFailed err)
             | None =>
                 if forallb (carriesOn secondaryRateLimit) script
                 then Process.Waiting else Process.Completed
             end)
        end.
Proof.
  destruct (IterSearchFrom_body key pushedAt zeroValue record writer script query None ∅ [])
    as (evs & new & status & Hrun & Hitems).
  exists evs, new, status. split; [exact Hrun|exact Hitems].
Qed.

(** What [main] reports when the writer accepts every record, and when it
    refuses one. *)
Lemma IterSearch_main_accepted :
  (∀ n : nat,
     (n < length (firstSeen key ∅ (pageNodes (consumed secondaryRateLimit script))))%nat →
     Process.Write writer
       (record <$> take (S n)
          (firstSeen key ∅ (pageNodes (consumed secondaryRateLimit script)))) = None) →
  ∃ evs items status,
    Pushed.IterSearch key pushedAt zeroValue (Process.body record writer) query script
    = (evs, items, status)
    ∧ Process.rangeItems record writer [] items status
      = (record <$> firstSeen key ∅ (pageNodes (consumed secondaryRateLimit script)),
         match failure secondaryRateLimit script with
         | Some err => Process.Fatalf (Process.SearchFailed err)
         | None =>
             if forallb (carriesOn secondaryRateLimit) script
             then Process.Waiting else Process.Completed
         end).
Proof.
  intros Hall. destruct IterSearch_body as (evs & items & status & Hrun & Hitems).
  exists evs, items, status. split; [done|].
  by rewrite Hitems, (Process_rangeRepos_all record writer _ []).
Qed.

Lemma IterSearch_main_refused (n : nat) err :
  (n < length (firstSeen key ∅ (pageNodes (consumed secondaryRateLimit script))))%nat →
  (∀ m : nat, (m < n)%nat →
     Process.Write writer
       (record <$> take (S m)
          (firstSeen key ∅ (pageNodes (consumed secondaryRateLimit script)))) = None) →
  Process.Write writer
    (record <$> take (S n)
       (firstSeen key ∅ (pageNodes (consumed secondaryRateLimit script)))) = Some err →
  ∃ evs items status,
    Pushed.IterSearch key pushedAt zeroValue (Process.body record writer) query script
    = (evs, items, status)
    ∧ Process.rangeItems record writer [] items status
      = (record <$> take n
           (firstSeen key ∅ (pageNodes (consumed secondaryRateLimit script))),
         Process.Fatalf (Process.WriteFailed err)).
Proof.
  intros Hn Hbefore Hat.
  destruct IterSearch_body as (evs & items & status & Hrun & Hitems).
  exists evs, items, status. split; [done|].
  by rewrite Hitems, (Process_rangeRepos_refused record writer _ [] n err).
Qed.

End IterationProgram.

(** X11.  [main] of [Watermark], from the parsed argument on, with every
    [log.Fatalf] it holds.  When [ghauth.Transport] returned an error it
    dies of it before any request.  Otherwise the iteration reads the
    answers up to the first that is neither a page with a next page nor a
    retried error, and [main] hands to the writer the record of each
    repository among their nodes, in page order, each identifier at its
    first occurrence.  When the writer accepts them all, these are the
    records reported, one per identifier, and the run ends as the iteration
    does: it is waiting when all answers were read, has died with
    [Search failed] when the last answer read is an error, and else comes
    to the check of [writer.Error()], of which it dies when that reports
    an error.  When the writer refuses one of the records, the run dies
    with [Write failed], the records before it accepted.  The records
    accepted are in the buffer of the writer, which a fatal exit does not
    flush.  No two records have the same identifier column. *)
Theorem watermark_main_rows :
  ∀ (transport : option string) (writer : Process.Writer) (query : string)
    (script : list (Response Repository)),
    (∀ err, transport = Some err →
       Process.Watermark.main transport writer query script
       = ([], [], Process.Fatalf (Process.TransportFailed err)))
    ∧ (transport = None →
       (∀ n : nat,
          (n < length (firstSeen DatabaseId ∅
                         (pageNodes (consumed secondaryRateLimit script))))%nat →
          Process.Write writer
            (csvRecord <$> take (S n)
               (firstSeen DatabaseId ∅
                  (pageNodes (consumed secondaryRateLimit script)))) = None) →
       ∃ evs,
         Process.Watermark.main transport writer query script
         = (evs,
            csvRecord <$> firstSeen DatabaseId ∅
                            (pageNodes (consumed secondaryRateLimit script)),
            match failure secondaryRateLimit script with
            | Some err => Process.Fatalf (Process.SearchFailed err)
            | None =>
                if forallb (carriesOn secondaryRateLimit) script then Process.Waiting
                else
                  match Process.Error writer
                          (csvRecord <$> firstSeen DatabaseId ∅
                             (pageNodes (consumed secondaryRateLimit script))) with
                  | Some err => Process.Fatalf (Process.FlushFailed err)
                  | None => Process.Completed
                  end
            end))
    ∧ (transport = None →
       ∀ (n : nat) err,
         (n < length (firstSeen DatabaseId ∅
                        (pageNodes (consumed secondaryRateLimit script))))%nat →
         (∀ m : nat, (m < n)%nat →
            Process.Write writer
              (csvRecord <$> take (S m)
                 (firstSeen DatabaseId ∅
                    (pageNodes (consumed secondaryRateLimit script)))) = None) →
         Process.Write writer
           (csvRecord <$> take (S n)
              (firstSeen DatabaseId ∅
                 (pageNodes (consumed secondaryRateLimit script)))) = Some err →
         ∃ evs,
           Process.Watermark.main transport writer query script
           = (evs,
              csvRecord <$> take n
                (firstSeen DatabaseId ∅
                   (pageNodes (consumed secondaryRateLimit script))),
              Process.Fatalf (Process.WriteFailed err)))
    ∧ NoDup (DatabaseId <$> firstSeen DatabaseId ∅
                              (pageNodes (consumed secondaryRateLimit script)))
    ∧ (∀ id, id ∈ DatabaseId <$> firstSeen DatabaseId ∅
                                   (pageNodes (consumed secondaryRateLimit script))
             ↔ id ∈ DatabaseId <$> pageNodes (consumed secondaryRateLimit script))
    ∧ NoDup ((λ row : list string, row !! 2%nat)
               <$> (csvRecord <$> firstSeen DatabaseId ∅
                                    (pageNodes (consumed secondaryRateLimit script)))).
Proof.
  intros transport writer query script. unfold Process.Watermark.main.
  destruct (firstSeen_spec DatabaseId (pageNodes (consumed secondaryRateLimit script)) ∅)
    as (Hnd & Hin & _).
  split; [by intros err ->|]. split; [|split; [|split; [|split]]].
  - intros -> Hall.
    destruct (IterSearch_main_accepted DatabaseId PushedAt Watermark.zeroRepository
                csvRecord writer query script Hall)
      as (evs & items & status & Hrun & Hitems).
    unfold Watermark.IterSearch. rewrite Hrun, Hitems. exists evs.
    destruct (failure secondaryRateLimit script); [done|].
    by destruct (forallb (carriesOn secondaryRateLimit) script).
  - intros -> n err Hn Hbefore Hat.
    destruct (IterSearch_main_refused DatabaseId PushedAt Watermark.zeroRepository
                csvRecord writer query script n err Hn Hbefore Hat)
      as (evs & items & status & Hrun & Hitems).
    unfold Watermark.IterSearch. rewrite Hrun, Hitems. by exists evs.
  - done.
  - intros id. rewrite Hin. set_solver.
  - by apply NoDup_identifier_column.
Qed.

Lemma watermark_main_rows_witness :
  ∃ evs,
    Process.Watermark.main None accepting "q"
      [Ok (Fixture.page [Fixture.hello; Fixture.spoon; Fixture.hello] false);
       Ok (Fixture.page [Fixture.knife] false)]
    = (evs, [csvRecord Fixture.hello; csvRecord Fixture.spoon], Process.Completed).
Proof.
  refine (proj1 (proj2 (watermark_main_rows None accepting "q"
    [Ok (Fixture.page [Fixture.hello; Fixture.spoon; Fixture.hello] false);
     Ok (Fixture.page [Fixture.knife] false)])) _ _).
  - reflexivity.
  - intros n Hn. reflexivity.
Defined.

(** X12.  [main] of [Legacy], from the parsed argument on, with every
    [log.Fatalf] it holds: as [main] of [Watermark], with the record of
    four fields and the display path as the key.  When
    [ghauth.Transport] returned an error it dies of it before any request.
    Otherwise it hands to the writer the four-field record of each
    repository among the nodes of the answers the iteration reads, in page
    order, each display path at its first occurrence.  When the writer
    accepts them all, these are the records reported, and the run ends as
    the iteration does, or dies at the check of [writer.Error()]; when the
    writer refuses one, the run dies with [Write failed], the records
    before it accepted.  No two records have the same display path. *)
Theorem legacy_main_rows :
  ∀ (transport : option string) (writer : Process.Writer) (query : string)
    (script : list (Response Legacy.Repository)),
    (∀ err, transport = Some err →
       Process.Legacy.main transport writer query script
       = ([], [], Process.Fatalf (Process.TransportFailed err)))
    ∧ (transport = None →
       (∀ n : nat,
          (n < length (firstSeen Legacy.NameWithOwner ∅
                         (pageNodes (consumed secondaryRateLimit script))))%nat →
          Process.Write writer
            (Legacy.csvRecord <$> take (S n)
               (firstSeen Legacy.NameWithOwner ∅
                  (pageNodes (consumed secondaryRateLimit script)))) = None) →
       ∃ evs,
         Process.Legacy.main transport writer query script
         = (evs,
            Legacy.csvRecord <$> firstSeen Legacy.NameWithOwner ∅
                                   (pageNodes (consumed secondaryRateLimit script)),
            match failure secondaryRateLimit script with
            | Some err => Process.Fatalf (Process.SearchFailed err)
            | None =>
                if forallb (carriesOn secondaryRateLimit) script then Process.Waiting
                else
                  match Process.Error writer
                          (Legacy.csvRecord <$> firstSeen Legacy.NameWithOwner ∅
                             (pageNodes (consumed secondaryRateLimit script))) with
                  | Some err => Process.Fatalf (Process.FlushFailed err)
                  | None => Process.Completed
                  end
            end))
    ∧ (transport = None →
       ∀ (n : nat) err,
         (n < length (firstSeen Legacy.NameWithOwner ∅
                        (pageNodes (consumed secondaryRateLimit script))))%nat →
         (∀ m : nat, (m < n)%nat →
            Process.Write writer
              (Legacy.csvRecord <$> take (S m)
                 (firstSeen Legacy.NameWithOwner ∅
                    (pageNodes (consumed secondaryRateLimit script)))) = None) →
         Process.Write writer
           (Legacy.csvRecord <$> take (S n)
              (firstSeen Legacy.NameWithOwner ∅
                 (pageNodes (consumed secondaryRateLimit script)))) = Some err →
         ∃ evs,
           Process.Legacy.main transport writer query script
           = (evs,
              Legacy.csvRecord <$> take n
                (firstSeen Legacy.NameWithOwner ∅
                   (pageNodes (consumed secondaryRateLimit script))),
              Process.Fatalf (Process.WriteFailed err)))
    ∧ Forall (λ row : list string, length row = 4%nat)
        (Legacy.csvRecord <$> firstSeen Legacy.NameWithOwner ∅
                                (pageNodes (consumed secondaryRateLimit script)))
    ∧ NoDup ((λ row : list string, row !! 0%nat)
               <$> (Legacy.csvRecord <$> firstSeen Legacy.NameWithOwner ∅
                                           (pageNodes (consumed secondaryRateLimit script)))).
Proof.
  intros transport writer query script. unfold Process.Legacy.main.
  destruct (firstSeen_spec Legacy.NameWithOwner
              (pageNodes (consumed secondaryRateLimit script)) ∅) as (Hnd & _ & _).
  split; [by intros err ->|]. split; [|split; [|split]].
  - intros -> Hall.
    destruct (IterSearch_main_accepted Legacy.NameWithOwner Legacy.PushedAt
                Legacy.zeroRepository Legacy.csvRecord writer query script Hall)
      as (evs & items & status & Hrun & Hitems).
    unfold Legacy.IterSearch. rewrite Hrun, Hitems. exists evs.
    destruct (failure secondaryRateLimit script); [done|].
    by destruct (forallb (carriesOn secondaryRateLimit) script).
  - intros -> n err Hn Hbefore Hat.
    destruct (IterSearch_main_refused Legacy.NameWithOwner Legacy.PushedAt
                Legacy.zeroRepository Legacy.csvRecord writer query script n err
                Hn Hbefore Hat)
      as (evs & items & status & Hrun & Hitems).
    unfold Legacy.IterSearch. rewrite Hrun, Hitems. by exists evs.
  - apply Forall_fmap, Forall_forall. by intros repo _.
  - rewrite <- list_fmap_compose.
    replace ((λ row : list string, row !! 0%nat) ∘ Legacy.csvRecord
               <$> firstSeen Legacy.NameWithOwner ∅
                     (pageNodes (consumed secondaryRateLimit script)))
      with (Some <$> (Legacy.NameWithOwner
                        <$> firstSeen Legacy.NameWithOwner ∅
                              (pageNodes (consumed secondaryRateLimit script))))
      by (by rewrite <- list_fmap_compose).
    apply NoDup_fmap_2; [by intros a b [= ->]|done].
Qed.

Lemma legacy_main_rows_witness :
  ∃ evs,
    Process.Legacy.main None accepting "q"
      [Ok (Fixture.page
             [Legacy.mkRepository "octocat/hello" Fixture.never Fixture.never 7;
              Legacy.mkRepository "octocat/hello" Fixture.never Fixture.never 9;
              Legacy.mkRepository "octocat/spoon" Fixture.never Fixture.never 3]
             false)]
    = (evs,
       [Legacy.csvRecord (Legacy.mkRepository "octocat/hello" Fixture.never Fixture.never 7);
        Legacy.csvRecord (Legacy.mkRepository "octocat/spoon" Fixture.never Fixture.never 3)],
       Process.Completed).
Proof.
  refine (proj1 (proj2 (legacy_main_rows None accepting "q"
    [Ok (Fixture.page
           [Legacy.mkRepository "octocat/hello" Fixture.never Fixture.never 7;
            Legacy.mkRepository "octocat/hello" Fixture.never Fixture.never 9;
            Legacy.mkRepository "octocat/spoon" Fixture.never Fixture.never 3]
           false)])) _ _).
  - reflexivity.
  - intros n Hn. reflexivity.
Defined.


(** ** The programs with a transport and an accepting writer

    [main] of [Hourly], [Daily], [Watermark] and [Legacy] is [main] of
    [Process] when [ghauth.Transport] returned a transport and the writer
    accepts every record and reports no error. *)

Lemma Process_rangeRepos_accepting {R} (record : R -> list string) repos :
  ∀ accepted,
    Process.rangeRepos record accepting accepted repos
    = (accepted ++ map record repos, None).
Proof.
  induction repos as [|repo repos IH]; intros accepted; simpl.
  - by rewrite app_nil_r.
  - by rewrite IH, <- app_assoc.
Qed.

Lemma Process_Hourly_rangeHours_accepting query day hours : ∀ accepted script,
  let '(evs, rows, exit, rest) := Hourly.rangeHours query day hours script in
  ∃ exit',
    Process.Hourly.rangeHours accepting query day hours accepted script
    = (evs, accepted ++ rows, exit', rest)
    ∧ sameExit exit exit'.
Proof.
  induction hours as [|hour hours IH]; intros accepted script;
    cbn [Hourly.rangeHours Process.Hourly.rangeHours].
  - eexists. by rewrite app_nil_r.
  - destruct (Hourly.Search _ script) as [[evs [repos|err|]] rest].
    + rewrite Process_rangeRepos_accepting.
      specialize (IH (accepted ++ map csvRecord repos) rest).
      destruct (Hourly.rangeHours query day hours rest) as [[[evs1 rows1] exit1] rest1].
      destruct IH as (exit' & -> & Hexit). exists exit'. simpl.
      by rewrite <- app_assoc.
    + eexists. by rewrite app_nil_r.
    + eexists. by rewrite app_nil_r.
Qed.

Lemma Process_Hourly_rangeDays_accepting fuel : ∀ query day endTime accepted script,
  let '(evs, rows, exit, rest) := Hourly.rangeDays fuel query day endTime script in
  ∃ exit',
    Process.Hourly.rangeDays accepting fuel query day endTime accepted script
    = (evs, accepted ++ rows, exit', rest)
    ∧ sameExit exit exit'.
Proof.
  induction fuel as [|fuel IH]; intros query day endTime accepted script;
    cbn [Hourly.rangeDays Process.Hourly.rangeDays].
  - eexists. by rewrite app_nil_r.
  - destruct (time.After day endTime); [eexists; by rewrite app_nil_r|].
    pose proof (Process_Hourly_rangeHours_accepting query day (seqZ 0 24) accepted script)
      as Hday.
    destruct (Hourly.rangeHours query day (seqZ 0 24) script)
      as [[[evs1 rows1] exit1] rest1].
    destruct Hday as (exit1' & -> & Hexit1).
    destruct exit1 as [|[| |err]| |], exit1' as [|[| |err'| |]| |]; try done;
      try by eexists.
    specialize (IH query (time.AddDate_days day 1) endTime (accepted ++ rows1) rest1).
    destruct (Hourly.rangeDays fuel query _ endTime rest1) as [[[evs2 rows2] exit2] rest2].
    destruct IH as (exit' & -> & Hexit). exists exit'. simpl.
    by rewrite <- app_assoc.
Qed.

Lemma Process_Daily_rangeDays_accepting fuel : ∀ query day endTime accepted script,
  let '(evs, rows, exit, rest) := Daily.rangeDays fuel query day endTime script in
  ∃ exit',
    Process.Daily.rangeDays accepting fuel query day endTime accepted script
    = (evs, accepted ++ rows, exit', rest)
    ∧ sameExit exit exit'.
Proof.
  induction fuel as [|fuel IH]; intros query day endTime accepted script;
    cbn [Daily.rangeDays Process.Daily.rangeDays].
  - eexists. by rewrite app_nil_r.
  - destruct (time.After day endTime); [eexists; by rewrite app_nil_r|].
    destruct (Daily.Search _ script) as [[evs [repos|err|]] rest].
    + rewrite Process_rangeRepos_accepting.
      specialize (IH query (time.AddDate_days day 1) endTime
                    (accepted ++ map csvRecord repos) rest).
      destruct (Daily.rangeDays fuel query _ endTime rest) as [[[evs1 rows1] exit1] rest1].
      destruct IH as (exit' & -> & Hexit). exists exit'. simpl.
      by rewrite <- app_assoc.
    + eexists. by rewrite app_nil_r.
    + eexists. by rewrite app_nil_r.
Qed.

Lemma Process_rangeItems_accepting {R} (record : R -> list string) items status :
  ∀ accepted,
    let '(rows, exit) := Pushed.rangeItems record items status in
    ∃ exit',
      Process.rangeItems record accepting accepted items status
      = (accepted ++ rows, exit')
      ∧ sameExit exit exit'.
Proof.
  induction items as [|[repo [err|]] items IH]; intros accepted; simpl.
  - destruct status; eexists; by rewrite app_nil_r.
  - eexists. by rewrite app_nil_r.
  - specialize (IH (accepted ++ [record repo])).
    destruct (Pushed.rangeItems record items status) as [rows exit].
    destruct IH as (exit' & -> & Hexit). exists exit'.
    by rewrite <- app_assoc.
Qed.

Lemma sameExit_checkError exit exit' accepted :
  sameExit exit exit' →
  sameExit exit (Process.checkError accepting accepted exit').
Proof. by destruct exit as [|[| |?]| |], exit' as [|[| |?| |]| |]. Qed.

(** The four programs, with a transport and an accepting writer. *)
Lemma Process_main_accepting :
  (∀ fuel query startTime endTime script,
     let '(evs, rows, exit, rest) :=
       Hourly.main fuel query startTime endTime script in
     ∃ exit',
       Process.Hourly.main None accepting fuel query startTime endTime script
       = (evs, rows, exit', rest)
       ∧ sameExit exit exit')
  ∧ (∀ fuel query startTime endTime script,
     let '(evs, rows, exit, rest) :=
       Daily.main fuel query startTime endTime script in
     ∃ exit',
       Process.Daily.main None accepting fuel query startTime endTime script
       = (evs, rows, exit', rest)
       ∧ sameExit exit exit')
  ∧ (∀ query script,
     let '(evs, rows, exit) := Watermark.main query script in
     ∃ exit',
       Process.Watermark.main None accepting query script = (evs, rows, exit')
       ∧ sameExit exit exit')
  ∧ (∀ query script,
     let '(evs, rows, exit) := Legacy.main query script in
     ∃ exit',
       Process.Legacy.main None accepting query script = (evs, rows, exit')
       ∧ sameExit exit exit').
Proof.
  split; [|split; [|split]].
  - intros fuel query startTime endTime script.
    unfold Hourly.main, Process.Hourly.main.
    destruct (time.After startTime endTime); [by eexists|].
    pose proof (Process_Hourly_rangeDays_accepting fuel query startTime endTime [] script)
      as Hrun.
    destruct (Hourly.rangeDays fuel query startTime endTime script)
      as [[[evs rows] exit] rest].
    destruct Hrun as (exit' & -> & Hexit). eexists. split; [reflexivity|].
    by apply sameExit_checkError.
  - intros fuel query startTime endTime script.
    unfold Daily.main, Process.Daily.main.
    destruct (time.After startTime endTime); [by eexists|].
    pose proof (Process_Daily_rangeDays_accepting fuel query startTime endTime [] script)
      as Hrun.
    destruct (Daily.rangeDays fuel query startTime endTime script)
      as [[[evs rows] exit] rest].
    destruct Hrun as (exit' & -> & Hexit). eexists. split; [reflexivity|].
    by apply sameExit_checkError.
  - intros query script. unfold Watermark.main, Process.Watermark.main.
    change (Process.body csvRecord accepting)
      with (@Pushed.consumeAll Repository).
    destruct (Watermark.IterSearch Pushed.consumeAll query script)
      as [[evs items] status].
    pose proof (Process_rangeItems_accepting csvRecord items status []) as Hrun.
    destruct (Pushed.rangeItems csvRecord items status) as [rows exit].
    destruct Hrun as (exit' & -> & Hexit). eexists. split; [reflexivity|].
    by apply sameExit_checkError.
  - intros query script. unfold Legacy.main, Process.Legacy.main.
    change (Process.body Legacy.csvRecord accepting)
      with (@Pushed.consumeAll Legacy.Repository).
    destruct (Legacy.IterSearch Pushed.consumeAll query script)
      as [[evs items] status].
    pose proof (Process_rangeItems_accepting Legacy.csvRecord items status []) as Hrun.
    destruct (Pushed.rangeItems Legacy.csvRecord items status) as [rows exit].
    destruct Hrun as (exit' & -> & Hexit). eexists. split; [reflexivity|].
    by apply sameExit_checkError.
Qed.
